(** * Build context manager of pythainer ([src/pythainer/builders/contexts.py])

    A shallow embedding of [BuildContext] (registration, merge and
    materialisation of a Docker build context) over a model of POSIX
    [pathlib] paths and of a host filesystem, together with the part of
    [DockerBuilder.build] that hands the context to the container engine. *)

From Stdlib Require Import String Ascii List Strings.Byte.
From stdpp Require Import base list gmap strings sorting pretty.
Import ListNotations.
Open Scope string_scope.
Open Scope list_scope.

(** ** Posix [pathlib] paths *)

Module PurePath.

(** [str.split('/')]. *)
Fixpoint split_sep (s : string) : list string :=
  match s with
  | EmptyString => [""]
  | String c rest =>
      if Ascii.eqb c "/" then "" :: split_sep rest
      else match split_sep rest with
           | [] => [String c ""]
           | w :: ws => String c w :: ws
           end
  end.

(** [posixpath.splitroot] without the (always empty) drive:
    ["/x" -> ("/", "x")], ["//x" -> ("//", "x")], ["///x" -> ("/", "//x")]. *)
Definition splitroot (p : string) : string * string :=
  match p with
  | String c1 r1 =>
      if Ascii.eqb c1 "/" then
        match r1 with
        | String c2 r2 =>
            if Ascii.eqb c2 "/" then
              match r2 with
              | String c3 _ => if Ascii.eqb c3 "/" then ("/", r1) else ("//", r2)
              | EmptyString => ("//", r2)
              end
            else ("/", r1)
        | EmptyString => ("/", r1)
        end
      else ("", p)
  | EmptyString => ("", p)
  end.

(** A parsed [PurePosixPath]: its root (["" | "/" | "//"]) and its tail
    ([_tail]: the components, never empty strings nor ["."]). Two paths are
    equal in Python exactly when their string forms are, that is when root
    and tail are equal. *)
Record Path := mkPath { root : string; tail : list string }.

#[global] Instance Path_eq_dec : EqDecision Path.
Proof. solve_decision. Defined.

(** [PurePath._parse_path]: components split on ['/'], empty ones and
    ["."] dropped, [".."] kept. *)
Definition of_string (s : string) : Path :=
  let '(r, rel) := splitroot s in
  mkPath r (filter (fun x => x <> "" /\ x <> ".") (split_sep rel)).

(** [PathType = str | Path]. *)
Inductive PathType := PStr (s : string) | PPath (p : Path).

(** [Path(x)]. *)
Definition to_path (x : PathType) : Path :=
  match x with PStr s => of_string s | PPath p => p end.

(** [PurePath.parts]: the anchor first when there is one. *)
Definition parts (p : Path) : list string :=
  if decide (root p = "") then tail p else root p :: tail p.

(** [PurePosixPath.is_absolute]: [bool(self.root)]. *)
Definition is_absolute (p : Path) : bool := negb (bool_decide (root p = "")).

(** [PurePath.name]: the last component, or [""]. *)
Definition name (p : Path) : string := List.last (tail p) "".

(** [PurePath.parent]: lexical; the parent of an anchor or of ["."] is
    itself. *)
Definition parent (p : Path) : Path :=
  match tail p with [] => p | _ => mkPath (root p) (removelast (tail p)) end.

(** [self / other]: an absolute [other] replaces [self]. *)
Definition join (self other : Path) : Path :=
  if is_absolute other then other else mkPath (root self) (tail self ++ tail other).

(** [PurePath.is_relative_to(other)]: [other == self or other in self.parents]. *)
Definition is_relative_to (self other : Path) : Prop :=
  root self = root other /\ prefix (tail other) (tail self).

(** [PurePath.relative_to(other)] (with [walk_up=False]): raises
    [ValueError] unless [self.is_relative_to(other)]; the result is the
    rest of [self]'s tail, as a relative path. *)
Definition relative_to (self other : Path) : option Path :=
  if decide (root self = root other) then
    if decide (prefix (tail other) (tail self)) then
      Some (mkPath "" (drop (length (tail other)) (tail self)))
    else None
  else None.

End PurePath.

Import PurePath.

(** ** Exceptions raised by the modelled code *)

(** The kinds of error raised by the filesystem primitives. *)
Inductive OSErr := ENOENT | ENOTDIR | EEXIST | EISDIR | ESPECIAL | ESAMEFILE.

Inductive Exc :=
  (** [ValueError] from [PurePath.relative_to] *)
  | ValueError_relative (host ctx_root : Path)
  (** [ValueError(f"Duplicate context entry: {ctx_path}")] *)
  | ValueError_duplicate (ctx_path : Path)
  (** [ValueError(f"Duplicate context entries detected before merging: ...")] *)
  | ValueError_merge (ctx_paths : list Path)
  (** [ValueError(f"Invalid context path (must be relative, no '..'): ...")] *)
  | ValueError_invalid_ctx (ctx_path : Path)
  (** [ValueError(f"Host path must be a file or directory: ...")] *)
  | ValueError_not_file_or_dir (host : Path)
  (** [ValueError(f'Error, parent path is not a directory: ...')] ([sysutils]) *)
  | ValueError_parent_not_dir (p : Path)
  (** [ValueError("COPY requires at least one source path")] ([cmds]) *)
  | ValueError_copy_sources
  (** [ValueError("copy(): at least one source path is required")] *)
  | ValueError_copy_required
  (** [ValueError(f"Unsupported package manager: {pkg_manager}")] *)
  | ValueError_pkg_manager (pkg_manager : string)
  (** [RuntimeError("needs_ssh is True but SSH_AUTH_SOCK is not set.")] *)
  | RuntimeError_ssh
  (** [FileNotFoundError(f"Host path does not exist: ...")] *)
  | FileNotFoundError_host (host : Path)
  (** an [OSError] from [mkdir], [open] or [copyfile] *)
  | OSError (e : OSErr)
  (** [shutil.Error]: the errors collected by [copytree] *)
  | ShutilError
  (** [subprocess.CalledProcessError] of [check_output]: a command that
      exited with a non-zero status *)
  | CalledProcessError (returncode : nat) (cmd : list string).

Definition is_ValueError (e : Exc) : bool :=
  match e with
  | ValueError_relative _ _ | ValueError_duplicate _ | ValueError_merge _
  | ValueError_invalid_ctx _ | ValueError_not_file_or_dir _
  | ValueError_parent_not_dir _ | ValueError_copy_sources | ValueError_copy_required
  | ValueError_pkg_manager _ => true
  | _ => false
  end.

(** ** [BuildContext]: registration and merge *)

Module Ctx.

(** [dict[Path, Path]] (ctx_path -> host_path), in insertion order. *)
Definition Dict := list (Path * Path).

Fixpoint dict_get (k : Path) (d : Dict) : option Path :=
  match d with
  | [] => None
  | (k', v') :: d' => if decide (k = k') then Some v' else dict_get k d'
  end.

(** [d[k] = v]: an existing key keeps its position, a new one is appended. *)
Fixpoint dict_set (k v : Path) (d : Dict) : Dict :=
  match d with
  | [] => [(k, v)]
  | (k', v') :: d' => if decide (k = k') then (k', v) :: d' else (k', v') :: dict_set k v d'
  end.

(** [d.update(other)]. *)
Definition dict_update (d other : Dict) : Dict :=
  fold_left (fun acc kv => dict_set kv.1 kv.2 acc) other d.

Definition keys (d : Dict) : list Path := map fst d.

Record BuildContext := mkBuildContext {
  _context_root : option Path;
  _context_entries : Dict
}.

(** [BuildContext.__init__]: [Path(context_root) if context_root else None]
    (only [None] and the empty string are falsy). *)
Definition init (context_root : option PathType) : BuildContext :=
  {| _context_root :=
       match context_root with
       | None | Some (PStr "") => None
       | Some x => Some (to_path x)
       end;
     _context_entries := [] |}.

(** The context path computed by [add_context_entry] (lines 108-111). *)
Definition compute_ctx_path (self : BuildContext) (host_path : Path) : Exc + Path :=
  match _context_root self with
  | Some r =>
      match relative_to host_path r with
      | Some c => inr c
      | None => inl (ValueError_relative host_path r)
      end
  | None => inr (of_string (name host_path))
  end.

(** [BuildContext.add_context_entry]: the result and the context after the
    call. *)
Definition add_context_entry (self : BuildContext) (host_path : PathType)
  : (Exc + Path) * BuildContext :=
  let host_path := to_path host_path in
  match compute_ctx_path self host_path with
  | inl e => (inl e, self)
  | inr ctx_path =>
      match dict_get ctx_path (_context_entries self) with
      | Some h => if decide (h <> host_path)
                  then (inl (ValueError_duplicate ctx_path), self)
                  else (inr ctx_path,
                        {| _context_root := _context_root self;
                           _context_entries := dict_set ctx_path host_path (_context_entries self) |})
      | None => (inr ctx_path,
                 {| _context_root := _context_root self;
                    _context_entries := dict_set ctx_path host_path (_context_entries self) |})
      end
  end.

(** The keys registered in both contexts with different host paths
    ([diff_collision_paths]; a set in Python, listed here in the order of
    [self]'s keys). *)
Definition diff_collision_paths (self other : BuildContext) : list Path :=
  let collision_paths :=
    filter (fun p => is_Some (dict_get p (_context_entries other))) (keys (_context_entries self)) in
  filter (fun p => dict_get p (_context_entries self) <> dict_get p (_context_entries other))
    collision_paths.

(** [BuildContext.extend]: [self] after the call; [other] is never
    written. *)
Definition extend (self other : BuildContext) : (Exc + unit) * BuildContext :=
  match diff_collision_paths self other with
  | (_ :: _) as diff => (inl (ValueError_merge diff), self)
  | [] => (inr tt,
           {| _context_root := _context_root self;
              _context_entries := dict_update (_context_entries self) (_context_entries other) |})
  end.

End Ctx.

(** ** A host filesystem *)

Module FS.

(** What a location holds: a regular file with its bytes, a directory, or
    any other kind of entry (socket, FIFO, device node). Symbolic links are
    not modelled. *)
Inductive Node := NFile (data : list Byte.byte) | NDir | NOther.

#[global] Instance byte_eq_decision : EqDecision Byte.byte := Byte.byte_eq_dec.

#[global] Instance Node_eq_dec : EqDecision Node.
Proof. solve_decision. Defined.

(** A location is the list of components of a normalised absolute path;
    [nodes] maps every existing location to its node, [cwd] is the current
    working directory. *)
Record FS := mkFS { nodes : gmap (list string) Node; cwd : list string }.

Definition with_nodes (s : FS) (ns : gmap (list string) Node) : FS :=
  {| nodes := ns; cwd := cwd s |}.

(** Stateful code that may raise: a state and exception monad over [FS].
    On an exception the filesystem keeps every write done so far. *)
Definition IO (A : Type) : Type := FS -> (Exc + A) * FS.

Definition ret {A} (a : A) : IO A := fun s => (inr a, s).
Definition raise {A} (e : Exc) : IO A := fun s => (inl e, s).
Definition bind {A B} (m : IO A) (k : A -> IO B) : IO B :=
  fun s => match m s with
           | (inl e, s') => (inl e, s')
           | (inr a, s') => k a s'
           end.
Definition gets {A} (f : FS -> A) : IO A := fun s => (inr (f s), s).

Notation "x <- m ;; k" := (bind m (fun x => k))
  (at level 100, m at next level, right associativity).
Notation "m ;;; k" := (bind m (fun _ => k)) (at level 100, right associativity).

(** Path resolution by the kernel: every component before the last must be
    an existing directory; [".."] goes to the parent ([/..] is [/]). *)
Fixpoint walk (ns : gmap (list string) Node) (cur : list string) (comps : list string)
  : option (list string) :=
  match comps with
  | [] => Some cur
  | x :: rest =>
      match ns !! cur with
      | Some NDir => walk ns (if decide (x = "..") then removelast cur else cur ++ [x]) rest
      | _ => None
      end
  end.

Definition base (s : FS) (p : Path) : list string :=
  if is_absolute p then [] else cwd s.

Definition resolve (s : FS) (p : Path) : option (list string) :=
  walk (nodes s) (base s p) (tail p).

Definition stat (s : FS) (p : Path) : option Node :=
  match resolve s p with Some l => nodes s !! l | None => None end.

(** [Path.exists], [Path.is_file], [Path.is_dir]. *)
Definition exists_ (p : Path) : IO bool :=
  gets (fun s => match stat s p with Some _ => true | None => false end).
Definition is_file (p : Path) : IO bool :=
  gets (fun s => match stat s p with Some (NFile _) => true | _ => false end).
Definition is_dir (p : Path) : IO bool :=
  gets (fun s => match stat s p with Some NDir => true | _ => false end).

(** [os.mkdir(p)]. *)
Definition os_mkdir (p : Path) : IO unit := fun s =>
  match resolve s p with
  | None => (inl (OSError ENOENT), s)
  | Some l =>
      match nodes s !! l with
      | Some _ => (inl (OSError EEXIST), s)
      | None => (inr tt, with_nodes s (<[l := NDir]> (nodes s)))
      end
  end.

(** One step of [Path.mkdir(parents=True, exist_ok=True)]: an existing
    directory is accepted, anything else that exists is an error. *)
Definition mkdir_exist_ok (q : Path) : IO unit := fun s =>
  match os_mkdir q s with
  | (inl (OSError EEXIST), s') =>
      match is_dir q s' with
      | (inr true, _) => (inr tt, s')
      | _ => (inl (OSError EEXIST), s')
      end
  | r => r
  end.

Fixpoint mkdir_prefixes (p : Path) (ns : list nat) : IO unit :=
  match ns with
  | [] => ret tt
  | n :: ns' => mkdir_exist_ok (mkPath (root p) (take n (tail p))) ;;; mkdir_prefixes p ns'
  end.

(** [Path.mkdir(parents=True, exist_ok=True)] (also [os.makedirs(p,
    exist_ok=True)]): [os.mkdir] on [p] retried after creating the missing
    parents, which amounts to creating the missing lexical prefixes of [p]
    from the shortest one. *)
Definition mkdir_parents (p : Path) : IO unit :=
  match tail p with
  | [] => mkdir_exist_ok p
  | _ => mkdir_prefixes p (seq 1 (length (tail p)))
  end.

(** [open(l, "wb").write(data)] at a resolved location. *)
Definition write_file (l : list string) (data : list Byte.byte) : IO unit := fun s =>
  match nodes s !! l with
  | Some NDir => (inl (OSError EISDIR), s)
  | Some NOther => (inl (OSError ESPECIAL), s)
  | _ =>
      match nodes s !! removelast l with
      | Some NDir => match l with
                     | [] => (inl (OSError EISDIR), s)
                     | _ => (inr tt, with_nodes s (<[l := NFile data]> (nodes s)))
                     end
      | Some _ => (inl (OSError ENOTDIR), s)
      | None => (inl (OSError ENOENT), s)
      end
  end.

(** [shutil.copy2(src, dst)] on resolved locations: a [dst] that is a
    directory receives the file under its base name; [copyfile] refuses a
    copy onto itself and anything but a regular file. File metadata is not
    modelled. *)
Definition copy2_loc (src dst : list string) : IO unit := fun s =>
  let dst := match nodes s !! dst with
             | Some NDir => dst ++ [List.last src ""]
             | _ => dst
             end in
  if decide (dst = src) then (inl (OSError ESAMEFILE), s) else
  match nodes s !! src with
  | Some (NFile data) => write_file dst data s
  | Some NDir => (inl (OSError EISDIR), s)
  | Some NOther => (inl (OSError ESPECIAL), s)
  | None => (inl (OSError ENOENT), s)
  end.

Definition copy2 (src dst : Path) : IO unit := fun s =>
  match resolve s src, resolve s dst with
  | Some ls, Some ld => copy2_loc ls ld s
  | _, _ => (inl (OSError ENOENT), s)
  end.

(** [os.makedirs(l, exist_ok=True)] for a location whose parent the
    enclosing [copytree] has already created. *)
Definition makedir_loc (l : list string) : IO unit := fun s =>
  match nodes s !! l with
  | Some NDir => (inr tt, s)
  | Some _ => (inl (OSError EEXIST), s)
  | None =>
      match nodes s !! removelast l with
      | Some NDir => (inr tt, with_nodes s (<[l := NDir]> (nodes s)))
      | _ => (inl (OSError ENOENT), s)
      end
  end.

(** [k] is [p ++ r]: [Some r]. *)
Fixpoint strip_prefix (p k : list string) : option (list string) :=
  match p, k with
  | [], _ => Some k
  | x :: p', y :: k' => if decide (x = y) then strip_prefix p' k' else None
  | _ :: _, [] => None
  end.

Definition shallower (a b : list string * Node) : Prop := length a.1 <= length b.1.

#[global] Instance shallower_dec : RelDecision shallower.
Proof. intros a b. unfold shallower. apply _. Defined.

(** The entries strictly below [src], relative to it, parents before
    children. *)
Definition subtree (ns : gmap (list string) Node) (src : list string)
  : list (list string * Node) :=
  merge_sort shallower
    (omap (fun kv => match strip_prefix src kv.1 with
                     | Some (x :: r) => Some (x :: r, kv.2)
                     | _ => None
                     end) (map_to_list ns)).

(** Run [m]; report whether it raised, keeping its writes. *)
Definition try_ (m : IO unit) : IO bool := fun s =>
  match m s with
  | (inl _, s') => (inr true, s')
  | (inr _, s') => (inr false, s')
  end.

Definition copy_entry (src dst : list string) (e : list string * Node) : IO unit :=
  match e.2 with
  | NDir => makedir_loc (dst ++ e.1)
  | NFile _ => copy2_loc (src ++ e.1) (dst ++ e.1)
  | NOther => raise (OSError ESPECIAL)
  end.

Fixpoint copy_entries (src dst : list string) (es : list (list string * Node)) : IO bool :=
  match es with
  | [] => ret false
  | e :: es' =>
      failed <- try_ (copy_entry src dst e) ;;
      failed' <- copy_entries src dst es' ;;
      ret (failed || failed')
  end.

(** [shutil.copytree(src, dst, dirs_exist_ok=True)]: the source tree is
    listed, [dst] is created with its parents, then every entry is copied
    (directories created, files copied with [copy2]); errors on entries are
    collected and raised together at the end as [shutil.Error]. The
    recursion of the library is flattened into one pass over the listed
    entries, parents first; the listing is taken once at the start. *)
Definition copytree (src dst : Path) : IO unit := fun s =>
  match resolve s src with
  | Some ls =>
      match nodes s !! ls with
      | Some NDir =>
          let es := subtree (nodes s) ls in
          (mkdir_parents dst ;;;
           (fun s' => match resolve s' dst with
                      | Some ld => (failed <- copy_entries ls ld es ;;
                                    if failed then raise ShutilError else ret tt) s'
                      | None => (inl (OSError ENOENT), s')
                      end)) s
      | _ => (inl (OSError ENOTDIR), s)
      end
  | None => (inl (OSError ENOENT), s)
  end.

End FS.

Import FS.

(** ** [BuildContext.build] *)

Module Build.

Definition invalid_ctx_path (ctx_path : Path) : bool :=
  is_absolute ctx_path || bool_decide (".." ∈ parts ctx_path).

(** The body of the loop of [build] for one entry. *)
Definition build_entry (context_root : Path) (e : Path * Path) : IO unit :=
  let '(ctx_path, host_path) := e in
  if invalid_ctx_path ctx_path then raise (ValueError_invalid_ctx ctx_path) else
  ex <- exists_ host_path ;;
  if negb ex then raise (FileNotFoundError_host host_path) else
  let dst_path := join context_root ctx_path in
  f <- is_file host_path ;;
  if f then mkdir_parents (parent dst_path) ;;; copy2 host_path dst_path
  else
    d <- is_dir host_path ;;
    if d then mkdir_parents (parent dst_path) ;;; copytree host_path dst_path
    else raise (ValueError_not_file_or_dir host_path).

Fixpoint build_entries (context_root : Path) (es : Ctx.Dict) : IO unit :=
  match es with
  | [] => ret tt
  | e :: es' => build_entry context_root e ;;; build_entries context_root es'
  end.

(** [BuildContext.build(context_path)]. *)
Definition build (self : Ctx.BuildContext) (context_path : PathType) : IO unit :=
  let context_root := to_path context_path in
  mkdir_parents context_root ;;;
  build_entries context_root (Ctx._context_entries self).

End Build.

(** ** [DockerBuilder.build] *)

Module Docker.

(** Truthiness of a [PathType] argument: only the empty string is falsy. *)
Definition truthy (x : PathType) : bool :=
  match x with PStr "" => false | _ => true end.

(** [sysutils.mkdir]: [os.makedirs(path)] unless [path] exists. *)
Definition sys_mkdir (p : Path) : IO unit :=
  ex <- exists_ p ;;
  if ex then ret tt else mkdir_parents p.

(** [sysutils.mkdir_for_path]. *)
Definition mkdir_for_path (p : Path) : IO unit :=
  d <- is_dir p ;;
  if d then ret tt else
  let parent_path := parent p in
  d' <- is_dir parent_path ;;
  if d' then ret tt else
  f <- is_file parent_path ;;
  if f then raise (ValueError_parent_not_dir parent_path)
  else sys_mkdir parent_path.

(** [open(p, "w").write(content)]. *)
Definition write_text (p : Path) (content : list Byte.byte) : IO unit := fun s =>
  match resolve s p with
  | Some l => write_file l content s
  | None => (inl (OSError ENOENT), s)
  end.

Fixpoint write_all (ps : list Path) (content : list Byte.byte) : IO unit :=
  match ps with
  | [] => ret tt
  | p :: ps' => mkdir_for_path p ;;; write_text p content ;;; write_all ps' content
  end.

(** [DockerBuilder.generate_dockerfile], for the rendered content. *)
Definition generate_dockerfile (dockerfile_paths : list Path) (content : list Byte.byte)
  : IO unit :=
  write_all (dockerfile_paths ++ [of_string "/tmp/Dockerfile";
                                  of_string "/tmp/pythainer/docker/latest/Dockerfile"])
    content.

(** [os.path.normpath] of the components of an absolute path. *)
Fixpoint norm_dots (acc : list string) (l : list string) : list string :=
  match l with
  | [] => acc
  | x :: l' => norm_dots (if decide (x = "..") then removelast acc else acc ++ [x]) l'
  end.

(** [Path.resolve()] (no symbolic links in the model: lexical). *)
Definition path_resolve (p : Path) : IO Path :=
  gets (fun s => mkPath "/" (norm_dots [] (base s p ++ tail p))).

(** [DockerBuilder.build(dockerfile_savepath, docker_context)], up to the
    call of the container engine: the result is the directory passed to the
    engine as its build context (and its [cwd]), and the final state is the
    filesystem the engine sees. [temp_name] is the random part of the name
    [tempfile] picks; [content] is the rendered Dockerfile. The command line
    and environment are not modelled. *)
Definition build (context : Ctx.BuildContext) (content : list Byte.byte) (temp_name : string)
    (dockerfile_savepath docker_context : PathType) : IO Path :=
  let main_dir := of_string "/tmp/pythainer/docker/" in
  sys_mkdir main_dir ;;;
  let temp_path := of_string ("/tmp/pythainer/docker/docker-build-" ++ temp_name)%string in
  os_mkdir temp_path ;;;
  dockerfile_path <- path_resolve (join temp_path (of_string "Dockerfile")) ;;
  let dockerfile_paths := [dockerfile_path] ++
    (if truthy dockerfile_savepath then [to_path dockerfile_savepath] else []) in
  generate_dockerfile dockerfile_paths content ;;;
  context_path <-
    (if truthy docker_context then path_resolve (to_path docker_context)
     else
       let context_path := join temp_path (of_string "context") in
       mkdir_parents context_path ;;;
       Build.build context (PPath context_path) ;;;
       ret context_path) ;;
  ret context_path.

End Docker.

(** ** Dockerfile commands and builders ([builders/cmds.py],
    [builders/commands/run/mounts.py], [builders/__init__.py]) *)

Module Builders.

Local Infix "+s+" := String.append (at level 60, right associativity).

Definition nl : string := String "010"%char EmptyString.
Definition dq : string := String "034"%char EmptyString.

(** [str(p)] for a [PurePosixPath]: the root and the components joined by
    ['/'], or ["."] when that is empty. *)
Definition path_str (p : Path) : string :=
  match root p +s+ String.concat "/" (tail p) with
  | EmptyString => "."
  | s => s
  end.

(** [f"{x}"] for a [PathType]. *)
Definition pathtype_str (x : PathType) : string :=
  match x with PStr s => s | PPath p => path_str p end.

(** Python's ordering of [str]: lexicographic on code points. *)
Fixpoint str_le (a b : string) : bool :=
  match a, b with
  | EmptyString, _ => true
  | String _ _, EmptyString => false
  | String x a', String y b' =>
      if Nat.ltb (nat_of_ascii x) (nat_of_ascii y) then true
      else if Nat.eqb (nat_of_ascii x) (nat_of_ascii y) then str_le a' b' else false
  end.

Definition str_leR (a b : string) : Prop := str_le a b = true.

#[global] Instance str_leR_dec : RelDecision str_leR.
Proof. intros a b. unfold str_leR. apply _. Defined.

(** [sorted(l)] on strings. The ordering is total and antisymmetric, so
    the sorted permutation is unique and merge sort computes the result of
    Python's sort. *)
Definition sorted (l : list string) : list string := merge_sort str_leR l.

(** [cmds._add_pkg_apt]. *)
Definition _add_pkg_apt (packages : list string) : string :=
  let fmt_packages :=
    String.concat "" (map (fun p => "        " +s+ p +s+ " \" +s+ nl) (sorted packages)) in
  let cmd :=
    "apt-get update && apt-get install -y --no-install-recommends \" +s+ nl +s+ fmt_packages
    +s+ "    && rm -rf /var/lib/apt/lists/*" in
  "RUN " +s+ cmd.

(** The [DockerBuildCommand] classes of [cmds.py]; a COPY command holds its
    sources and destination after the conversion to [Path] of its
    [__init__]. *)
Inductive DockerBuildCommand :=
  | StrDockerBuildCommand (s : string)
  | CopyDockerBuildCommand (sources : list Path) (destination : Path) (chown chmod : option string)
  | AddPkgDockerBuildCommand (packages : list string).

(** [CopyDockerBuildCommand.__init__]. *)
Definition new_copy (sources : list PathType) (destination : PathType)
    (chown chmod : option string) : Exc + DockerBuildCommand :=
  match map to_path sources with
  | [] => inl ValueError_copy_sources
  | srcs => inr (CopyDockerBuildCommand srcs (to_path destination) chown chmod)
  end.

(** [CopyDockerBuildCommand.get_str_for_dockerfile]. *)
Definition copy_str (sources : list Path) (destination : Path) (chown chmod : option string)
  : string :=
  let flags := match chown with Some c => ["--chown=" +s+ c] | None => [] end ++
               match chmod with Some m => ["--chmod=" +s+ m] | None => [] end in
  let flags_str := match flags with [] => "" | _ => " " +s+ String.concat " " flags end in
  let sources_str := String.concat " " (map path_str sources) in
  "COPY" +s+ flags_str +s+ " " +s+ sources_str +s+ " " +s+ path_str destination.

(** [get_str_for_dockerfile(pkg_manager=...)] of each command class. *)
Definition get_str_for_dockerfile (pkg_manager : string) (c : DockerBuildCommand)
  : Exc + string :=
  match c with
  | StrDockerBuildCommand s => inr s
  | CopyDockerBuildCommand srcs dst chown chmod => inr (copy_str srcs dst chown chmod)
  | AddPkgDockerBuildCommand packages =>
      if decide (pkg_manager = "apt") then inr (_add_pkg_apt packages)
      else inl (ValueError_pkg_manager pkg_manager)
  end.

(** [str.isspace] of one character (code points below 256). *)
Definition is_space (c : ascii) : bool :=
  let n := nat_of_ascii c in
  (Nat.leb 9 n && Nat.leb n 13) || (Nat.leb 28 n && Nat.leb n 32)
  || Nat.eqb n 133 || Nat.eqb n 160.

(** [str.lstrip()], [str.rstrip()] and [str.strip()]. *)
Fixpoint lstrip (s : string) : string :=
  match s with
  | EmptyString => EmptyString
  | String c s' => if is_space c then lstrip s' else s
  end.

Fixpoint rstrip (s : string) : string :=
  match s with
  | EmptyString => EmptyString
  | String c s' =>
      match rstrip s' with
      | EmptyString => if is_space c then EmptyString else String c EmptyString
      | r => String c r
      end
  end.

Definition strip (s : string) : string := rstrip (lstrip s).

(** The generator of [render_dockerfile_content], consumed by [str.join]:
    the first exception propagates. *)
Fixpoint command_strs (pkg_manager : string) (commands : list DockerBuildCommand)
  : Exc + list string :=
  match commands with
  | [] => inr []
  | c :: cs =>
      match get_str_for_dockerfile pkg_manager c with
      | inl e => inl e
      | inr s =>
          match command_strs pkg_manager cs with
          | inl e => inl e
          | inr ss => inr (s :: ss)
          end
      end
  end.

(** [render_dockerfile_content]. *)
Definition render_dockerfile_content (package_manager : string)
    (commands : list DockerBuildCommand) : Exc + string :=
  match command_strs package_manager commands with
  | inl e => inl e
  | inr lines => inr (strip (String.concat nl lines) +s+ nl)
  end.

(** [RunMount] ([mounts.py]); the options dictionary in insertion order. *)
Inductive Scalar := SStr (s : string) | SInt (z : Z) | SBool (b : bool).

Record RunMount := mkRunMount { mount_type : string; options : list (string * Scalar) }.

(** [RunMount.to_flag]. *)
Definition to_flag (self : RunMount) : string :=
  let parts :=
    ("type=" +s+ mount_type self) ::
    flat_map (fun kv =>
                match kv.2 with
                | SBool true => [kv.1]
                | SBool false => []
                | SStr v => [kv.1 +s+ "=" +s+ v]
                | SInt v => [kv.1 +s+ "=" +s+ pretty v]
                end) (options self) in
  "--mount=" +s+ String.concat "," parts.

(** [PartialDockerBuilder]: its three attributes. *)
Record PartialDockerBuilder := mkPartialDockerBuilder {
  _build_commands : list DockerBuildCommand;
  _context : Ctx.BuildContext;
  _needs_ssh : bool
}.

(** [PartialDockerBuilder.__init__]. *)
Definition new (context_root : option PathType) : PartialDockerBuilder :=
  mkPartialDockerBuilder [] (Ctx.init context_root) false.

(** [self._build_commands.append(c)]. *)
Definition append (self : PartialDockerBuilder) (c : DockerBuildCommand) : PartialDockerBuilder :=
  mkPartialDockerBuilder (_build_commands self ++ [c]) (_context self) (_needs_ssh self).

Definition space (self : PartialDockerBuilder) : PartialDockerBuilder :=
  append self (StrDockerBuildCommand "").

Definition desc (self : PartialDockerBuilder) (text : string) : PartialDockerBuilder :=
  append self (StrDockerBuildCommand ("# " +s+ text)).

Definition from_image (self : PartialDockerBuilder) (tag : string) : PartialDockerBuilder :=
  append self (StrDockerBuildCommand ("FROM " +s+ tag)).

Definition arg (self : PartialDockerBuilder) (name : string) (value : option string)
  : PartialDockerBuilder :=
  let cmd := match value with
             | None => "ARG " +s+ name
             | Some v => "ARG " +s+ name +s+ "=" +s+ v
             end in
  append self (StrDockerBuildCommand cmd).

Definition env (self : PartialDockerBuilder) (name value : string) : PartialDockerBuilder :=
  append self (StrDockerBuildCommand ("ENV " +s+ name +s+ "=" +s+ value)).

(** [PartialDockerBuilder.run], for [mounts] given as a list (or [None]). *)
Definition run (self : PartialDockerBuilder) (command : string) (mounts : option (list RunMount))
  : PartialDockerBuilder :=
  match mounts with
  | Some ((_ :: _) as ms) =>
      let mount_flags := String.concat " " (map to_flag ms) in
      let cmd_with_mounts := mount_flags +s+ " \" +s+ nl +s+ "    " +s+ command in
      let needs_ssh :=
        if existsb (fun m => bool_decide (mount_type m = "ssh")) ms then true
        else _needs_ssh self in
      mkPartialDockerBuilder
        (_build_commands self ++ [StrDockerBuildCommand ("RUN " +s+ cmd_with_mounts)])
        (_context self) needs_ssh
  | _ => append self (StrDockerBuildCommand ("RUN " +s+ command))
  end.

Definition entrypoint (self : PartialDockerBuilder) (list_command : list string)
  : PartialDockerBuilder :=
  let body := String.concat ", " (map (fun c => dq +s+ c +s+ dq) list_command) in
  append self (StrDockerBuildCommand ("ENTRYPOINT " +s+ "[" +s+ body +s+ "]")).

Definition run_multiple (self : PartialDockerBuilder) (commands : list string)
    (mounts : option (list RunMount)) : PartialDockerBuilder :=
  run self (String.concat (" && \" +s+ nl +s+ "    ") commands) mounts.

Definition user (self : PartialDockerBuilder) (name : string) : PartialDockerBuilder :=
  let name := if decide (name = "") then "${USER_NAME}" else name in
  append self (StrDockerBuildCommand ("USER " +s+ name)).

Definition workdir (self : PartialDockerBuilder) (path : PathType) : PartialDockerBuilder :=
  append self (StrDockerBuildCommand ("WORKDIR " +s+ pathtype_str path)).

Definition add_packages (self : PartialDockerBuilder) (packages : list string)
  : PartialDockerBuilder :=
  append self (AddPkgDockerBuildCommand packages).

(** The [source] argument of [copy]: one [Path], or an iterable of paths. *)
Inductive CopySource := SrcPath (p : Path) | SrcIter (l : list PathType).

(** The list comprehension of [copy]: every [add_context_entry] updates the
    context in place, and the first exception propagates. *)
Fixpoint add_context_entries (ctx : Ctx.BuildContext) (sources : list PathType)
  : (Exc + list Path) * Ctx.BuildContext :=
  match sources with
  | [] => (inr [], ctx)
  | s :: ss =>
      match Ctx.add_context_entry ctx s with
      | (inl e, ctx') => (inl e, ctx')
      | (inr c, ctx') =>
          match add_context_entries ctx' ss with
          | (inl e, ctx'') => (inl e, ctx'')
          | (inr cs, ctx'') => (inr (c :: cs), ctx'')
          end
      end
  end.

(** [PartialDockerBuilder.copy]: the result and the builder after the call. *)
Definition copy (self : PartialDockerBuilder) (source : CopySource) (destination : PathType)
    (chown chmod : option string) : (Exc + unit) * PartialDockerBuilder :=
  let sources := match source with SrcPath p => [PPath p] | SrcIter l => l end in
  match sources with
  | [] => (inl ValueError_copy_required, self)
  | _ =>
      let '(r, ctx) := add_context_entries (_context self) sources in
      let self' := mkPartialDockerBuilder (_build_commands self) ctx (_needs_ssh self) in
      match r with
      | inl e => (inl e, self')
      | inr ctx_paths =>
          match new_copy (map PPath ctx_paths) destination chown chmod with
          | inl e => (inl e, self')
          | inr c => (inr tt, append self' c)
          end
      end
  end.

(** [PartialDockerBuilder._extend]: the commands are appended before the
    contexts are merged, the flag is updated after. *)
Definition _extend (self other : PartialDockerBuilder) : (Exc + unit) * PartialDockerBuilder :=
  let cmds := _build_commands self ++ _build_commands other in
  match Ctx.extend (_context self) (_context other) with
  | (inl e, ctx) => (inl e, mkPartialDockerBuilder cmds ctx (_needs_ssh self))
  | (inr _, ctx) =>
      (inr tt, mkPartialDockerBuilder cmds ctx (_needs_ssh self || _needs_ssh other))
  end.

(** [self |= other]. *)
Definition __ior__ (self other : PartialDockerBuilder) : (Exc + unit) * PartialDockerBuilder :=
  _extend self other.

(** [self | other]: a fresh builder extended by both; an exception
    discards it. *)
Definition __or__ (self other : PartialDockerBuilder) : Exc + PartialDockerBuilder :=
  let result_builder := new None in
  match _extend result_builder self with
  | (inl e, _) => inl e
  | (inr _, r1) =>
      match _extend r1 other with
      | (inl e, _) => inl e
      | (inr _, r2) => inr r2
      end
  end.

(** [DockerBuilder]: the inherited attributes and its own three. *)
Record DockerBuilder := mkDockerBuilder {
  partial : PartialDockerBuilder;
  _tag : string;
  _package_manager : string;
  _use_buildkit : bool
}.

(** [DockerBuilder.__init__]. *)
Definition new_docker (tag package_manager : string) (use_buildkit : bool) : DockerBuilder :=
  mkDockerBuilder (new None) tag package_manager use_buildkit.

(** [DockerBuilder.__or__]: the result is built with the default
    [use_buildkit]. *)
Definition docker_or (self : DockerBuilder) (other : PartialDockerBuilder) : Exc + DockerBuilder :=
  let result_builder := new_docker (_tag self) (_package_manager self) true in
  match _extend (partial result_builder) (partial self) with
  | (inl e, _) => inl e
  | (inr _, r1) =>
      match _extend r1 other with
      | (inl e, _) => inl e
      | (inr _, r2) =>
          inr (mkDockerBuilder r2 (_tag result_builder) (_package_manager result_builder)
                 (_use_buildkit result_builder))
      end
  end.

(** [DockerBuilder.get_build_environment]. *)
Definition get_build_environment (self : DockerBuilder) : list (string * string) :=
  if _use_buildkit self then [("BUILDKIT_PROGRESS", "plain")] else [("DOCKER_BUILDKIT", "0")].

(** One [--build-arg] of [get_build_commands]: only for a value that is not
    [None], not empty and not ["0"]. *)
Definition id_build_arg (key : string) (v : option string) : list string :=
  match v with
  | Some u => if decide (u <> "" /\ u <> "0") then ["--build-arg=" +s+ key +s+ "=" +s+ u] else []
  | None => []
  end.

(** [DockerBuilder.get_build_commands]. [which_docker] is the outcome of
    [shell_out(command=["which", "docker"], output_is_log=False)]: the
    stripped output of [check_output], or the exception it raises (a
    [CalledProcessError] when [which] finds no [docker]). It runs after the
    build arguments are collected and before [_needs_ssh] is looked at.
    [ssh_auth_sock] is [os.environ.get("SSH_AUTH_SOCK")]. *)
Definition get_build_commands (self : DockerBuilder) (which_docker : Exc + string)
    (ssh_auth_sock : option string) (dockerfile_path docker_build_dir : PathType)
    (uid gid : option string) : Exc + list string :=
  let build_args := id_build_arg "UID" uid ++ id_build_arg "GID" gid in
  match which_docker with
  | inl e => inl e
  | inr docker_path =>
      let other_args :=
        if _needs_ssh (partial self) then
          match ssh_auth_sock with
          | Some sock => if decide (sock = "") then None else Some ["--ssh"; "default=" +s+ sock]
          | None => None
          end
        else Some [] in
      match other_args with
      | None => inl RuntimeError_ssh
      | Some other_args =>
          inr ([docker_path; "build"; "--file"; pathtype_str dockerfile_path]
               ++ build_args ++ other_args
               ++ ["--tag=" +s+ _tag self; pathtype_str docker_build_dir])
      end
  end.

(** The bytes [open(..., "w").write(s)] puts in a file (UTF-8). *)
Definition encode_char (c : ascii) : list Byte.byte :=
  let n := nat_of_ascii c in
  if Nat.ltb n 128 then [byte_of_ascii c]
  else [byte_of_ascii (ascii_of_nat (192 + n / 64));
        byte_of_ascii (ascii_of_nat (128 + n mod 64))].

Fixpoint encode (s : string) : list Byte.byte :=
  match s with
  | EmptyString => []
  | String c s' => encode_char c ++ encode s'
  end.

(** [DockerBuilder.generate_dockerfile]. *)
Definition generate_dockerfile (self : DockerBuilder) (dockerfile_paths : list PathType) : IO unit :=
  match render_dockerfile_content (_package_manager self) (_build_commands (partial self)) with
  | inl e => raise e
  | inr dockerfile_content =>
      Docker.generate_dockerfile (map to_path dockerfile_paths) (encode dockerfile_content)
  end.

(** [DockerBuilder.generate_build_script]. *)
Definition generate_build_script (self : DockerBuilder) (which_docker : Exc + string)
    (ssh_auth_sock : option string) (output_path : PathType) : IO unit :=
  match get_build_commands self which_docker ssh_auth_sock (PStr "Dockerfile") (PStr ".")
          (Some "$(id -u)") (Some "$(id -g)") with
  | inl e => raise e
  | inr command =>
      let command_lst :=
        [nth 0 command "" +s+ " " +s+ nth 1 command "" +s+ " \"]
        ++ map (fun c => "    " +s+ c +s+ " \") (removelast (drop 2 command))
        ++ ["    " +s+ List.last command ""] in
      let env_commands :=
        map (fun kv => "export " +s+ kv.1 +s+ "=" +s+ kv.2) (get_build_environment self) in
      let lines := ["#!/bin/sh"; "set -ex"; ""] ++ env_commands ++ [""] ++ command_lst in
      let file_content := String.concat nl lines +s+ nl in
      Docker.mkdir_for_path (to_path output_path) ;;;
      Docker.write_text (to_path output_path) (encode file_content)
  end.

(** The evaluation of [x | other] and of [self | x] when [x] is itself an
    expression of builders that may raise: its exception propagates. *)
Definition or_l (x : Exc + PartialDockerBuilder) (other : PartialDockerBuilder)
  : Exc + PartialDockerBuilder :=
  match x with inl e => inl e | inr b => __or__ b other end.

Definition or_r (self : PartialDockerBuilder) (x : Exc + PartialDockerBuilder)
  : Exc + PartialDockerBuilder :=
  match x with inl e => inl e | inr b => __or__ self b end.

(** [PartialDockerBuilder.root] (last: its name hides the root of a path). *)
Definition root (self : PartialDockerBuilder) : PartialDockerBuilder := user self "root".

End Builders.

(** ** Vocabulary of the properties *)

Module Spec.

(** The call raised. *)
Definition raised {A} (r : Exc + A) : bool := match r with inl _ => true | inr _ => false end.

(** A component of a parsed path: not empty, not ["."], without ['/']. *)
Fixpoint no_slash (s : string) : bool :=
  match s with
  | EmptyString => true
  | String c rest => negb (Ascii.eqb c "/") && no_slash rest
  end.

Definition well_formed (p : Path) : Prop :=
  Forall (fun x => x <> "" /\ x <> "." /\ no_slash x = true) (tail p).

(** The final component of a path, as a (relative) path. *)
Definition basename (p : Path) : Path :=
  mkPath "" (match tail p with [] => [] | _ => [List.last (tail p) ""] end).

(** The contexts a program can build with the public operations ([Path]
    objects are always parsed, hence well formed; every string is, see
    [of_string_well_formed]). *)
Inductive reachable : Ctx.BuildContext -> Prop :=
  | reach_init r : reachable (Ctx.init r)
  | reach_add b hp : reachable b -> well_formed (to_path hp) ->
      reachable (Ctx.add_context_entry b hp).2
  | reach_extend b o : reachable b -> reachable o -> reachable (Ctx.extend b o).2.

(** Every directory of [ns] is still a directory in [ns']. *)
Definition dirs_grow (ns ns' : gmap (list string) Node) : Prop :=
  forall k, ns !! k = Some NDir -> ns' !! k = Some NDir.

(** The lexical prefix of [p] made of its first [n] components. *)
Definition prefix_path (p : Path) (n : nat) : Path := mkPath (root p) (take n (tail p)).

(** [s'] differs from [s] only by directories created where nothing
    existed, each at the location of a lexical prefix of [p]. *)
Definition mkdirs_only (p : Path) (s s' : FS) : Prop :=
  cwd s' = cwd s /\
  forall k, nodes s' !! k <> nodes s !! k ->
    nodes s !! k = None /\ nodes s' !! k = Some NDir /\
    exists n, n <= length (tail p) /\ resolve s' (prefix_path p n) = Some k.

(** [s'] differs from [s] only at locations in the tree of [L], and no
    directory is lost. *)
Definition writes_under (L : list string) (s s' : FS) : Prop :=
  cwd s' = cwd s /\ dirs_grow (nodes s) (nodes s') /\
  forall k, nodes s' !! k <> nodes s !! k -> prefix L k.

(** [s'] differs from [s] only by directories created at the locations of
    lexical prefixes of [p], or inside the tree of [D] (the location of
    [p]), and no directory is lost. *)
Definition build_region (p : Path) (D : list string) (s s' : FS) : Prop :=
  cwd s' = cwd s /\ dirs_grow (nodes s) (nodes s') /\
  forall k, nodes s' !! k <> nodes s !! k ->
    (nodes s !! k = None /\ nodes s' !! k = Some NDir /\
     exists n, n <= length (tail p) /\ resolve s' (prefix_path p n) = Some k) \/
    prefix D k.

End Spec.

Import Spec.

(** ** Concrete filesystems used to evaluate the code *)

Module Fixtures.

Definition mk (entries : list (list string * Node)) : FS :=
  {| nodes := list_to_map (([], NDir) :: entries); cwd := [] |}.

(** [/r1/a/x] holds ["1"], [/r2/a/x] holds ["2"]. *)
Definition fs_nested : FS :=
  mk [(["r1"], NDir); (["r1"; "a"], NDir); (["r1"; "a"; "x"], NFile [Byte.x31]);
      (["r2"], NDir); (["r2"; "a"], NDir); (["r2"; "a"; "x"], NFile [Byte.x32]);
      (["tmp"], NDir)].

(** [/r] and [/x] exist, [/r/f] and [/new] do not. *)
Definition fs_escape : FS :=
  mk [(["r"], NDir); (["x"], NFile [Byte.x31]); (["tmp"], NDir)].

(** [/h/sock] is a socket, [/h/missing] does not exist. *)
Definition fs_socket : FS :=
  mk [(["h"], NDir); (["h"; "sock"], NOther); (["tmp"], NDir)].

(** [/f] is a regular file. *)
Definition fs_file : FS := mk [(["f"], NFile [Byte.x31])].

(** [/tmp/p/file.txt] holds ["A"]. *)
Definition fs_project : FS :=
  mk [(["tmp"], NDir); (["tmp"; "p"], NDir); (["tmp"; "p"; "file.txt"], NFile [Byte.x41])].

(** Two contexts merged with [extend]: ["a/x"] (from root [/r2]) registered
    before ["a"] (from root [/r1]). *)
Definition ctx_nested : Ctx.BuildContext :=
  let a := snd (Ctx.add_context_entry (Ctx.init (Some (PStr "/r2"))) (PStr "/r2/a/x")) in
  let b := snd (Ctx.add_context_entry (Ctx.init (Some (PStr "/r1"))) (PStr "/r1/a")) in
  snd (Ctx.extend a b).

(** Root [/r]: the missing [/r/f], then [/r/../x] stored as ["../x"]. *)
Definition ctx_escape : Ctx.BuildContext :=
  let a := snd (Ctx.add_context_entry (Ctx.init (Some (PStr "/r"))) (PStr "/r/f")) in
  snd (Ctx.add_context_entry a (PStr "/r/../x")).

(** Root [/r]: only [/r/../x], stored as ["../x"]. *)
Definition ctx_escape_only : Ctx.BuildContext :=
  snd (Ctx.add_context_entry (Ctx.init (Some (PStr "/r"))) (PStr "/r/../x")).

(** No root: the socket [/h/sock], then the missing [/h/missing]. *)
Definition ctx_socket : Ctx.BuildContext :=
  let a := snd (Ctx.add_context_entry (Ctx.init None) (PStr "/h/sock")) in
  snd (Ctx.add_context_entry a (PStr "/h/missing")).

(** No root: [/tmp/p/file.txt]. *)
Definition ctx_project : Ctx.BuildContext :=
  snd (Ctx.add_context_entry (Ctx.init None) (PStr "/tmp/p/file.txt")).

(** No root: [/a/file.txt]. *)
Definition ctx_file_a : Ctx.BuildContext :=
  snd (Ctx.add_context_entry (Ctx.init None) (PStr "/a/file.txt")).

(** Root [/tmp/project]: [a/file.txt]. *)
Definition ctx_project_a : Ctx.BuildContext :=
  snd (Ctx.add_context_entry (Ctx.init (Some (PStr "/tmp/project"))) (PStr "/tmp/project/a/file.txt")).

(** Root [/tmp/project]: [a/file.txt] mapped to [/elsewhere/x]. *)
Definition ctx_project_other : Ctx.BuildContext :=
  Ctx.mkBuildContext (Some (of_string "/tmp/project"))
    [(of_string "a/file.txt", of_string "/elsewhere/x"); (of_string "b", of_string "/b")].

(** [/src/lib] is a directory holding [m.py] (["A"]), [/src/readme] holds
    ["B"]. *)
Definition fs_tree : FS :=
  mk [(["src"], NDir); (["src"; "lib"], NDir); (["src"; "lib"; "m.py"], NFile [Byte.x41]);
      (["src"; "readme"], NFile [Byte.x42]); (["tmp"], NDir)].

(** Root [/src]: the directory [lib] and the file [readme]. *)
Definition ctx_tree : Ctx.BuildContext :=
  let a := snd (Ctx.add_context_entry (Ctx.init (Some (PStr "/src"))) (PStr "/src/lib")) in
  snd (Ctx.add_context_entry a (PStr "/src/readme")).

(** A builder without context root after [copy(sources, "/app")]. *)
Definition bld_copied (sources : list PathType) : Builders.PartialDockerBuilder :=
  snd (Builders.copy (Builders.new None) (Builders.SrcIter sources) (PStr "/app") None None).

(** [f] registered as [/a/f], as [/b/f], and [g] as [/c/g]. *)
Definition bld_a : Builders.PartialDockerBuilder := bld_copied [PStr "/a/f"].
Definition bld_b : Builders.PartialDockerBuilder := bld_copied [PStr "/b/f"].
Definition bld_c : Builders.PartialDockerBuilder := bld_copied [PStr "/c/g"].

(** Context root [/src], one [FROM] line. *)
Definition bld_src : Builders.PartialDockerBuilder :=
  Builders.from_image (Builders.new (Some (PStr "/src"))) "ubuntu:24.04".

(** [bld_src] after copying [/src/lib] and [/src/readme] to [/app]. *)
Definition bld_src_copied : Builders.PartialDockerBuilder :=
  snd (Builders.copy bld_src (Builders.SrcIter [PStr "/src/lib"; PStr "/src/readme"])
         (PStr "/app") None None).

(** [bld_a] after copying [/c/g] then [/b/f], which collides on [f]. *)
Definition bld_a_failed : Builders.PartialDockerBuilder :=
  snd (Builders.copy bld_a (Builders.SrcIter [PStr "/c/g"; PStr "/b/f"]) (PStr "/app") None None).

(** [bld_a |= bld_b]. *)
Definition bld_ab_ior : Builders.PartialDockerBuilder := snd (Builders.__ior__ bld_a bld_b).

(** A [DockerBuilder] created with [use_buildkit=False]. *)
Definition docker_plain : Builders.DockerBuilder :=
  Builders.mkDockerBuilder bld_src "img" "apt" false.

(** [docker_plain | bld_c]. *)
Definition docker_merged : Builders.DockerBuilder :=
  match Builders.docker_or docker_plain bld_c with inr r => r | inl _ => docker_plain end.

(** A [yum] builder with an [add_packages] command. *)
Definition docker_yum : Builders.DockerBuilder :=
  Builders.mkDockerBuilder (Builders.add_packages bld_src ["git"]) "img" "yum" true.

(** A builder with a [RUN --mount=type=ssh] command. *)
Definition ssh_mount : Builders.RunMount := Builders.mkRunMount "ssh" [].
Definition docker_ssh : Builders.DockerBuilder :=
  Builders.mkDockerBuilder (Builders.run bld_src "git clone repo" (Some [ssh_mount]))
    "img" "apt" true.

End Fixtures.

(** * Properties *)

(** ** Dictionaries *)

Section DictFacts.
Import Ctx.

Lemma dict_get_set_eq (k v : Path) (d : Dict) : dict_get k (dict_set k v d) = Some v.
Proof.
  induction d as [|[k' v'] d IH]; simpl.
  - by rewrite decide_True.
  - destruct (decide (k = k')) as [->|Hne]; simpl.
    + by rewrite decide_True.
    + by rewrite decide_False.
Qed.

Lemma dict_get_set_ne (k k0 v : Path) (d : Dict) :
  k0 <> k -> dict_get k0 (dict_set k v d) = dict_get k0 d.
Proof.
  intros Hne. induction d as [|[k' v'] d IH]; simpl.
  - by rewrite decide_False.
  - destruct (decide (k = k')) as [->|Hne']; simpl.
    + by rewrite !(decide_False _ _ Hne).
    + destruct (decide (k0 = k')); [done|]. exact IH.
Qed.

Lemma dict_get_set (k k0 v : Path) (d : Dict) :
  dict_get k0 (dict_set k v d) = if decide (k0 = k) then Some v else dict_get k0 d.
Proof.
  destruct (decide (k0 = k)) as [->|Hne].
  - apply dict_get_set_eq.
  - by apply dict_get_set_ne.
Qed.

Lemma dict_get_In (k : Path) (d : Dict) : is_Some (dict_get k d) <-> k ∈ keys d.
Proof.
  induction d as [|[k' v'] d IH]; simpl.
  - split; [intros [? ?]; discriminate | intros H; inversion H].
  - rewrite elem_of_cons. destruct (decide (k = k')) as [->|Hne].
    + split; [by left | by eexists].
    + rewrite IH. split; [by right | intros [?|?]; done].
Qed.

Lemma keys_dict_set (k v : Path) (d : Dict) :
  keys (dict_set k v d) = if decide (k ∈ keys d) then keys d else keys d ++ [k].
Proof.
  induction d as [|[k' v'] d IH]; cbn [dict_set keys map fst].
  - case_decide as H; [inversion H | done].
  - destruct (decide (k = k')) as [->|Hne]; cbn [keys map fst].
    + destruct (decide (k' ∈ k' :: map fst d)) as [_|H]; [done|].
      exfalso. apply H. rewrite elem_of_cons. by left.
    + unfold keys in IH. rewrite IH.
      destruct (decide (k ∈ map fst d)) as [H1|H1];
        destruct (decide (k ∈ k' :: map fst d)) as [H2|H2]; try done.
      * exfalso. apply H2. rewrite elem_of_cons. by right.
      * exfalso. apply elem_of_cons in H2 as [?|?]; done.
Qed.

Lemma NoDup_keys_dict_set (k v : Path) (d : Dict) :
  NoDup (keys d) -> NoDup (keys (dict_set k v d)).
Proof.
  intros Hnd. rewrite keys_dict_set. destruct (decide (k ∈ keys d)) as [|Hnin]; [done|].
  apply NoDup_app. split; [done|]. split; [|apply NoDup_singleton].
  intros x Hx Hx'. apply list_elem_of_singleton in Hx'. subst. done.
Qed.

Lemma dict_get_update (k : Path) (d other : Dict) :
  NoDup (keys other) ->
  dict_get k (dict_update d other) =
    match dict_get k other with Some v => Some v | None => dict_get k d end.
Proof.
  unfold dict_update. revert d. induction other as [|[k' v'] other IH]; intros d Hnd; simpl.
  - done.
  - simpl in Hnd. apply NoDup_cons in Hnd as [Hnin Hnd].
    rewrite IH by done. rewrite dict_get_set.
    destruct (decide (k = k')) as [->|Hne].
    + destruct (dict_get k' other) eqn:E; [|done].
      exfalso. apply Hnin. apply dict_get_In. by eexists.
    + destruct (dict_get k other); done.
Qed.

Lemma NoDup_keys_update (d other : Dict) :
  NoDup (keys d) -> NoDup (keys (dict_update d other)).
Proof.
  unfold dict_update. revert d. induction other as [|[k' v'] other IH]; intros d Hnd; simpl.
  - done.
  - apply IH. by apply NoDup_keys_dict_set.
Qed.

Lemma keys_update_elem (k : Path) (d other : Dict) :
  k ∈ keys (dict_update d other) <-> k ∈ keys d \/ k ∈ keys other.
Proof.
  unfold dict_update. revert d. induction other as [|[k' v'] other IH]; intros d; simpl.
  - split; [by left | intros [?|Hk]; [done | inversion Hk]].
  - rewrite IH, keys_dict_set, elem_of_cons.
    destruct (decide (k' ∈ keys d)) as [Hin|Hnin].
    + split; [intros [?|?]; auto | intros [?|[->|?]]; auto].
    + rewrite elem_of_app, list_elem_of_singleton.
      split; [intros [[?|?]|?]; auto | intros [?|[?|?]]; auto].
Qed.

End DictFacts.

Lemma dict_set_same (k v : Path) (d : Ctx.Dict) :
  Ctx.dict_get k d = Some v -> Ctx.dict_set k v d = d.
Proof.
  induction d as [|[k' v'] d IH]; simpl; [discriminate|].
  destruct (decide (k = k')) as [->|Hne].
  - by intros [= ->].
  - intros H. by rewrite IH.
Qed.

Lemma compute_ctx_path_root (b b' : Ctx.BuildContext) (h : Path) :
  Ctx._context_root b = Ctx._context_root b' ->
  Ctx.compute_ctx_path b h = Ctx.compute_ctx_path b' h.
Proof. unfold Ctx.compute_ctx_path. by intros ->. Qed.

Lemma add_context_entry_ok (b : Ctx.BuildContext) (hp : PathType) (c : Path) (b' : Ctx.BuildContext) :
  Ctx.add_context_entry b hp = (inr c, b') ->
  Ctx.compute_ctx_path b (to_path hp) = inr c /\
  Ctx._context_root b' = Ctx._context_root b /\
  Ctx._context_entries b' = Ctx.dict_set c (to_path hp) (Ctx._context_entries b) /\
  (forall h, Ctx.dict_get c (Ctx._context_entries b) = Some h -> h = to_path hp).
Proof.
  unfold Ctx.add_context_entry.
  destruct (Ctx.compute_ctx_path b (to_path hp)) as [e|c0]; [discriminate|].
  destruct (Ctx.dict_get c0 (Ctx._context_entries b)) as [h|] eqn:E.
  - case_decide as Hne; [discriminate|]. intros [= Hc Hb]. subst.
    split; [done|]. split; [done|]. split; [done|].
    intros h' Hh'. rewrite E in Hh'. injection Hh' as Hh. subst.
    done.
  - intros [= Hc Hb]. subst. split; [done|]. split; [done|]. split; [done|].
    intros h' Hh'. rewrite E in Hh'. discriminate.
Qed.

Lemma add_context_entry_error (b : Ctx.BuildContext) (hp : PathType) (e : Exc) (b' : Ctx.BuildContext) :
  Ctx.add_context_entry b hp = (inl e, b') -> b' = b.
Proof.
  unfold Ctx.add_context_entry.
  destruct (Ctx.compute_ctx_path b (to_path hp)) as [e0|c0]; [by intros [= _ <-]|].
  destruct (Ctx.dict_get c0 (Ctx._context_entries b)) as [h|]; [|discriminate].
  case_decide; [by intros [= _ <-] | discriminate].
Qed.

(** C1. [add_context_entry] raises, once the context path is computed,
    exactly when that context path is registered for a different host path;
    the error is the "Duplicate context entry" [ValueError]. Re-registering
    the same host path returns the same context path and leaves the context
    unchanged, so a second identical call returns what the first returned.
    Without a [context_root], two different host paths with one base name
    collide: the second registration raises. *)
Theorem add_context_entry_collision_rule (b : Ctx.BuildContext) (hp : PathType) (ctx : Path)
  (Hctx : Ctx.compute_ctx_path b (to_path hp) = inr ctx) :
  (raised (fst (Ctx.add_context_entry b hp)) = true <->
     exists h, Ctx.dict_get ctx (Ctx._context_entries b) = Some h /\ h <> to_path hp)
  /\ (forall e, fst (Ctx.add_context_entry b hp) = inl e ->
        e = ValueError_duplicate ctx /\ is_ValueError e = true)
  /\ (Ctx.dict_get ctx (Ctx._context_entries b) = Some (to_path hp) ->
        Ctx.add_context_entry b hp = (inr ctx, b))
  /\ (forall c b', Ctx.add_context_entry b hp = (inr c, b') ->
        Ctx.add_context_entry b' hp = (inr c, b'))
  /\ (forall hp2 b', Ctx._context_root b = None -> to_path hp2 <> to_path hp ->
        name (to_path hp2) = name (to_path hp) ->
        Ctx.add_context_entry b hp = (inr ctx, b') ->
        raised (fst (Ctx.add_context_entry b' hp2)) = true).
Proof.
  split; [|split; [|split; [|split]]].
  - unfold Ctx.add_context_entry. rewrite Hctx.
    destruct (Ctx.dict_get ctx (Ctx._context_entries b)) as [h|] eqn:E.
    + case_decide as Hne; simpl.
      * split; [intros _; by exists h | done].
      * split; [discriminate|]. intros (h' & [= <-] & ?). done.
    + simpl. split; [discriminate|]. by intros (h' & ? & ?).
  - intros e. unfold Ctx.add_context_entry. rewrite Hctx.
    destruct (Ctx.dict_get ctx (Ctx._context_entries b)) as [h|]; [|discriminate].
    case_decide; simpl; [by intros [= <-] | discriminate].
  - intros Hget. unfold Ctx.add_context_entry. rewrite Hctx, Hget.
    rewrite decide_False by tauto. rewrite dict_set_same by done. by destruct b.
  - intros c b' Hadd.
    destruct (add_context_entry_ok _ _ _ _ Hadd) as (Hc & Hroot & Hent & _).
    unfold Ctx.add_context_entry.
    rewrite (compute_ctx_path_root b' b) by done. rewrite Hc, Hent, dict_get_set_eq.
    rewrite decide_False by tauto. rewrite dict_set_same by apply dict_get_set_eq.
    destruct b' as [r' e']. simpl in *. by subst.
  - intros hp2 b' Hnone Hne Hname Hadd.
    destruct (add_context_entry_ok _ _ _ _ Hadd) as (Hc & Hroot & Hent & _).
    unfold Ctx.add_context_entry, Ctx.compute_ctx_path.
    rewrite Hroot, Hnone, Hname.
    unfold Ctx.compute_ctx_path in Hc. rewrite Hnone in Hc. injection Hc as <-.
    rewrite Hent, dict_get_set_eq. rewrite decide_True by congruence. done.
Qed.

(** C9. A failed [add_context_entry] (collision, or a host path outside
    [context_root]) leaves the context exactly as it was. *)
Theorem add_context_entry_failure_leaves_context (b : Ctx.BuildContext) (hp : PathType) (e : Exc)
  (Hfail : fst (Ctx.add_context_entry b hp) = inl e) :
  snd (Ctx.add_context_entry b hp) = b.
Proof.
  destruct (Ctx.add_context_entry b hp) as [r b'] eqn:E. simpl in *. subst r.
  exact (add_context_entry_error _ _ _ _ E).
Qed.

(** ** Context paths *)

Lemma relative_to_Some (h r c : Path) :
  relative_to h r = Some c <->
  is_relative_to h r /\ c = mkPath "" (drop (length (tail r)) (tail h)).
Proof.
  unfold relative_to, is_relative_to.
  destruct (decide (root h = root r)) as [Hr|Hr];
    [destruct (decide (prefix (tail r) (tail h))) as [Hp|Hp]|].
  - split; [intros [= <-]; done | intros [_ ->]; done].
  - split; [discriminate | intros [[_ ?] _]; done].
  - split; [discriminate | intros [[? _] _]; done].
Qed.

Lemma relative_to_None (h r : Path) : relative_to h r = None <-> ~ is_relative_to h r.
Proof.
  unfold relative_to, is_relative_to.
  destruct (decide (root h = root r)) as [Hr|Hr];
    [destruct (decide (prefix (tail r) (tail h))) as [Hp|Hp]|].
  - split; [discriminate | intros H; exfalso; by apply H].
  - split; [intros _ [_ ?]; done | done].
  - split; [intros _ [? _]; done | done].
Qed.

Lemma join_relative_to (h r : Path) :
  is_relative_to h r -> join r (mkPath "" (drop (length (tail r)) (tail h))) = h.
Proof.
  intros [Hroot [k Hk]]. unfold join, is_absolute. simpl.
  rewrite Hk, drop_app_length. destruct h as [rh th]. simpl in *. by subst.
Qed.

Lemma split_sep_no_slash (x : string) : no_slash x = true -> split_sep x = [x].
Proof.
  induction x as [|c x IH]; simpl; [done|].
  intros H. apply andb_prop in H as [Hc Hx].
  apply negb_true_iff in Hc. rewrite Hc, IH by done. done.
Qed.

Lemma split_sep_components (s : string) : Forall (fun x => no_slash x = true) (split_sep s).
Proof.
  induction s as [|c s IH]; simpl.
  - by repeat constructor.
  - destruct (Ascii.eqb c "/") eqn:Ec.
    + by constructor.
    + destruct (split_sep s) as [|w ws] eqn:E.
      * constructor; [|constructor]. simpl. by rewrite Ec.
      * apply Forall_cons in IH as [Hw Hws]. constructor; [|done].
        simpl. by rewrite Ec, Hw.
Qed.

Lemma of_string_well_formed (s : string) : well_formed (of_string s).
Proof.
  unfold of_string, well_formed. destruct (splitroot s) as [r rel]. simpl.
  apply Forall_forall. intros x Hx. apply list_elem_of_filter in Hx as [[Hne Hdot] Hx].
  pose proof (split_sep_components rel) as H. rewrite Forall_forall in H. auto.
Qed.

Lemma of_string_component (x : string) :
  no_slash x = true -> x <> "." ->
  of_string x = mkPath "" (if decide (x = "") then [] else [x]).
Proof.
  intros Hx Hdot. unfold of_string.
  assert (Hsr : splitroot x = ("", x)).
  { destruct x as [|c x]; [done|]. simpl in Hx. apply andb_prop in Hx as [Hc _].
    apply negb_true_iff in Hc. simpl. by rewrite Hc. }
  rewrite Hsr, split_sep_no_slash by done.
  case_decide as He.
  - subst. rewrite filter_cons_False; [done|]. tauto.
  - rewrite filter_cons_True; [done|]. tauto.
Qed.

Lemma of_string_name_basename (h : Path) :
  well_formed h -> of_string (name h) = basename h.
Proof.
  unfold well_formed, name, basename. destruct h as [r t]. simpl.
  intros Hwf. destruct t as [|x t] using rev_ind.
  - by rewrite of_string_component.
  - apply Forall_app in Hwf as [_ Hx]. apply Forall_cons in Hx as [(Hne & Hdot & Hsl) _].
    rewrite List.last_last. rewrite of_string_component by done.
    rewrite decide_False by done. destruct (t ++ [x]) eqn:E; [|done].
    by destruct t.
Qed.

Lemma add_context_entry_fst_ok (b : Ctx.BuildContext) (hp : PathType) (c : Path) :
  fst (Ctx.add_context_entry b hp) = inr c -> Ctx.compute_ctx_path b (to_path hp) = inr c.
Proof.
  destruct (Ctx.add_context_entry b hp) as [r b'] eqn:E. simpl. intros ->.
  by apply add_context_entry_ok in E as [? _].
Qed.

(** C2. With a [context_root] [r], the context path is the host path made
    relative to [r] (a relative path [c] with [r / c] the host path), and a
    host path that is not under [r] makes the call raise a [ValueError];
    without a root it is [Path(host_path.name)], the final component of the
    host path. With root [/tmp/project], [/tmp/project/a/file.txt] and
    [/tmp/project/b/file.txt] are registered as [a/file.txt] and
    [b/file.txt]. *)
Theorem add_context_entry_context_path (b : Ctx.BuildContext) (hp : PathType) :
  (forall r, Ctx._context_root b = Some r ->
     (~ is_relative_to (to_path hp) r ->
        fst (Ctx.add_context_entry b hp) = inl (ValueError_relative (to_path hp) r))
     /\ (forall c, fst (Ctx.add_context_entry b hp) = inr c ->
        is_relative_to (to_path hp) r /\ is_absolute c = false /\ join r c = to_path hp))
  /\ (Ctx._context_root b = None ->
      forall c, fst (Ctx.add_context_entry b hp) = inr c ->
        c = of_string (name (to_path hp)) /\
        (well_formed (to_path hp) -> c = basename (to_path hp)))
  /\ (let b0 := Ctx.init (Some (PStr "/tmp/project")) in
      let '(r1, b1) := Ctx.add_context_entry b0 (PStr "/tmp/project/a/file.txt") in
      r1 = inr (of_string "a/file.txt") /\
      fst (Ctx.add_context_entry b1 (PStr "/tmp/project/b/file.txt")) = inr (of_string "b/file.txt")).
Proof.
  split; [|split].
  - intros r Hr. split.
    + intros Hnrel. unfold Ctx.add_context_entry, Ctx.compute_ctx_path. rewrite Hr.
      apply relative_to_None in Hnrel. by rewrite Hnrel.
    + intros c Hc. apply add_context_entry_fst_ok in Hc.
      unfold Ctx.compute_ctx_path in Hc. rewrite Hr in Hc.
      destruct (relative_to (to_path hp) r) as [c'|] eqn:E; [|discriminate].
      injection Hc as <-. apply relative_to_Some in E as [Hrel ->].
      split; [done|]. split; [done|]. by apply join_relative_to.
  - intros Hnone c Hc. apply add_context_entry_fst_ok in Hc.
    unfold Ctx.compute_ctx_path in Hc. rewrite Hnone in Hc. injection Hc as <-.
    split; [done|]. apply of_string_name_basename.
  - vm_compute. split; reflexivity.
Qed.

(** ** Merging *)

Lemma diff_collision_paths_elem (a b : Ctx.BuildContext) (p : Path) :
  p ∈ Ctx.diff_collision_paths a b <->
  exists h1 h2, Ctx.dict_get p (Ctx._context_entries a) = Some h1 /\
                Ctx.dict_get p (Ctx._context_entries b) = Some h2 /\ h1 <> h2.
Proof.
  unfold Ctx.diff_collision_paths. rewrite !list_elem_of_filter, <- dict_get_In.
  split.
  - intros (Hne & Hb & [h1 Ha]). destruct Hb as [h2 Hb].
    exists h1, h2. rewrite Ha, Hb in Hne. split; [done|]. split; [done|]. congruence.
  - intros (h1 & h2 & Ha & Hb & Hne). rewrite Ha, Hb.
    split; [congruence|]. split; [by eexists|by eexists].
Qed.

(** C3. [a.extend(b)] raises exactly when some context path is registered
    in both contexts with different host paths; the [ValueError] then lists
    every such context path and [a] is left as it was ([b] is only read);
    otherwise [a] afterwards maps every context path registered in [a] or in
    [b] to its host path, keeping its root: the union of the two mappings. *)
Theorem extend_merge_rule (a b : Ctx.BuildContext)
  (Hb : NoDup (Ctx.keys (Ctx._context_entries b))) :
  (raised (fst (Ctx.extend a b)) = true <->
     exists p h1 h2, Ctx.dict_get p (Ctx._context_entries a) = Some h1 /\
                     Ctx.dict_get p (Ctx._context_entries b) = Some h2 /\ h1 <> h2)
  /\ (forall e, fst (Ctx.extend a b) = inl e ->
        snd (Ctx.extend a b) = a /\ is_ValueError e = true /\
        exists ps, e = ValueError_merge ps /\
          forall p, p ∈ ps <->
            exists h1 h2, Ctx.dict_get p (Ctx._context_entries a) = Some h1 /\
                          Ctx.dict_get p (Ctx._context_entries b) = Some h2 /\ h1 <> h2)
  /\ (fst (Ctx.extend a b) = inr tt ->
        Ctx._context_root (snd (Ctx.extend a b)) = Ctx._context_root a /\
        forall p, Ctx.dict_get p (Ctx._context_entries (snd (Ctx.extend a b))) =
          match Ctx.dict_get p (Ctx._context_entries a) with
          | Some h => Some h
          | None => Ctx.dict_get p (Ctx._context_entries b)
          end).
Proof.
  unfold Ctx.extend.
  destruct (Ctx.diff_collision_paths a b) as [|q qs] eqn:E; simpl.
  - split; [|split].
    + split; [discriminate|]. intros (p & h1 & h2 & Hc).
      assert (Hp : p ∈ Ctx.diff_collision_paths a b) by (apply diff_collision_paths_elem; eauto).
      rewrite E in Hp. inversion Hp.
    + intros e; discriminate.
    + intros _. split; [done|]. intros p. rewrite dict_get_update by done.
      destruct (Ctx.dict_get p (Ctx._context_entries a)) as [h1|] eqn:Ha;
        destruct (Ctx.dict_get p (Ctx._context_entries b)) as [h2|] eqn:Hb'; try done.
      destruct (decide (h1 = h2)) as [->|Hne]; [done|].
      assert (Hp : p ∈ Ctx.diff_collision_paths a b) by (apply diff_collision_paths_elem; eauto).
      rewrite E in Hp. inversion Hp.
  - split; [|split].
    + split; [intros _|done].
      assert (Hq : q ∈ Ctx.diff_collision_paths a b) by (rewrite E; by left).
      apply diff_collision_paths_elem in Hq. by exists q.
    + intros e He. injection He as He. subst e. split; [done|]. split; [done|].
      exists (q :: qs). split; [done|]. intros p. rewrite <- E. apply diff_collision_paths_elem.
    + discriminate.
Qed.

(** ** Invariant of the mapping *)

Lemma compute_ctx_path_relative (b : Ctx.BuildContext) (h c : Path) :
  well_formed h -> Ctx.compute_ctx_path b h = inr c -> is_absolute c = false.
Proof.
  intros Hwf. unfold Ctx.compute_ctx_path.
  destruct (Ctx._context_root b) as [r|].
  - destruct (relative_to h r) as [c'|] eqn:E; [|discriminate].
    intros [= <-]. apply relative_to_Some in E as [_ ->]. done.
  - intros [= <-]. rewrite of_string_name_basename by done. done.
Qed.

(** C7 (as amended). In every context built from [init] by
    [add_context_entry] and [extend], every registered context path is
    relative (no root) and each context path is registered once, so it maps
    to exactly one host path. *)
Theorem reachable_context_paths (b : Ctx.BuildContext) (Hb : reachable b) :
  NoDup (Ctx.keys (Ctx._context_entries b)) /\
  forall p, p ∈ Ctx.keys (Ctx._context_entries b) -> is_absolute p = false.
Proof.
  induction Hb as [r | b hp Hb [IHnd IHrel] Hwf | b o Hb [IHnd IHrel] Ho [IHndo IHrelo]].
  - split; [constructor|]. intros p Hp. inversion Hp.
  - destruct (Ctx.add_context_entry b hp) as [[e|c] b'] eqn:E; simpl.
    + apply add_context_entry_error in E. by subst.
    + apply add_context_entry_ok in E as (Hc & _ & Hent & _). rewrite Hent.
      split; [by apply NoDup_keys_dict_set|].
      intros p Hp. rewrite keys_dict_set in Hp.
      revert Hp. case_decide; intros Hp; [by apply IHrel|].
      apply elem_of_app in Hp as [Hp|Hp]; [by apply IHrel|].
      apply list_elem_of_singleton in Hp as ->. by eapply compute_ctx_path_relative.
  - unfold Ctx.extend. destruct (Ctx.diff_collision_paths b o); simpl; [|done].
    split; [by apply NoDup_keys_update|].
    intros p Hp. apply keys_update_elem in Hp as [Hp|Hp]; auto.
Qed.

Import Fixtures.

(** C7 counterexample. Without a root, [add_context_entry] stores the last
    component of the host path as given: for [/a/..] it is [".."], so a
    context path with a [".."] component is reachable. *)
Lemma reachable_dotdot_context_path :
  let b := snd (Ctx.add_context_entry (Ctx.init None) (PStr "/a/..")) in
  reachable b /\ Ctx._context_entries b = [(mkPath "" [".."], of_string "/a/..")].
Proof.
  split.
  - apply reach_add; [apply reach_init | apply of_string_well_formed].
  - vm_compute. reflexivity.
Qed.

(** C4 counterexample. In [ctx_nested] the context path ["a/x"] is mapped
    to [/r2/a/x] (a file holding ["2"]) and ["a"] to the directory [/r1/a];
    both hosts exist and both context paths are valid. [build] succeeds, but
    the later copy of [/r1/a] overwrites [dest/a/x] with ["1"]. *)
Lemma build_nested_context_paths_overwrite :
  Ctx.dict_get (of_string "a/x") (Ctx._context_entries ctx_nested) = Some (of_string "/r2/a/x") /\
  Ctx.dict_get (of_string "a") (Ctx._context_entries ctx_nested) = Some (of_string "/r1/a") /\
  stat fs_nested (of_string "/r2/a/x") = Some (NFile [Byte.x32]) /\
  stat fs_nested (of_string "/r1/a") = Some NDir /\
  let '(r, s) := Build.build ctx_nested (PStr "/tmp/ctx") fs_nested in
  r = inr tt /\ stat s (of_string "/tmp/ctx/a/x") = Some (NFile [Byte.x31]).
Proof. vm_compute. repeat split. Qed.

(** C5 counterexample. [ctx_escape] registers ["f"] (host [/r/f], missing)
    before the escaping ["../x"]. Building it into [/new/ctx] does not fail
    with a validation error: it stops at the missing host with a not-found
    error, after creating [/new], outside the destination tree. *)
Lemma build_escape_not_validation_error :
  Ctx._context_entries ctx_escape =
    [(of_string "f", of_string "/r/f"); (of_string "../x", of_string "/r/../x")] /\
  stat fs_escape (of_string "/new") = None /\
  let '(r, s) := Build.build ctx_escape (PStr "/new/ctx") fs_escape in
  r = inl (FileNotFoundError_host (of_string "/r/f")) /\
  is_ValueError (FileNotFoundError_host (of_string "/r/f")) = false /\
  stat s (of_string "/new") = Some NDir.
Proof. vm_compute. repeat split. Qed.

(** C6 counterexample. [ctx_socket] registers the socket [/h/sock] before
    the missing [/h/missing]: [build] raises the validation error for the
    socket and never reports the missing host. *)
Lemma build_socket_hides_missing_host :
  Ctx._context_entries ctx_socket =
    [(of_string "sock", of_string "/h/sock"); (of_string "missing", of_string "/h/missing")] /\
  stat fs_socket (of_string "/h/missing") = None /\
  fst (Build.build ctx_socket (PStr "/tmp/ctx") fs_socket) =
    inl (ValueError_not_file_or_dir (of_string "/h/sock")).
Proof. vm_compute. repeat split. Qed.

(** C10 counterexample. Building the empty context into [/f], an existing
    regular file, raises [FileExistsError]. *)
Lemma build_empty_onto_file :
  stat fs_file (of_string "/f") = Some (NFile [Byte.x31]) /\
  Build.build (Ctx.init None) (PStr "/f") fs_file = (inl (OSError EEXIST), fs_file).
Proof. vm_compute. repeat split. Qed.

(** C8 (code). With [docker_context="/tmp/ctx"] the engine is handed
    [/tmp/ctx], which [DockerBuilder.build] never creates nor fills: the
    registered [/tmp/p/file.txt] is not in it. Without [docker_context] the
    temporary context directory does receive [file.txt]. *)
Theorem docker_build_context_not_materialized :
  (let '(r, s) := Docker.build ctx_project [Byte.x41] "abc" (PStr "") (PStr "/tmp/ctx") fs_project in
   r = inr (of_string "/tmp/ctx") /\
   stat s (of_string "/tmp/ctx") = None /\
   stat s (of_string "/tmp/ctx/file.txt") = None) /\
  (let '(r, s) := Docker.build ctx_project [Byte.x41] "abc" (PStr "") (PStr "") fs_project in
   r = inr (of_string "/tmp/pythainer/docker/docker-build-abc/context") /\
   stat s (of_string "/tmp/pythainer/docker/docker-build-abc/context/file.txt") =
     Some (NFile [Byte.x41])).
Proof. vm_compute. repeat split. Qed.

(** Witness of [add_context_entry_collision_rule]: [/b/file.txt] after
    [/a/file.txt], no root. *)
Lemma add_context_entry_collision_rule_witness :
  Ctx.compute_ctx_path ctx_file_a (to_path (PStr "/b/file.txt")) = inr (of_string "file.txt") /\
  (raised (fst (Ctx.add_context_entry ctx_file_a (PStr "/b/file.txt"))) = true <->
     exists h, Ctx.dict_get (of_string "file.txt") (Ctx._context_entries ctx_file_a) = Some h /\
               h <> to_path (PStr "/b/file.txt")).
Proof.
  assert (H : Ctx.compute_ctx_path ctx_file_a (to_path (PStr "/b/file.txt")) =
              inr (of_string "file.txt")) by (vm_compute; reflexivity).
  split; [exact H | exact (proj1 (add_context_entry_collision_rule _ _ _ H))].
Defined.

(** Witness of [add_context_entry_failure_leaves_context]. *)
Lemma add_context_entry_failure_leaves_context_witness :
  fst (Ctx.add_context_entry ctx_file_a (PStr "/b/file.txt")) =
    inl (ValueError_duplicate (of_string "file.txt")) /\
  snd (Ctx.add_context_entry ctx_file_a (PStr "/b/file.txt")) = ctx_file_a.
Proof.
  assert (H : fst (Ctx.add_context_entry ctx_file_a (PStr "/b/file.txt")) =
              inl (ValueError_duplicate (of_string "file.txt"))) by (vm_compute; reflexivity).
  split; [exact H | exact (add_context_entry_failure_leaves_context _ _ _ H)].
Defined.

(** Witness of [extend_merge_rule]: [a/file.txt] is registered in both
    contexts with different hosts. *)
Lemma extend_merge_rule_witness :
  NoDup (Ctx.keys (Ctx._context_entries ctx_project_other)) /\
  (raised (fst (Ctx.extend ctx_project_a ctx_project_other)) = true <->
     exists p h1 h2, Ctx.dict_get p (Ctx._context_entries ctx_project_a) = Some h1 /\
                     Ctx.dict_get p (Ctx._context_entries ctx_project_other) = Some h2 /\
                     h1 <> h2).
Proof.
  assert (H : NoDup (Ctx.keys (Ctx._context_entries ctx_project_other))).
  { vm_compute. repeat constructor; vm_compute; intros Hin;
      repeat (apply elem_of_cons in Hin as [Hin|Hin]); try discriminate;
      inversion Hin. }
  split; [exact H | exact (proj1 (extend_merge_rule _ _ H))].
Defined.

(** Witness of [reachable_context_paths]. *)
Lemma reachable_context_paths_witness :
  reachable ctx_project_a /\
  NoDup (Ctx.keys (Ctx._context_entries ctx_project_a)).
Proof.
  assert (H : reachable ctx_project_a).
  { apply reach_add; [apply reach_init | apply of_string_well_formed]. }
  split; [exact H | exact (proj1 (reachable_context_paths _ H))].
Defined.

(** ** Filesystem: resolution and directory creation *)

Lemma walk_mono (ns ns' : gmap (list string) Node) (cur comps : list string) (l : list string) :
  dirs_grow ns ns' -> walk ns cur comps = Some l -> walk ns' cur comps = Some l.
Proof.
  intros Hg. revert cur. induction comps as [|x comps IH]; simpl; intros cur; [done|].
  destruct (ns !! cur) as [[]|] eqn:E; try discriminate.
  rewrite (Hg _ E). apply IH.
Qed.

Lemma resolve_mono (s s' : FS) (q : Path) (l : list string) :
  cwd s' = cwd s -> dirs_grow (nodes s) (nodes s') ->
  resolve s q = Some l -> resolve s' q = Some l.
Proof.
  intros Hc Hg. unfold resolve, base. rewrite Hc. by apply walk_mono.
Qed.

Lemma stat_dir_mono (s s' : FS) (q : Path) :
  cwd s' = cwd s -> dirs_grow (nodes s) (nodes s') ->
  stat s q = Some NDir -> stat s' q = Some NDir.
Proof.
  intros Hc Hg. unfold stat.
  destruct (resolve s q) as [l|] eqn:E; [|discriminate].
  rewrite (resolve_mono s s' q l Hc Hg E). apply Hg.
Qed.

Lemma dirs_grow_refl (ns : gmap (list string) Node) : dirs_grow ns ns.
Proof. by intros k. Qed.

Lemma dirs_grow_trans (ns1 ns2 ns3 : gmap (list string) Node) :
  dirs_grow ns1 ns2 -> dirs_grow ns2 ns3 -> dirs_grow ns1 ns3.
Proof. unfold dirs_grow. auto. Qed.

Lemma dirs_grow_insert_new (ns : gmap (list string) Node) (l : list string) (n : Node) :
  ns !! l = None -> dirs_grow ns (<[l := n]> ns).
Proof.
  intros Hl k Hk. rewrite lookup_insert_ne; [done|]. intros ->. congruence.
Qed.

Lemma mkdirs_only_refl (p : Path) (s : FS) : mkdirs_only p s s.
Proof. split; [done|]. intros k Hk. by contradiction Hk. Qed.

Lemma mkdirs_only_grow (p : Path) (s s' : FS) :
  mkdirs_only p s s' -> dirs_grow (nodes s) (nodes s').
Proof.
  intros [_ Hk] k Hd. destruct (decide (nodes s' !! k = nodes s !! k)) as [E|E].
  - by rewrite E.
  - destruct (Hk k E) as (Hn & _). congruence.
Qed.

Lemma mkdirs_only_trans (p : Path) (s1 s2 s3 : FS) :
  mkdirs_only p s1 s2 -> mkdirs_only p s2 s3 -> mkdirs_only p s1 s3.
Proof.
  intros H12 H23.
  pose proof (mkdirs_only_grow _ _ _ H12) as G12.
  pose proof (mkdirs_only_grow _ _ _ H23) as G23.
  destruct H12 as [C12 K12], H23 as [C23 K23].
  split; [congruence|]. intros k Hk.
  destruct (decide (nodes s2 !! k = nodes s1 !! k)) as [E12|E12].
  - assert (E23 : nodes s3 !! k <> nodes s2 !! k) by congruence.
    destruct (K23 k E23) as (? & ? & n & ? & ?). split; [congruence|]. eauto.
  - destruct (K12 k E12) as (? & D2 & n & ? & R).
    split; [done|]. split; [by apply G23|].
    exists n. split; [done|]. eapply resolve_mono; [| |exact R]; [done|done].
Qed.

Lemma os_mkdir_cases (q : Path) (s s' : FS) (r : Exc + unit) :
  os_mkdir q s = (r, s') ->
  s' = s \/
  (r = inr tt /\ exists l, resolve s q = Some l /\ nodes s !! l = None /\
                           s' = with_nodes s (<[l := NDir]> (nodes s))).
Proof.
  unfold os_mkdir. destruct (resolve s q) as [l|] eqn:R.
  - destruct (nodes s !! l) eqn:E; intros [= <- <-]; [by left|]. right. eauto.
  - intros [= <- <-]. by left.
Qed.

Lemma mkdir_exist_ok_cases (q : Path) (s s' : FS) (r : Exc + unit) :
  mkdir_exist_ok q s = (r, s') ->
  s' = s \/
  (r = inr tt /\ exists l, resolve s q = Some l /\ nodes s !! l = None /\
                           s' = with_nodes s (<[l := NDir]> (nodes s))).
Proof.
  unfold mkdir_exist_ok. destruct (os_mkdir q s) as [r0 s0] eqn:E.
  apply os_mkdir_cases in E as [->|(-> & l & ? & ? & ->)].
  - destruct r0 as [e|u]; [|intros [= <- <-]; by left].
    destruct e as [| | | | | | | | | | |e| |]; try (intros [= <- <-]; by left).
    destruct e; try (intros [= <- <-]; by left).
    destruct (is_dir q s) as [[|[]] ?]; intros [= <- <-]; by left.
  - intros [= <- <-]. right. eauto.
Qed.

Lemma mkdir_exist_ok_grow (q : Path) (s s' : FS) (r : Exc + unit) :
  mkdir_exist_ok q s = (r, s') -> cwd s' = cwd s /\ dirs_grow (nodes s) (nodes s').
Proof.
  intros E. apply mkdir_exist_ok_cases in E as [->|(_ & l & _ & Hl & ->)].
  - split; [done|]. apply dirs_grow_refl.
  - split; [done|]. by apply dirs_grow_insert_new.
Qed.

Lemma mkdir_exist_ok_ok (q : Path) (s s' : FS) :
  mkdir_exist_ok q s = (inr tt, s') -> stat s' q = Some NDir.
Proof.
  unfold mkdir_exist_ok, os_mkdir.
  destruct (resolve s q) as [l|] eqn:R; [|discriminate].
  destruct (nodes s !! l) as [n|] eqn:E.
  - unfold is_dir, gets. destruct (stat s q) as [[]|] eqn:St; try discriminate.
    by intros [= <-].
  - intros [= <-]. unfold stat.
    rewrite (resolve_mono s _ q l) by (done || by apply dirs_grow_insert_new).
    simpl. apply lookup_insert_eq.
Qed.

Lemma mkdir_exist_ok_mkdirs (p : Path) (n : nat) (s s' : FS) (r : Exc + unit) :
  n <= length (tail p) -> mkdir_exist_ok (prefix_path p n) s = (r, s') -> mkdirs_only p s s'.
Proof.
  intros Hn E. apply mkdir_exist_ok_cases in E as [->|(_ & l & R & Hl & ->)].
  - apply mkdirs_only_refl.
  - split; [done|]. intros k Hk. simpl in *.
    destruct (decide (k = l)) as [->|Hne].
    + rewrite lookup_insert_eq. split; [done|]. split; [done|].
      exists n. split; [done|].
      eapply resolve_mono; [| |exact R]; [done|by apply dirs_grow_insert_new].
    + rewrite lookup_insert_ne in Hk by congruence. by contradiction Hk.
Qed.

Lemma mkdir_prefixes_step (p : Path) (n : nat) (ns : list nat) (s : FS) :
  mkdir_prefixes p (n :: ns) s =
  match mkdir_exist_ok (prefix_path p n) s with
  | (inl e, s1) => (inl e, s1)
  | (inr _, s1) => mkdir_prefixes p ns s1
  end.
Proof. reflexivity. Qed.

Lemma mkdir_prefixes_mkdirs (p : Path) (ns : list nat) (s : FS) :
  Forall (fun n => n <= length (tail p)) ns -> mkdirs_only p s (snd (mkdir_prefixes p ns s)).
Proof.
  revert s. induction ns as [|n ns IH]; intros s Hns; [apply mkdirs_only_refl|].
  apply Forall_cons in Hns as [Hn Hns].
  rewrite mkdir_prefixes_step.
  destruct (mkdir_exist_ok (prefix_path p n) s) as [[e|u] s1] eqn:E;
    pose proof (mkdir_exist_ok_mkdirs _ _ _ _ _ Hn E); [done|].
  eapply mkdirs_only_trans; [done|]. by apply IH.
Qed.

Lemma mkdir_prefixes_grow (p : Path) (ns : list nat) (s : FS) :
  cwd (snd (mkdir_prefixes p ns s)) = cwd s /\
  dirs_grow (nodes s) (nodes (snd (mkdir_prefixes p ns s))).
Proof.
  revert s. induction ns as [|n ns IH]; intros s; [split; [done|apply dirs_grow_refl]|].
  rewrite mkdir_prefixes_step.
  destruct (mkdir_exist_ok (prefix_path p n) s) as [[e|u] s1] eqn:E;
    apply mkdir_exist_ok_grow in E as [C G]; [done|].
  destruct (IH s1) as [C' G']. split; [congruence|]. by eapply dirs_grow_trans.
Qed.

Lemma mkdir_prefixes_ok (p : Path) (ns : list nat) (n : nat) (s s' : FS) :
  mkdir_prefixes p (ns ++ [n]) s = (inr tt, s') -> stat s' (prefix_path p n) = Some NDir.
Proof.
  revert s. induction ns as [|m ns IH]; intros s; simpl app; rewrite mkdir_prefixes_step.
  - destruct (mkdir_exist_ok (prefix_path p n) s) as [[e|[]] s1] eqn:E; [discriminate|].
    simpl. intros [= <-]. by eapply mkdir_exist_ok_ok.
  - destruct (mkdir_exist_ok (prefix_path p m) s) as [[e|u] s1] eqn:E; [discriminate|].
    apply IH.
Qed.

Lemma mkdir_parents_mkdirs (p : Path) (s : FS) : mkdirs_only p s (snd (mkdir_parents p s)).
Proof.
  unfold mkdir_parents. destruct (tail p) as [|x xs] eqn:T.
  - assert (Hp : prefix_path p 0 = p) by (destruct p; simpl in *; by subst).
    destruct (mkdir_exist_ok p s) eqn:E.
    apply (mkdir_exist_ok_mkdirs p 0 s _ s0); [lia|by rewrite Hp].
  - rewrite <- T. apply mkdir_prefixes_mkdirs. apply Forall_forall.
    intros n Hn. apply elem_of_seq in Hn. lia.
Qed.

Lemma mkdir_parents_grow (p : Path) (s : FS) :
  cwd (snd (mkdir_parents p s)) = cwd s /\ dirs_grow (nodes s) (nodes (snd (mkdir_parents p s))).
Proof.
  pose proof (mkdir_parents_mkdirs p s) as H. split; [apply H|]. by eapply mkdirs_only_grow.
Qed.

Lemma mkdir_parents_ok (p : Path) (s s' : FS) :
  mkdir_parents p s = (inr tt, s') -> stat s' p = Some NDir.
Proof.
  unfold mkdir_parents. destruct (tail p) as [|x xs] eqn:T; [apply mkdir_exist_ok_ok|].
  rewrite <- T. replace (length (tail p)) with (S (length (tail p) - 1)) by (rewrite T; simpl; lia).
  rewrite seq_S. intros E. apply mkdir_prefixes_ok in E.
  replace (prefix_path p (1 + (length (tail p) - 1))) with p in E; [done|].
  unfold prefix_path. rewrite take_ge by (rewrite T; simpl; lia). by destruct p.
Qed.

(** Resolution of components without [".."] through directories. *)
Lemma walk_plain_dirs (ns : gmap (list string) Node) (cur comps : list string) :
  ".." ∉ comps ->
  (forall m, m < length comps -> ns !! (cur ++ take m comps) = Some NDir) ->
  walk ns cur comps = Some (cur ++ comps).
Proof.
  revert cur. induction comps as [|x comps IH]; intros cur Hdd Hd; simpl.
  - by rewrite app_nil_r.
  - rewrite not_elem_of_cons in Hdd. destruct Hdd as [Hx Hdd].
    pose proof (Hd 0 ltac:(simpl; lia)) as H0. simpl in H0. rewrite app_nil_r in H0.
    rewrite H0. rewrite decide_False by done.
    rewrite IH; [by rewrite <- app_assoc|done|].
    intros m Hm. rewrite <- app_assoc. apply (Hd (S m)). simpl. lia.
Qed.

Lemma walk_plain (ns : gmap (list string) Node) (cur comps l : list string) :
  ".." ∉ comps -> walk ns cur comps = Some l -> l = cur ++ comps.
Proof.
  revert cur. induction comps as [|x comps IH]; intros cur Hdd; simpl.
  - intros [= <-]. by rewrite app_nil_r.
  - rewrite not_elem_of_cons in Hdd. destruct Hdd as [Hx Hdd].
    destruct (ns !! cur) as [[]|]; try discriminate.
    rewrite decide_False by done. intros W. apply IH in W; [|done].
    by rewrite W, <- app_assoc.
Qed.

Lemma walk_app (ns : gmap (list string) Node) (cur c1 c2 : list string) :
  walk ns cur (c1 ++ c2) = match walk ns cur c1 with Some l => walk ns l c2 | None => None end.
Proof.
  revert cur. induction c1 as [|x c1 IH]; intros cur; simpl; [done|].
  destruct (ns !! cur) as [[]|]; auto.
Qed.

Lemma base_prefix_path (s : FS) (p : Path) (n : nat) : base s (prefix_path p n) = base s p.
Proof. done. Qed.

Lemma length_base_take (b l : list string) (m : nat) :
  m <= length l -> length (b ++ take m l) = length b + m.
Proof. intros. rewrite length_app, length_take_le; lia. Qed.

Lemma mkdir_prefixes_plain (p : Path) (c k : nat) (s : FS) :
  ".." ∉ tail p -> k + c = S (length (tail p)) -> 1 <= k ->
  (forall m, m < k -> nodes s !! (base s p ++ take m (tail p)) = Some NDir) ->
  (forall m, k <= m <= length (tail p) ->
     nodes s !! (base s p ++ take m (tail p)) = None \/
     nodes s !! (base s p ++ take m (tail p)) = Some NDir) ->
  let '(r, s') := mkdir_prefixes p (seq k c) s in
  r = inr tt /\ cwd s' = cwd s /\
  (forall m, m <= length (tail p) -> nodes s' !! (base s p ++ take m (tail p)) = Some NDir) /\
  (forall key, (forall m, k <= m <= length (tail p) -> key <> base s p ++ take m (tail p)) ->
     nodes s' !! key = nodes s !! key).
Proof.
  intros Hdd. revert k s. induction c as [|c IH]; intros k s Hkc Hk Hlt Hge.
  - simpl. split; [done|]. split; [done|]. split; [|done].
    intros m Hm. apply Hlt. lia.
  - rewrite <- cons_seq, mkdir_prefixes_step.
    set (L := base s p ++ take k (tail p)).
    assert (HR : resolve s (prefix_path p k) = Some L).
    { unfold resolve. rewrite base_prefix_path. simpl.
      apply walk_plain_dirs.
      - intros Hin. apply Hdd. by apply subseteq_take in Hin.
      - intros m Hm. rewrite take_take. rewrite length_take in Hm.
        apply Hlt. lia. }
    assert (HL : nodes s !! L = None \/ nodes s !! L = Some NDir) by (apply Hge; lia).
    assert (Hne : forall m, m <= length (tail p) -> m <> k ->
              base s p ++ take m (tail p) <> L).
    { intros m Hm Hmk E. apply (f_equal length) in E. unfold L in E.
      rewrite !length_base_take in E by lia. lia. }
    assert (Hstep : exists s1, mkdir_exist_ok (prefix_path p k) s = (inr tt, s1) /\
              cwd s1 = cwd s /\ nodes s1 !! L = Some NDir /\
              forall key, key <> L -> nodes s1 !! key = nodes s !! key).
    { unfold mkdir_exist_ok, os_mkdir. rewrite HR.
      destruct HL as [HL|HL]; rewrite HL.
      - eexists. split; [reflexivity|]. simpl. split; [done|].
        split; [apply lookup_insert_eq|]. intros key Hk'. by apply lookup_insert_ne.
      - unfold is_dir, gets, stat. rewrite HR, HL. eexists. split; [reflexivity|]. done. }
    destruct Hstep as (s1 & E1 & C1 & D1 & U1). rewrite E1.
    assert (Hb : base s1 p = base s p) by (unfold base; by rewrite C1).
    specialize (IH (S k) s1). rewrite Hb in IH.
    destruct (mkdir_prefixes p (seq (S k) c) s1) as [r s'].
    destruct IH as (Hr & C' & D' & U').
    + lia.
    + lia.
    + intros m Hm. destruct (decide (m = k)) as [->|Hmk]; [done|].
      rewrite U1; [apply Hlt; lia|]. apply Hne; lia.
    + intros m Hm. rewrite U1 by (apply Hne; lia). apply Hge. lia.
    + split; [done|]. split; [congruence|]. split; [done|].
      intros key Hkey. rewrite U'; [apply U1; apply Hkey; lia|].
      intros m Hm. apply Hkey. lia.
Qed.

(** [mkdir(parents=True, exist_ok=True)] on a path without [".."] whose
    existing prefixes are directories: it succeeds and creates exactly the
    missing prefixes. *)
Lemma mkdir_parents_plain (p : Path) (s : FS) :
  ".." ∉ tail p -> nodes s !! base s p = Some NDir ->
  (forall m, 1 <= m <= length (tail p) ->
     nodes s !! (base s p ++ take m (tail p)) = None \/
     nodes s !! (base s p ++ take m (tail p)) = Some NDir) ->
  let '(r, s') := mkdir_parents p s in
  r = inr tt /\ cwd s' = cwd s /\
  (forall m, m <= length (tail p) -> nodes s' !! (base s p ++ take m (tail p)) = Some NDir) /\
  (forall key, (forall m, 1 <= m <= length (tail p) -> key <> base s p ++ take m (tail p)) ->
     nodes s' !! key = nodes s !! key).
Proof.
  intros Hdd Hbase Hge. unfold mkdir_parents.
  destruct (tail p) as [|x xs] eqn:T.
  - assert (HR : resolve s p = Some (base s p)) by (unfold resolve; by rewrite T).
    unfold mkdir_exist_ok, os_mkdir, is_dir, gets, stat. rewrite HR, Hbase.
    cbv beta iota. rewrite HR, Hbase. split; [done|]. split; [done|]. split; [|done].
    intros m _. by rewrite take_nil, app_nil_r.
  - rewrite <- T in *. pose proof (mkdir_prefixes_plain p (length (tail p)) 1 s) as H.
    destruct (mkdir_prefixes p (seq 1 (length (tail p))) s) as [r s'].
    apply H; [done|lia|lia| |done].
    intros m Hm. replace m with 0 by lia. by rewrite take_0, app_nil_r.
Qed.

Lemma mkdir_exist_ok_error (q : Path) (s s' : FS) (e : Exc) :
  mkdir_exist_ok q s = (inl e, s') -> exists oe, e = OSError oe.
Proof.
  unfold mkdir_exist_ok, os_mkdir, is_dir, gets. intros H.
  repeat case_match; simplify_eq; eauto.
Qed.

Lemma mkdir_parents_error (p : Path) (s s' : FS) (e : Exc) :
  mkdir_parents p s = (inl e, s') -> exists oe, e = OSError oe.
Proof.
  unfold mkdir_parents. destruct (tail p) as [|x xs] eqn:T; [apply mkdir_exist_ok_error|].
  rewrite <- T. generalize (seq 1 (length (tail p))) as ns. intros ns. revert s.
  induction ns as [|n ns IH]; intros s; [intros H; by inversion H|].
  rewrite mkdir_prefixes_step.
  destruct (mkdir_exist_ok (prefix_path p n) s) as [[e'|u] s1] eqn:E; [|apply IH].
  intros [= <- _]. by eapply mkdir_exist_ok_error.
Qed.

(** C10 (as amended). Building a context with no entries into [dest] only
    creates directories: a location whose node changes held nothing before,
    holds a directory afterwards, and is the location a lexical prefix of
    [dest] resolves to (the parents of [dest], or [dest] itself). On success
    [dest] is a directory; the only errors are [OSError]s (for instance
    [FileExistsError] when [dest] is an existing file). It succeeds whenever
    [dest] has no [".."] component, its starting directory exists and every
    prefix of [dest] that exists is a directory. *)
Theorem build_empty_context (b : Ctx.BuildContext) (dest : PathType) (s : FS)
  (Hb : Ctx._context_entries b = []) :
  let p := to_path dest in
  let '(r, s') := Build.build b dest s in
  mkdirs_only p s s' /\
  (r = inr tt -> stat s' p = Some NDir) /\
  (forall e, r = inl e -> exists oe, e = OSError oe) /\
  (".." ∉ tail p -> nodes s !! base s p = Some NDir ->
   (forall m, 1 <= m <= length (tail p) ->
      nodes s !! (base s p ++ take m (tail p)) = None \/
      nodes s !! (base s p ++ take m (tail p)) = Some NDir) ->
   r = inr tt).
Proof.
  cbv zeta. unfold Build.build, bind. rewrite Hb. simpl Build.build_entries.
  pose proof (mkdir_parents_mkdirs (to_path dest) s) as Hm.
  pose proof (mkdir_parents_plain (to_path dest) s) as Hp.
  destruct (mkdir_parents (to_path dest) s) as [[e|[]] s'] eqn:E; simpl in Hm.
  - split; [done|]. split; [discriminate|]. split.
    + intros e' [= <-]. by eapply mkdir_parents_error.
    + intros H1 H2 H3. by destruct (Hp H1 H2 H3) as [? _].
  - split; [done|]. split; [intros _; by eapply mkdir_parents_ok|].
    split; [discriminate|done].
Qed.

(** Witness of [build_empty_context]: the empty context built into
    [/tmp/ctx] on [fs_nested]. *)
Lemma build_empty_context_witness :
  Ctx._context_entries (Ctx.init None) = [] /\
  mkdirs_only (of_string "/tmp/ctx") fs_nested
    (snd (Build.build (Ctx.init None) (PStr "/tmp/ctx") fs_nested)).
Proof.
  assert (H : Ctx._context_entries (Ctx.init None) = []) by reflexivity.
  split; [exact H|].
  pose proof (build_empty_context (Ctx.init None) (PStr "/tmp/ctx") fs_nested H) as W.
  cbv zeta in W. destruct (Build.build (Ctx.init None) (PStr "/tmp/ctx") fs_nested).
  exact (proj1 W).
Defined.

(** ** Where [build] writes *)

Lemma writes_under_refl (L : list string) (s : FS) : writes_under L s s.
Proof. split; [done|]. split; [apply dirs_grow_refl|]. intros k Hk. by contradiction Hk. Qed.

Lemma writes_under_trans (L : list string) (s1 s2 s3 : FS) :
  writes_under L s1 s2 -> writes_under L s2 s3 -> writes_under L s1 s3.
Proof.
  intros (C12 & G12 & K12) (C23 & G23 & K23).
  split; [congruence|]. split; [by eapply dirs_grow_trans|].
  intros k Hk. destruct (decide (nodes s2 !! k = nodes s1 !! k)) as [E|E]; [|by apply K12].
  apply K23. congruence.
Qed.

Lemma writes_under_weaken (L L' : list string) (s s' : FS) :
  prefix L L' -> writes_under L' s s' -> writes_under L s s'.
Proof.
  intros HL (C & G & K). split; [done|]. split; [done|].
  intros k Hk. etrans; [exact HL|]. by apply K.
Qed.

Lemma build_region_refl (p : Path) (D : list string) (s : FS) : build_region p D s s.
Proof. split; [done|]. split; [apply dirs_grow_refl|]. intros k Hk. by contradiction Hk. Qed.

Lemma build_region_trans (p : Path) (D : list string) (s1 s2 s3 : FS) :
  build_region p D s1 s2 -> build_region p D s2 s3 -> build_region p D s1 s3.
Proof.
  intros (C12 & G12 & K12) (C23 & G23 & K23).
  split; [congruence|]. split; [by eapply dirs_grow_trans|].
  intros k Hk. destruct (decide (nodes s2 !! k = nodes s1 !! k)) as [E|E].
  - assert (E' : nodes s3 !! k <> nodes s2 !! k) by congruence.
    destruct (K23 k E') as [(? & ? & ?)|?]; [left|by right].
    split; [congruence|]. done.
  - destruct (K12 k E) as [(H1 & H2 & n & Hn & R)|?]; [left|by right].
    split; [done|]. split; [by apply G23|]. exists n. split; [done|].
    eapply resolve_mono; [| |exact R]; done.
Qed.

Lemma writes_under_region (p : Path) (D : list string) (s s' : FS) :
  writes_under D s s' -> build_region p D s s'.
Proof.
  intros (C & G & K). split; [done|]. split; [done|]. intros k Hk. right. by apply K.
Qed.

Lemma mkdirs_only_region (p : Path) (D : list string) (s s' : FS) :
  mkdirs_only p s s' -> build_region p D s s'.
Proof.
  intros H. pose proof (mkdirs_only_grow _ _ _ H) as G. destruct H as [C K].
  split; [done|]. split; [done|]. intros k Hk. left. by apply K.
Qed.

Lemma base_same_root (s : FS) (p q : Path) : root q = root p -> base s q = base s p.
Proof. intros E. unfold base, is_absolute. by rewrite E. Qed.

(** A lexical path that extends [p] by components without [".."] resolves
    either like a prefix of [p] or inside the location of [p]. *)
Lemma resolve_dest_prefix (s : FS) (p : Path) (D : list string) (tc u k : list string) :
  resolve s p = Some D -> ".." ∉ tc -> prefix u (tail p ++ tc) ->
  resolve s (mkPath (root p) u) = Some k ->
  (exists n, n <= length (tail p) /\ resolve s (prefix_path p n) = Some k) \/ prefix D k.
Proof.
  intros HD Hdd [w Hw] Hk.
  unfold resolve in Hk. rewrite (base_same_root s p) in Hk by done. simpl in Hk.
  apply app_eq_inv in Hw as [(v & Hp & Hv)|(v & Hu & Hv)].
  2:{ right. subst u. unfold resolve in HD. rewrite walk_app, HD in Hk.
      apply walk_plain in Hk; [by exists v|].
      intros Hin. apply Hdd. rewrite Hv. apply elem_of_app. by left. }
  left. exists (length u). split; [rewrite Hp, length_app; lia|].
    unfold prefix_path. rewrite Hp, take_app_length. done.
Qed.

Lemma mkdir_parents_region (p q : Path) (D tc : list string) (s : FS) :
  root q = root p -> prefix (tail q) (tail p ++ tc) -> ".." ∉ tc ->
  resolve s p = Some D -> build_region p D s (snd (mkdir_parents q s)).
Proof.
  intros Hr Hq Hdd HD.
  pose proof (mkdir_parents_mkdirs q s) as Hm.
  pose proof (mkdirs_only_grow _ _ _ Hm) as G. destruct Hm as [C K].
  split; [done|]. split; [done|]. intros k Hk.
  destruct (K k Hk) as (H1 & H2 & n & Hn & R).
  assert (HD' : resolve (snd (mkdir_parents q s)) p = Some D)
    by (eapply resolve_mono; [| |exact HD]; done).
  unfold prefix_path in R. rewrite Hr in R.
  destruct (resolve_dest_prefix _ p D tc (take n (tail q)) k HD' Hdd) as [(n' & ? & ?)|?];
    [|done| |by right].
  - etrans; [apply prefix_take|exact Hq].
  - left. split; [done|]. split; [done|]. eauto.
Qed.

Lemma insert_writes_under (L l : list string) (n : Node) (s : FS) :
  prefix L l -> nodes s !! l <> Some NDir ->
  writes_under L s (with_nodes s (<[l := n]> (nodes s))).
Proof.
  intros HL Hl. split; [done|]. split.
  - intros k Hk. simpl. rewrite lookup_insert_ne; [done|]. intros ->. congruence.
  - intros k Hk. simpl in Hk. destruct (decide (k = l)) as [->|Hne]; [done|].
    rewrite lookup_insert_ne in Hk by congruence. by contradiction Hk.
Qed.

Lemma write_file_writes (l : list string) (data : list Byte.byte) (s s' : FS) (r : Exc + unit) :
  write_file l data s = (r, s') -> writes_under l s s'.
Proof.
  unfold write_file. intros H.
  repeat case_match; simplify_eq; try apply writes_under_refl;
    apply insert_writes_under; first [done | congruence].
Qed.

Lemma copy2_loc_writes (src dst : list string) (s s' : FS) (r : Exc + unit) :
  copy2_loc src dst s = (r, s') -> writes_under dst s s'.
Proof.
  unfold copy2_loc. intros H. cbv zeta in H.
  destruct (nodes s !! dst) as [[]|] eqn:E;
    (case_decide; [simplify_eq; apply writes_under_refl|]);
    (destruct (nodes s !! src) as [[]|];
     [apply write_file_writes in H; eapply writes_under_weaken; [|exact H]
     |simplify_eq; apply writes_under_refl ..]);
    first [done | by eexists].
Qed.

Lemma makedir_loc_writes (l : list string) (s s' : FS) (r : Exc + unit) :
  makedir_loc l s = (r, s') -> writes_under l s s'.
Proof.
  unfold makedir_loc. intros H.
  repeat case_match; simplify_eq; try apply writes_under_refl.
  apply insert_writes_under; [done|congruence].
Qed.

Lemma copy_entry_writes (src dst : list string) (e : list string * Node) (s s' : FS) (r : Exc + unit) :
  copy_entry src dst e s = (r, s') -> writes_under dst s s'.
Proof.
  unfold copy_entry. destruct e as [rel n]; simpl. destruct n.
  - intros H. apply copy2_loc_writes in H. eapply writes_under_weaken; [|exact H]. by exists rel.
  - intros H. apply makedir_loc_writes in H. eapply writes_under_weaken; [|exact H]. by exists rel.
  - intros [= <- <-]. apply writes_under_refl.
Qed.

Lemma copy_entries_writes (src dst : list string) (es : list (list string * Node)) (s : FS) :
  writes_under dst s (snd (copy_entries src dst es s)).
Proof.
  revert s. induction es as [|e es IH]; intros s; [apply writes_under_refl|].
  simpl. unfold bind, try_.
  destruct (copy_entry src dst e s) as [r1 s1] eqn:E. apply copy_entry_writes in E.
  destruct r1; simpl;
  (destruct (copy_entries src dst es s1) as [[?|?] s2] eqn:E2;
   pose proof (IH s1) as IH1; rewrite E2 in IH1; simpl; eapply writes_under_trans; eauto).
Qed.

(** The location of [p / c], for [c] relative without [".."]. *)
Lemma resolve_join (s : FS) (p c : Path) (D ld : list string) :
  is_absolute c = false -> ".." ∉ tail c -> resolve s p = Some D ->
  resolve s (join p c) = Some ld -> ld = D ++ tail c.
Proof.
  intros Ha Hdd HD. unfold join. rewrite Ha. unfold resolve.
  rewrite (base_same_root s p) by done. simpl. rewrite walk_app.
  unfold resolve in HD. rewrite HD. by apply walk_plain.
Qed.

Lemma copy2_region (p c h : Path) (D : list string) (s s' : FS) (r : Exc + unit) :
  is_absolute c = false -> ".." ∉ tail c -> resolve s p = Some D ->
  copy2 h (join p c) s = (r, s') -> build_region p D s s'.
Proof.
  intros Ha Hdd HD. unfold copy2.
  destruct (resolve s h) as [ls|]; [|intros [= <- <-]; apply build_region_refl].
  destruct (resolve s (join p c)) as [ld|] eqn:R; [|intros [= <- <-]; apply build_region_refl].
  intros E. apply copy2_loc_writes in E. apply writes_under_region.
  eapply writes_under_weaken; [|exact E].
  rewrite (resolve_join s p c D ld) by done. by exists (tail c).
Qed.

Lemma region_resolve (p : Path) (D : list string) (s s' : FS) :
  build_region p D s s' -> resolve s p = Some D -> resolve s' p = Some D.
Proof. intros (C & G & _) HD. eapply resolve_mono; [| |exact HD]; done. Qed.

Lemma copytree_region (p c h : Path) (D : list string) (s s' : FS) (r : Exc + unit) :
  is_absolute c = false -> ".." ∉ tail c -> resolve s p = Some D ->
  copytree h (join p c) s = (r, s') -> build_region p D s s'.
Proof.
  intros Ha Hdd HD. unfold copytree.
  destruct (resolve s h) as [ls|]; [|intros [= <- <-]; apply build_region_refl].
  destruct (nodes s !! ls) as [[]|]; try (intros [= <- <-]; apply build_region_refl).
  unfold bind.
  assert (H1 : build_region p D s (snd (mkdir_parents (join p c) s))).
  { apply (mkdir_parents_region p (join p c) D (tail c)); [| | done | done];
      unfold join; by rewrite Ha. }
  destruct (mkdir_parents (join p c) s) as [[e|u] s1] eqn:E1; simpl in H1.
  - intros [= <- <-]. done.
  - pose proof (region_resolve _ _ _ _ H1 HD) as HD1.
    destruct (resolve s1 (join p c)) as [ld|] eqn:R; [|intros [= <- <-]; done].
    pose proof (copy_entries_writes ls ld (subtree (nodes s) ls) s1) as W.
    rewrite (resolve_join s1 p c D ld) in W by done.
    eapply writes_under_weaken in W; [|by exists (tail c)].
    apply writes_under_region with (p := p) in W.
    destruct (copy_entries ls (D ++ tail c) (subtree (nodes s) ls) s1) as [[?|[]] s2] eqn:E2;
      rewrite (resolve_join s1 p c D ld) by done; rewrite E2; simpl in W;
      intros [= <- <-]; by eapply build_region_trans.
Qed.

Lemma valid_ctx_path (c : Path) :
  Build.invalid_ctx_path c = false -> is_absolute c = false /\ ".." ∉ tail c.
Proof.
  unfold Build.invalid_ctx_path. intros H. apply orb_false_iff in H as [Ha Hd].
  split; [done|]. apply bool_decide_eq_false in Hd. unfold parts in Hd.
  unfold is_absolute in Ha. apply negb_false_iff, bool_decide_eq_true in Ha.
  by rewrite decide_True in Hd.
Qed.

Lemma parent_join (p c : Path) :
  is_absolute c = false ->
  root (parent (join p c)) = root p /\ prefix (tail (parent (join p c))) (tail p ++ tail c).
Proof.
  intros Ha. unfold parent, join. rewrite Ha. simpl.
  destruct (tail p ++ tail c) as [|x l] eqn:E; [done|].
  split; [done|]. exists [List.last (x :: l) ""].
  apply app_removelast_last. discriminate.
Qed.

(** The body of the loop of [build], with the three tests on the host path
    read off one [stat]. *)
Lemma build_entry_eq (p c h : Path) (s : FS) :
  Build.build_entry p (c, h) s =
  if Build.invalid_ctx_path c then (inl (ValueError_invalid_ctx c), s) else
  match stat s h with
  | None => (inl (FileNotFoundError_host h), s)
  | Some (NFile _) => (mkdir_parents (parent (join p c)) ;;; copy2 h (join p c)) s
  | Some NDir => (mkdir_parents (parent (join p c)) ;;; copytree h (join p c)) s
  | Some NOther => (inl (ValueError_not_file_or_dir h), s)
  end.
Proof.
  unfold Build.build_entry, bind, exists_, is_file, is_dir, gets, raise.
  cbv beta iota zeta. destruct (Build.invalid_ctx_path c); [done|].
  destruct (stat s h) as [[]|] eqn:E;
    repeat progress (cbv beta iota delta [negb]; rewrite ?E);
    reflexivity.
Qed.

Lemma then_region (p : Path) (D : list string) (m1 m2 : IO unit) (s s' : FS) (r : Exc + unit) :
  build_region p D s (snd (m1 s)) ->
  (forall s1, build_region p D s s1 -> resolve s1 p = Some D ->
     forall r2 s2, m2 s1 = (r2, s2) -> build_region p D s1 s2) ->
  resolve s p = Some D ->
  (m1 ;;; m2) s = (r, s') -> build_region p D s s'.
Proof.
  intros H1 H2 HD. unfold bind.
  destruct (m1 s) as [[e|u] s1]; simpl in H1; [by intros [= <- <-]|].
  intros E. eapply build_region_trans; [exact H1|].
  eapply H2; [done| |exact E]. by eapply region_resolve.
Qed.

Lemma build_entry_region (p c h : Path) (D : list string) (s s' : FS) (r : Exc + unit) :
  resolve s p = Some D -> Build.build_entry p (c, h) s = (r, s') -> build_region p D s s'.
Proof.
  intros HD. rewrite build_entry_eq.
  destruct (Build.invalid_ctx_path c) eqn:Hinv; [intros [= <- <-]; apply build_region_refl|].
  apply valid_ctx_path in Hinv as [Ha Hdd].
  destruct (parent_join p c Ha) as [Hr Hpre].
  assert (H1 : build_region p D s (snd (mkdir_parents (parent (join p c)) s)))
    by (by apply (mkdir_parents_region p _ D (tail c))).
  destruct (stat s h) as [[]|]; try (intros [= <- <-]; apply build_region_refl);
    apply then_region; try done; intros s1 _ HD1 r2 s2 E.
  - by eapply copy2_region.
  - by eapply copytree_region.
Qed.

Lemma build_entries_region (p : Path) (D : list string) (es : Ctx.Dict) (s : FS) :
  resolve s p = Some D -> build_region p D s (snd (Build.build_entries p es s)).
Proof.
  revert s. induction es as [|[c h] es IH]; intros s HD; [apply build_region_refl|].
  cbn [Build.build_entries]. unfold bind.
  destruct (Build.build_entry p (c, h) s) as [[e|u] s1] eqn:E;
    pose proof (build_entry_region _ _ _ _ _ _ _ HD E) as H1; [exact H1|].
  eapply build_region_trans; [exact H1|]. apply IH. by eapply region_resolve.
Qed.

Lemma build_entries_app (p : Path) (pre post : Ctx.Dict) (s : FS) :
  Build.build_entries p (pre ++ post) s =
  match Build.build_entries p pre s with
  | (inl e, s1) => (inl e, s1)
  | (inr _, s1) => Build.build_entries p post s1
  end.
Proof.
  revert s. induction pre as [|e pre IH]; intros s; [done|].
  cbn [app Build.build_entries]. unfold bind. destruct (Build.build_entry p e s) as [[?|?] s1]; [done|].
  apply IH.
Qed.

Lemma build_prefix_run (b : Ctx.BuildContext) (pre post : Ctx.Dict) (e : Path * Path)
    (dest : PathType) (s : FS) :
  Ctx._context_entries b = pre ++ e :: post ->
  Build.build b dest s =
  match Build.build (Ctx.mkBuildContext (Ctx._context_root b) pre) dest s with
  | (inl err, s0) => (inl err, s0)
  | (inr _, s0) => (Build.build_entry (to_path dest) e ;;;
                    Build.build_entries (to_path dest) post) s0
  end.
Proof.
  intros Hb. unfold Build.build, bind. simpl Ctx._context_entries. rewrite Hb.
  destruct (mkdir_parents (to_path dest) s) as [[?|?] s1]; [done|].
  rewrite build_entries_app. by destruct (Build.build_entries (to_path dest) pre s1) as [[?|?] ?].
Qed.

(** C5 (as amended). On a filesystem without symbolic links (the nodes of
    [FS] are regular files, directories and other non-link nodes, and
    [resolve] follows no link), [build] writes only in two places:
    directories created where nothing existed, at the locations of lexical
    prefixes of [dest] (the missing parents of [dest], and [dest]), and the
    tree of the location [dest] resolves to. Entries are processed in
    registration order and the first failing step stops the build. For an
    entry whose context path is absolute or has a [".."] component: when
    every step before it (creating [dest], then the entries registered
    before it) succeeded, it raises the validation error
    [ValueError_invalid_ctx] and writes nothing itself; otherwise the error
    of the earlier step is raised instead, with the filesystem as that
    step left it. *)
Theorem build_confined_invalid_ctx (b : Ctx.BuildContext) (dest : PathType) (s : FS) :
  let p := to_path dest in
  (let '(_, s') := Build.build b dest s in
   cwd s' = cwd s /\
   forall k, nodes s' !! k <> nodes s !! k ->
     (nodes s !! k = None /\ nodes s' !! k = Some NDir /\
      exists n, n <= length (tail p) /\ resolve s' (prefix_path p n) = Some k) \/
     (exists D, resolve s' p = Some D /\ prefix D k)) /\
  (forall pre c h post, Ctx._context_entries b = pre ++ (c, h) :: post ->
     Build.invalid_ctx_path c = true ->
     match Build.build (Ctx.mkBuildContext (Ctx._context_root b) pre) dest s with
     | (inr _, s0) =>
         Build.build b dest s = (inl (ValueError_invalid_ctx c), s0) /\
         is_ValueError (ValueError_invalid_ctx c) = true
     | (inl err, s0) => Build.build b dest s = (inl err, s0)
     end).
Proof.
  cbv zeta. split.
  - unfold Build.build, bind at 1.
    pose proof (mkdir_parents_mkdirs (to_path dest) s) as Hm.
    destruct (mkdir_parents (to_path dest) s) as [[e|[]] s1] eqn:E1; simpl in Hm.
    + destruct Hm as [C K]. split; [done|]. intros k Hk. left. by apply K.
    + apply mkdir_parents_ok in E1. unfold stat in E1.
      destruct (resolve s1 (to_path dest)) as [D|] eqn:HD; [|discriminate].
      pose proof (build_entries_region (to_path dest) D (Ctx._context_entries b) s1 HD) as H2.
      pose proof (build_region_trans _ _ _ _ _ (mkdirs_only_region _ D _ _ Hm) H2) as H.
      destruct (Build.build_entries (to_path dest) (Ctx._context_entries b) s1) as [r2 s2].
      simpl in H. pose proof (region_resolve _ _ _ _ H2 HD) as HD2. simpl in HD2.
      destruct H as (C & _ & K). split; [done|].
      intros k Hk. destruct (K k Hk) as [?|?]; [by left|right; eauto].
  - intros pre c h post Hb Hinv.
    rewrite (build_prefix_run b pre post (c, h) dest s Hb).
    destruct (Build.build (Ctx.mkBuildContext (Ctx._context_root b) pre) dest s)
      as [[err|[]] s0]; [done|].
    unfold bind. rewrite build_entry_eq, Hinv. done.
Qed.

(** Witness of [build_confined_invalid_ctx]: [ctx_escape_only], whose one
    entry ["../x"] escapes, built into [/new/ctx] on [fs_escape]. *)
Lemma build_confined_invalid_ctx_witness :
  Ctx._context_entries ctx_escape_only = [] ++ (of_string "../x", of_string "/r/../x") :: [] /\
  Build.invalid_ctx_path (of_string "../x") = true /\
  Build.build ctx_escape_only (PStr "/new/ctx") fs_escape =
    (inl (ValueError_invalid_ctx (of_string "../x")),
     snd (Build.build (Ctx.mkBuildContext (Ctx._context_root ctx_escape_only) [])
            (PStr "/new/ctx") fs_escape)).
Proof.
  assert (Hb : Ctx._context_entries ctx_escape_only =
                 [] ++ (of_string "../x", of_string "/r/../x") :: [])
    by (vm_compute; reflexivity).
  assert (Hi : Build.invalid_ctx_path (of_string "../x") = true) by (vm_compute; reflexivity).
  split; [exact Hb|]. split; [exact Hi|].
  pose proof (proj2 (build_confined_invalid_ctx ctx_escape_only (PStr "/new/ctx") fs_escape)
                [] _ _ [] Hb Hi) as W.
  destruct (Build.build (Ctx.mkBuildContext (Ctx._context_root ctx_escape_only) [])
              (PStr "/new/ctx") fs_escape) as [r0 s0] eqn:E.
  destruct r0 as [err|[]].
  - vm_compute in E. discriminate.
  - exact (proj1 W).
Defined.

(** C6 (as amended). Entries are processed in registration order and the
    first failing one stops the build. When every entry registered before
    a valid entry [(c, h)] was materialised without error, then in the
    resulting filesystem (at materialisation time): a missing [h] raises
    [FileNotFoundError_host h], and an [h] that is neither a regular file
    nor a directory raises the validation error
    [ValueError_not_file_or_dir h]; in both cases the entry writes nothing.
    (Registration never looks at the filesystem: [add_context_entry] does
    not take one.) *)
Theorem build_host_checks (b : Ctx.BuildContext) (dest : PathType) (s : FS)
    (pre post : Ctx.Dict) (c h : Path)
    (Hb : Ctx._context_entries b = pre ++ (c, h) :: post)
    (Hc : Build.invalid_ctx_path c = false) :
  let '(r0, s0) := Build.build (Ctx.mkBuildContext (Ctx._context_root b) pre) dest s in
  r0 = inr tt ->
  (stat s0 h = None -> Build.build b dest s = (inl (FileNotFoundError_host h), s0)) /\
  (stat s0 h = Some NOther ->
     Build.build b dest s = (inl (ValueError_not_file_or_dir h), s0) /\
     is_ValueError (ValueError_not_file_or_dir h) = true).
Proof.
  rewrite (build_prefix_run b pre post (c, h) dest s Hb).
  destruct (Build.build (Ctx.mkBuildContext (Ctx._context_root b) pre) dest s) as [r0 s0].
  intros ->. unfold bind. rewrite build_entry_eq, Hc.
  split; intros E; rewrite E; done.
Qed.

(** Witness of [build_host_checks]: [ctx_socket] on [fs_socket], at its
    first entry. *)
Lemma build_host_checks_witness :
  Ctx._context_entries ctx_socket =
    [] ++ (of_string "sock", of_string "/h/sock") :: [(of_string "missing", of_string "/h/missing")] /\
  Build.invalid_ctx_path (of_string "sock") = false /\
  Build.build ctx_socket (PStr "/tmp/ctx") fs_socket =
    (inl (ValueError_not_file_or_dir (of_string "/h/sock")),
     snd (Build.build (Ctx.mkBuildContext (Ctx._context_root ctx_socket) []) (PStr "/tmp/ctx") fs_socket)).
Proof.
  assert (Hb : Ctx._context_entries ctx_socket =
    [] ++ (of_string "sock", of_string "/h/sock") :: [(of_string "missing", of_string "/h/missing")])
    by (vm_compute; reflexivity).
  assert (Hc : Build.invalid_ctx_path (of_string "sock") = false) by (vm_compute; reflexivity).
  split; [exact Hb|]. split; [exact Hc|].
  pose proof (build_host_checks ctx_socket (PStr "/tmp/ctx") fs_socket _ _ _ _ Hb Hc) as W.
  destruct (Build.build (Ctx.mkBuildContext (Ctx._context_root ctx_socket) []) (PStr "/tmp/ctx") fs_socket)
    as [r0 s0] eqn:E.
  assert (Hr : r0 = inr tt) by (vm_compute in E; by injection E).
  assert (Hs : stat s0 (of_string "/h/sock") = Some NOther) by (vm_compute in E; injection E as _ <-; vm_compute; reflexivity).
  exact (proj1 ((proj2 (W Hr)) Hs)).
Defined.

(** ** [copytree]: the listing of a tree and its copy *)

Lemma strip_prefix_Some (l k r : list string) : strip_prefix l k = Some r <-> k = l ++ r.
Proof.
  revert k. induction l as [|x l IH]; intros k; simpl; [split; congruence|].
  destruct k as [|y k]; [split; discriminate|].
  case_decide as Hxy; [subst y; rewrite IH; split; congruence|].
  split; [discriminate|congruence].
Qed.

Lemma subtree_elem (ns : gmap (list string) Node) (l r : list string) (n : Node) :
  (r, n) ∈ subtree ns l <-> r <> [] /\ ns !! (l ++ r) = Some n.
Proof.
  unfold subtree. rewrite (merge_sort_Permutation shallower _), list_elem_of_omap.
  split.
  - intros ([k v] & Hkv & Hf). simpl in Hf. apply elem_of_map_to_list in Hkv.
    destruct (strip_prefix l k) as [[|x r']|] eqn:E; try discriminate.
    injection Hf as <- <-. apply strip_prefix_Some in E as ->. by split.
  - intros [Hr Hn]. exists (l ++ r, n). split; [by apply elem_of_map_to_list|].
    simpl. assert (E : strip_prefix l (l ++ r) = Some r) by by apply strip_prefix_Some.
    rewrite E. by destruct r.
Qed.

Lemma NoDup_omap_inj {A B} (f : A -> option B) (L : list A) :
  (forall x y b, f x = Some b -> f y = Some b -> x = y) -> NoDup L -> NoDup (omap f L).
Proof.
  intros Hinj. induction 1 as [|x L Hx HL IH]; simpl; [constructor|].
  destruct (f x) as [b|] eqn:E; [|done]. constructor; [|done].
  rewrite list_elem_of_omap. intros (y & Hy & Ey).
  apply Hx. by rewrite (Hinj x y b E Ey).
Qed.

Lemma subtree_NoDup (ns : gmap (list string) Node) (l : list string) :
  NoDup (subtree ns l).*1.
Proof.
  apply NoDup_fmap_fst.
  - intros r n1 n2 H1 H2. apply subtree_elem in H1 as [_ H1], H2 as [_ H2]. congruence.
  - unfold subtree. rewrite (merge_sort_Permutation shallower _).
    apply NoDup_omap_inj; [|apply NoDup_map_to_list].
    intros [k1 v1] [k2 v2] [r n] E1 E2; simpl in *.
    destruct (strip_prefix l k1) as [[|x1 r1]|] eqn:S1; try discriminate.
    destruct (strip_prefix l k2) as [[|x2 r2]|] eqn:S2; try discriminate.
    apply strip_prefix_Some in S1, S2. simplify_eq. done.
Qed.

Lemma subtree_sorted (ns : gmap (list string) Node) (l : list string) :
  StronglySorted shallower (subtree ns l).
Proof.
  apply StronglySorted_merge_sort.
  - intros a b c. unfold shallower. lia.
  - intros a b. unfold shallower. lia.
Qed.

Lemma removelast_app_snoc (a b : list string) (x : string) :
  removelast (a ++ b ++ [x]) = a ++ b.
Proof. by rewrite app_assoc, removelast_last. Qed.

(** The loop of [copytree] over a listing whose entries are missing at the
    destination, parents listed before children: every entry is copied and
    nothing else changes. *)
Lemma copy_entries_spec (src dst : list string) (es done : list (list string * Node)) (s : FS) :
  NoDup (done ++ es).*1 -> StronglySorted shallower es ->
  (forall r n, (r, n) ∈ es ->
     r <> [] /\ n <> NOther /\ nodes s !! (dst ++ r) = None /\ nodes s !! (src ++ r) = Some n /\
     forall r' x, r = r' ++ [x] -> r' = [] \/ (r', NDir) ∈ done ++ es) ->
  (forall r n, (r, n) ∈ done -> nodes s !! (dst ++ r) = Some n) ->
  nodes s !! dst = Some NDir ->
  (forall r r', src ++ r <> dst ++ r') ->
  let '(res, s') := copy_entries src dst es s in
  res = inr false /\ cwd s' = cwd s /\
  (forall r n, (r, n) ∈ done ++ es -> nodes s' !! (dst ++ r) = Some n) /\
  (forall k, (forall r n, (r, n) ∈ es -> k <> dst ++ r) -> nodes s' !! k = nodes s !! k).
Proof.
  revert done s. induction es as [|[r n] es IH]; intros done s Hnd Hss Hes Hdone Hdst Hdisj.
  - simpl. split; [done|]. split; [done|]. split; [|done].
    intros r n. rewrite app_nil_r. apply Hdone.
  - apply StronglySorted_inv in Hss as [Hss Hfirst].
    destruct (Hes r n (list_elem_of_here _ _)) as (Hr & Hn & Hd & Hs & Hpar).
    assert (Hnd' := Hnd). rewrite fmap_app, fmap_cons in Hnd'.
    apply NoDup_app in Hnd' as (_ & Hnotdone & Hnd'). apply NoDup_cons in Hnd' as [Hnotes _].
    assert (Hparent : nodes s !! removelast (dst ++ r) = Some NDir).
    { destruct (exists_last Hr) as (r' & x & ->). rewrite removelast_app_snoc.
      destruct (Hpar r' x eq_refl) as [->|Hin]; [by rewrite app_nil_r|].
      apply elem_of_app in Hin as [Hin|Hin]; [by apply Hdone|].
      apply elem_of_cons in Hin as [Hin|Hin].
      - injection Hin as Hin _. apply (f_equal length) in Hin. rewrite length_app in Hin.
        simpl in Hin. lia.
      - rewrite Forall_forall in Hfirst. apply Hfirst in Hin. unfold shallower in Hin.
        simpl in Hin. rewrite length_app in Hin. simpl in Hin. lia. }
    set (s2 := with_nodes s (<[dst ++ r := n]> (nodes s))).
    assert (Hstep : copy_entry src dst (r, n) s = (inr tt, s2)).
    { unfold copy_entry; simpl. destruct n as [data| |]; [| |done].
      - unfold copy2_loc. rewrite Hd. cbv zeta.
        rewrite decide_False by (intros E; by apply (Hdisj r r)). rewrite Hs.
        unfold write_file. rewrite Hd, Hparent.
        destruct (dst ++ r) eqn:E; [|done]. apply app_eq_nil in E as [_ ->]. done.
      - unfold makedir_loc. by rewrite Hd, Hparent. }
    assert (Hne : forall r2 n2, (r2, n2) ∈ es -> r2 <> r).
    { intros r2 n2 Hin ->. apply Hnotes. apply (list_elem_of_fmap_2 fst _ (r, n2)). done. }
    assert (Hnd_done : forall r2 n2, (r2, n2) ∈ done -> r2 <> r).
    { intros r2 n2 Hin ->. apply (Hnotdone r); [|by left].
      apply (list_elem_of_fmap_2 fst _ (r, n2)). done. }
    simpl. unfold bind, try_. rewrite Hstep. simpl.
    specialize (IH (done ++ [(r, n)]) s2).
    destruct (copy_entries src dst es s2) as [res s'] eqn:E.
    destruct IH as (Hres & Hcwd & Hall & Hsame).
    + by rewrite <- app_assoc.
    + done.
    + intros r2 n2 Hin. destruct (Hes r2 n2 (list_elem_of_further _ _ _ Hin)) as (? & ? & ? & ? & Hp2).
      assert (r2 <> r) by eauto.
      split; [done|]. split; [done|]. simpl.
      rewrite !lookup_insert_ne by (intros E'; first [by apply app_inv_head in E' | by apply (Hdisj r2 r)]).
      split; [done|]. split; [done|].
      intros r' x E'. destruct (Hp2 r' x E') as [?|Hin']; [by left|right].
      by rewrite <- app_assoc.
    + intros r2 n2 Hin. simpl. apply elem_of_app in Hin as [Hin|Hin].
      * rewrite lookup_insert_ne by (intros E'; apply app_inv_head in E'; by apply (Hnd_done r2 n2)).
        by apply Hdone.
      * apply list_elem_of_singleton in Hin. injection Hin as -> ->. apply lookup_insert_eq.
    + simpl. rewrite lookup_insert_ne; [done|].
      intros E'. apply (f_equal length) in E'. rewrite length_app in E'.
      destruct r; [done|simpl in E'; lia].
    + done.
    + subst res. simpl. split; [done|]. split; [done|]. split.
      * intros r2 n2 Hin. apply Hall. rewrite <- app_assoc. done.
      * intros k Hk. rewrite Hsame; [|intros r2 n2 Hin; apply (Hk r2 n2); by right].
        simpl. apply lookup_insert_ne. intros <-. by apply (Hk r n); [left|].
Qed.

Lemma take_app_ge (l k : list string) (m : nat) :
  length l <= m -> take m (l ++ k) = l ++ take (m - length l) k.
Proof. intros H. rewrite take_app, take_ge by done. done. Qed.

(** [mkdir(parents=True, exist_ok=True)] on [p / u], for a [p] without
    [".."] whose prefixes are directories and a [u] without [".."] whose
    prefixes below [p] are missing or directories. *)
Lemma mkdir_under_dest (p : Path) (u : list string) (s : FS) :
  ".." ∉ tail p -> ".." ∉ u ->
  (forall m, m <= length (tail p) -> nodes s !! (base s p ++ take m (tail p)) = Some NDir) ->
  (forall j, 1 <= j <= length u ->
     nodes s !! (base s p ++ tail p ++ take j u) = None \/
     nodes s !! (base s p ++ tail p ++ take j u) = Some NDir) ->
  let '(r, s') := mkdir_parents (mkPath (root p) (tail p ++ u)) s in
  r = inr tt /\ cwd s' = cwd s /\
  (forall j, j <= length u -> nodes s' !! (base s p ++ tail p ++ take j u) = Some NDir) /\
  (forall key, (forall j, 1 <= j <= length u -> key <> base s p ++ tail p ++ take j u) ->
     nodes s' !! key = nodes s !! key).
Proof.
  intros Hdp Hdu Hloc Hu.
  set (q := mkPath (root p) (tail p ++ u)).
  assert (Hbq : base s q = base s p) by (by apply base_same_root).
  assert (Htk : forall j, take (length (tail p) + j) (tail p ++ u) = tail p ++ take j u).
  { intros j. rewrite take_app_ge by lia. f_equal. f_equal. lia. }
  pose proof (mkdir_parents_plain q s) as H. rewrite Hbq in H. simpl tail in H.
  destruct (mkdir_parents q s) as [r s'].
  destruct H as (Hr & Hc & Hdirs & Hsame).
  - rewrite elem_of_app. tauto.
  - rewrite <- (app_nil_r (base s p)). rewrite <- (take_0 (tail p)). apply Hloc. lia.
  - intros m Hm. destruct (decide (m <= length (tail p))) as [Hle|Hgt].
    + right. rewrite take_app_le by done. by apply Hloc.
    + replace m with (length (tail p) + (m - length (tail p))) by lia. rewrite Htk.
      apply Hu. rewrite length_app in Hm. lia.
  - split; [done|]. split; [done|]. split.
    + intros j Hj. rewrite <- Htk. apply Hdirs. rewrite length_app. lia.
    + intros key Hkey.
      set (f := fun m => base s p ++ take m (tail p ++ u)).
      destruct (decide (key ∈ f <$> (seq 1 (length (tail p ++ u))))) as [Hin|Hnin].
      * apply list_elem_of_fmap in Hin as (m & -> & Hm). apply elem_of_seq in Hm.
        unfold f. destruct (decide (m <= length (tail p))) as [Hle|Hgt].
        -- rewrite take_app_le by done. rewrite Hloc by done.
           rewrite <- (take_app_le (tail p) u) by done. apply Hdirs. lia.
        -- exfalso. apply (Hkey (m - length (tail p))); [rewrite length_app in Hm; lia|].
           rewrite <- Htk. by replace (length (tail p) + (m - length (tail p))) with m by lia.
      * apply Hsame. intros m Hm E. apply Hnin. apply list_elem_of_fmap.
        exists m. split; [done|]. apply elem_of_seq. lia.
Qed.

Lemma app_eq_prefix (l r D w : list string) :
  l ++ r = D ++ w -> prefix l D \/ prefix D l.
Proof.
  intros E. apply app_eq_inv in E as [(v & -> & _)|(v & -> & _)].
  - right. by exists v.
  - left. by exists v.
Qed.

Lemma take_removelast (l : list string) (j : nat) :
  j <= length l - 1 -> take j (removelast l) = take j l.
Proof.
  intros Hj. rewrite removelast_firstn_len, take_take. f_equal. lia.
Qed.

Lemma join_relative (p c : Path) :
  is_absolute c = false -> join p c = mkPath (root p) (tail p ++ tail c).
Proof. intros Ha. unfold join. by rewrite Ha. Qed.

Lemma parent_join_eq (p c : Path) :
  is_absolute c = false -> tail c <> [] ->
  parent (join p c) = mkPath (root p) (tail p ++ removelast (tail c)).
Proof.
  intros Ha Hc. rewrite join_relative by done. unfold parent. simpl.
  rewrite removelast_app by done.
  destruct (tail p ++ tail c) eqn:E; [|done].
  apply app_eq_nil in E as [_ ?]. done.
Qed.

(** Nothing exists below a regular file, in a tree where every entry has a
    directory as its parent. *)
Lemma file_has_no_children (ns : gmap (list string) Node) (l : list string) (d : list Byte.byte) :
  (forall r x n, ns !! (l ++ r ++ [x]) = Some n -> ns !! (l ++ r) = Some NDir) ->
  ns !! l = Some (NFile d) -> forall r, r <> [] -> ns !! (l ++ r) = None.
Proof.
  intros HW Hl r. induction r as [|x r IH] using rev_ind; [done|]. intros _.
  destruct (ns !! (l ++ r ++ [x])) as [n|] eqn:E; [|done].
  apply HW in E. destruct r as [|y r'].
  - rewrite app_nil_r in E. congruence.
  - rewrite IH in E by done. discriminate.
Qed.

Lemma resolve_plain_dirs (s : FS) (p : Path) (u : list string) :
  ".." ∉ u -> (forall m, m < length u -> nodes s !! (base s p ++ take m u) = Some NDir) ->
  resolve s (mkPath (root p) u) = Some (base s p ++ u).
Proof.
  intros Hdd Hd. unfold resolve. rewrite (base_same_root s p) by done.
  by apply walk_plain_dirs.
Qed.

(** The prefixes of [p / tc], for a [p] whose prefixes are directories:
    those of [p] and [p / take j tc]. *)
Lemma dirs_under_dest (ns : gmap (list string) Node) (B tp tc : list string) :
  (forall m, m <= length tp -> ns !! (B ++ take m tp) = Some NDir) ->
  (forall j, j < length tc -> ns !! (B ++ tp ++ take j tc) = Some NDir) ->
  forall m, m < length (tp ++ tc) -> ns !! (B ++ take m (tp ++ tc)) = Some NDir.
Proof.
  intros H1 H2 m Hm. rewrite length_app in Hm.
  destruct (decide (m <= length tp)).
  - rewrite take_app_le by done. by apply H1.
  - rewrite take_app_ge by lia. apply H2. lia.
Qed.

Lemma length_removelast_take (l : list string) : length (removelast l) = length l - 1.
Proof. rewrite removelast_firstn_len, length_take. lia. Qed.

Ltac neq_len :=
  let E := fresh "E" in
  intros E; apply (f_equal length) in E;
  rewrite ?length_app, ?length_take, ?length_removelast_take in E; simpl in E; lia.

(** One entry [(c, h)] of [build] whose host path [h] is an existing
    regular file or directory tree (every entry of which has a directory as
    parent) lying outside the location [D] of [dest], and whose target
    [D ++ tail c] is free: the entry succeeds, [D ++ tail c] reproduces the
    host tree exactly, the directories between [D] and it exist, and
    nothing else changes. *)
Lemma build_entry_mirror (p c h : Path) (l : list string) (s : FS) :
  Build.invalid_ctx_path c = false -> tail c <> [] -> ".." ∉ tail p ->
  (forall m, m <= length (tail p) -> nodes s !! (base s p ++ take m (tail p)) = Some NDir) ->
  resolve s h = Some l -> nodes s !! l <> None ->
  (forall r, nodes s !! (l ++ r) <> Some NOther) ->
  (forall r x n, nodes s !! (l ++ r ++ [x]) = Some n -> nodes s !! (l ++ r) = Some NDir) ->
  ~ prefix (base s p ++ tail p) l -> ~ prefix l (base s p ++ tail p) ->
  (forall r, nodes s !! (base s p ++ tail p ++ tail c ++ r) = None) ->
  (forall j, 1 <= j < length (tail c) ->
     nodes s !! (base s p ++ tail p ++ take j (tail c)) = None \/
     nodes s !! (base s p ++ tail p ++ take j (tail c)) = Some NDir) ->
  let '(res, s') := Build.build_entry p (c, h) s in
  res = inr tt /\ cwd s' = cwd s /\ dirs_grow (nodes s) (nodes s') /\
  (forall r, nodes s' !! (base s p ++ tail p ++ tail c ++ r) = nodes s !! (l ++ r)) /\
  (forall j, j < length (tail c) -> nodes s' !! (base s p ++ tail p ++ take j (tail c)) = Some NDir) /\
  (forall k, (forall r, k <> base s p ++ tail p ++ tail c ++ r) ->
     (forall j, 1 <= j < length (tail c) -> k <> base s p ++ tail p ++ take j (tail c)) ->
     nodes s' !! k = nodes s !! k).
Proof.
  intros Hinv Htc Hdp Hpd Hh Hl Hno HW Hn1 Hn2 Hfresh Hmid.
  destruct (valid_ctx_path c Hinv) as [Ha Hdc].
  rewrite build_entry_eq, Hinv.
  assert (Hst : stat s h = nodes s !! l) by (unfold stat; by rewrite Hh).
  rewrite Hst, (parent_join_eq p c Ha Htc), (join_relative p c Ha).
  set (B := base s p) in *. set (tp := tail p) in *. set (tc := tail c) in *.
  assert (Hnot : forall r w, l ++ r <> B ++ tp ++ w).
  { intros r w E. rewrite app_assoc in E. apply app_eq_prefix in E. tauto. }
  assert (Hdr : ".." ∉ removelast tc).
  { intros Hin. apply Hdc. rewrite removelast_firstn_len in Hin.
    by apply (subseteq_take (pred (length tc)) tc). }
  pose proof (mkdir_parents_grow (mkPath (root p) (tp ++ removelast tc)) s) as [_ G1].
  pose proof (mkdir_under_dest p (removelast tc) s Hdp Hdr Hpd) as M1.
  fold B tp in M1. specialize (M1 ltac:(
    intros j Hj; rewrite length_removelast_take in Hj;
    rewrite take_removelast by lia; apply Hmid; lia)).
  destruct (mkdir_parents (mkPath (root p) (tp ++ removelast tc)) s) as [r1 s1] eqn:E1.
  simpl in G1. destruct M1 as (-> & C1 & D1 & U1).
  assert (HB1 : base s1 p = B) by (unfold B, base; by rewrite C1).
  assert (Hh1 : resolve s1 h = Some l) by (eapply resolve_mono; [| |exact Hh]; done).
  assert (U1' : forall k, (forall j, 1 <= j < length tc -> k <> B ++ tp ++ take j tc) ->
            nodes s1 !! k = nodes s !! k).
  { intros k Hk. apply U1. intros j Hj. rewrite length_removelast_take in Hj.
    rewrite take_removelast by lia. apply Hk. lia. }
  assert (D1' : forall j, j < length tc -> nodes s1 !! (B ++ tp ++ take j tc) = Some NDir).
  { intros j Hj. rewrite <- take_removelast by lia. apply D1.
    rewrite length_removelast_take. lia. }
  assert (Hl1 : forall r, nodes s1 !! (l ++ r) = nodes s !! (l ++ r))
    by (intros r; apply U1'; intros j _; apply Hnot).
  assert (Hf1 : forall r, nodes s1 !! (B ++ tp ++ tc ++ r) = None).
  { intros r. rewrite U1'; [apply Hfresh|]. intros j Hj.
    rewrite !(app_assoc B tp). intros E%app_inv_head. revert E. neq_len. }
  unfold bind. rewrite E1.
  destruct (nodes s !! l) as [[d| |]|] eqn:Hln.
  - (* a regular file: copy2 *)
    cbv beta iota. unfold copy2. rewrite Hh1.
    assert (Hr1 : resolve s1 (mkPath (root p) (tp ++ tc)) = Some (B ++ tp ++ tc)).
    { rewrite <- HB1. apply resolve_plain_dirs; [rewrite elem_of_app; tauto|]. rewrite HB1.
      apply dirs_under_dest; [|exact D1']. intros m Hm. apply G1. by apply Hpd. }
    rewrite Hr1. unfold copy2_loc.
    assert (Hd1 : nodes s1 !! (B ++ tp ++ tc) = None)
      by (pose proof (Hf1 []) as H; by rewrite app_nil_r in H).
    assert (Hs1 : nodes s1 !! l = Some (NFile d))
      by (pose proof (Hl1 []) as H; rewrite !app_nil_r in H; by rewrite H).
    rewrite Hd1. cbv zeta.
    rewrite decide_False by (intros E; apply Hn1; exists tc; by rewrite <- E, app_assoc).
    rewrite Hs1. unfold write_file. rewrite Hd1.
    rewrite (removelast_app B) by (intros E; apply app_eq_nil in E; tauto).
    rewrite (removelast_app tp) by done.
    pose proof (D1 (length (removelast tc)) ltac:(lia)) as Hpar. rewrite take_ge in Hpar by lia.
    rewrite Hpar.
    destruct (B ++ tp ++ tc) as [|x y] eqn:Ek;
      [apply app_eq_nil in Ek as [_ Ek]; apply app_eq_nil in Ek; tauto|]. rewrite <- Ek in *.
    cbv beta iota. split; [done|]. split; [done|]. split.
    { eapply dirs_grow_trans; [exact G1|]. cbn [nodes with_nodes]. by apply dirs_grow_insert_new. }
    split.
    { intros r. simpl nodes. destruct r as [|z r].
      - rewrite !app_nil_r, lookup_insert_eq. by rewrite Hln.
      - rewrite lookup_insert_ne by neq_len. rewrite Hf1. symmetry.
        by eapply file_has_no_children. }
    split.
    { intros j Hj. simpl nodes. rewrite lookup_insert_ne by neq_len. by apply D1'. }
    intros k Hk1 Hk2. simpl nodes. rewrite lookup_insert_ne; [by apply U1'|].
    intros E. apply (Hk1 []). by rewrite app_nil_r.
  - (* a directory: copytree *)
    cbv beta iota. unfold copytree. rewrite Hh1.
    assert (Hs1 : nodes s1 !! l = Some NDir)
      by (pose proof (Hl1 []) as H; rewrite !app_nil_r in H; by rewrite H).
    rewrite Hs1. set (es := subtree (nodes s1) l).
    pose proof (mkdir_parents_grow (mkPath (root p) (tp ++ tc)) s1) as [_ G2].
    pose proof (mkdir_under_dest p tc s1 Hdp Hdc) as M2. rewrite HB1 in M2. fold tp in M2.
    specialize (M2 (fun m Hm => G1 _ (Hpd m Hm))).
    specialize (M2 ltac:(
      intros j Hj; destruct (decide (j = length tc)) as [->|];
      [left; rewrite take_ge by lia; pose proof (Hf1 []) as H; by rewrite app_nil_r in H
      |right; apply D1'; lia])).
    unfold bind.
    destruct (mkdir_parents (mkPath (root p) (tp ++ tc)) s1) as [r2 s2] eqn:E2.
    simpl in G2. destruct M2 as (-> & C2 & D2 & U2).
    assert (Hr2 : resolve s2 (mkPath (root p) (tp ++ tc)) = Some (B ++ tp ++ tc)).
    { assert (HB2 : base s2 p = B) by (unfold B, base; by rewrite C2, C1).
      rewrite <- HB2. apply resolve_plain_dirs; [rewrite elem_of_app; tauto|]. rewrite HB2.
      apply dirs_under_dest; [intros m Hm; apply G2, G1, Hpd; done|intros j Hj; apply D2; lia]. }
    cbv beta iota. rewrite Hr2. unfold bind.
    pose proof (copy_entries_writes l (B ++ tp ++ tc) es s2) as [_ [G3 _]].
    pose proof (copy_entries_spec l (B ++ tp ++ tc) es [] s2) as CE.
    destruct (copy_entries l (B ++ tp ++ tc) es s2) as [res s3] eqn:E3. simpl in G3.
    destruct CE as (-> & C3 & A3 & U3).
    + apply subtree_NoDup.
    + apply subtree_sorted.
    + intros r n Hrn. apply subtree_elem in Hrn as [Hr Hn]. rewrite Hl1 in Hn.
      destruct r as [|z r]; [done|].
      split; [done|]. split; [intros ->; by apply (Hno (z :: r))|]. split.
      { rewrite <- !app_assoc, U2; [apply Hf1|]. intros j Hj.
        rewrite !(app_assoc B tp). intros E%app_inv_head. revert E. neq_len. }
      split; [rewrite U2; [by rewrite Hl1|]; intros j _; apply Hnot|].
      intros r' x E. destruct r' as [|y r']; [by left|right]. simpl.
      apply subtree_elem. split; [done|]. rewrite Hl1. apply (HW _ x n). by rewrite <- E.
    + intros r n Hin. inversion Hin.
    + pose proof (D2 (length tc) ltac:(lia)) as H. by rewrite take_ge in H by lia.
    + intros r r' E. rewrite <- !app_assoc in E. by apply (Hnot r (tc ++ r')).
    + cbv beta iota delta [ret]. split; [done|]. split; [by rewrite C3, C2, C1|]. split.
      { eapply dirs_grow_trans; [exact G1|]. eapply dirs_grow_trans; [exact G2|exact G3]. }
      split.
      { intros r. destruct r as [|z r].
        - rewrite !app_nil_r. rewrite U3.
          + pose proof (D2 (length tc) ltac:(lia)) as H. rewrite take_ge in H by lia.
            by rewrite H, Hln.
          + intros r n Hrn. apply subtree_elem in Hrn as [Hr _].
            destruct r as [|y r]; [done|]. neq_len.
        - destruct (nodes s !! (l ++ z :: r)) as [n|] eqn:Hlr.
          + pose proof (A3 (z :: r) n) as A. rewrite <- !app_assoc in A. apply A.
            apply subtree_elem. split; [done|]. by rewrite Hl1.
          + rewrite U3; [rewrite U2; [apply Hf1|]|].
            * intros j Hj. rewrite !(app_assoc B tp). intros E%app_inv_head. revert E. neq_len.
            * intros r' n' Hrn E. rewrite <- !app_assoc in E.
              do 3 apply app_inv_head in E. subst r'.
              apply subtree_elem in Hrn as [_ Hn']. rewrite Hl1 in Hn'. congruence. }
      split.
      { intros j Hj. rewrite U3; [apply D2; lia|].
        intros r n Hrn. apply subtree_elem in Hrn as [Hr _].
        destruct r as [|y r]; [done|]. neq_len. }
      intros k Hk1 Hk2. rewrite U3; [rewrite U2; [by apply U1'|]|].
      * intros j Hj E. destruct (decide (j = length tc)) as [->|].
        -- rewrite take_ge in E by lia. apply (Hk1 []). by rewrite app_nil_r.
        -- apply (Hk2 j); [lia|done].
      * intros r n _ E. apply (Hk1 r). by rewrite E, <- !app_assoc.
  - exfalso. apply (Hno []). by rewrite app_nil_r.
  - done.
Qed.

Lemma keys_disjoint (done todo : Ctx.Dict) (c h c' h' : Path) :
  NoDup (Ctx.keys (done ++ todo)) -> (c, h) ∈ done -> (c', h') ∈ todo -> c <> c'.
Proof.
  unfold Ctx.keys. rewrite map_app. intros Hnd H1 H2 ->.
  apply NoDup_app in Hnd as (_ & Hd & _). apply (Hd c').
  - apply list_elem_of_In, in_map_iff. exists (c', h). split; [done|]. by apply list_elem_of_In.
  - apply list_elem_of_In, in_map_iff. exists (c', h'). split; [done|]. by apply list_elem_of_In.
Qed.

Lemma take_family_cases (k D tc : list string) :
  (exists j, 1 <= j < length tc /\ k = D ++ take j tc) \/
  (forall j, 1 <= j < length tc -> k <> D ++ take j tc).
Proof.
  destruct (decide (k ∈ (fun j => D ++ take j tc) <$> seq 1 (length tc - 1))) as [Hin|Hnin].
  - left. apply list_elem_of_fmap in Hin as (j & -> & Hj). apply elem_of_seq in Hj.
    exists j. split; [lia|done].
  - right. intros j Hj ->. apply Hnin. apply list_elem_of_fmap. exists j.
    split; [done|]. apply elem_of_seq. lia.
Qed.

Lemma prefix_of_take_key (l r B tp : list string) (m : nat) :
  l ++ r = B ++ take m tp -> prefix l (B ++ tp).
Proof. intros E. apply (prefix_app_l _ _ r). rewrite E. apply prefix_app, prefix_take. Qed.

Lemma app_take_prefix (a r tc : list string) (j : nat) : a ++ r = take j tc -> prefix a tc.
Proof. intros E. apply (prefix_app_l _ _ r). rewrite E. apply prefix_take. Qed.

(** The loop of [build] over entries [todo] once the entries [done] have
    been materialised. Every entry's host tree lies outside the location
    [base s0 p ++ tail p] of [dest], below which nothing existed; no
    context path is a prefix of another. The state records what [done]
    wrote: their mirrors, the directories leading to them, the prefixes of
    [dest], and nothing else. *)
Lemma build_entries_mirror (p : Path) (s0 : FS) (es done todo : Ctx.Dict) (s : FS) :
  es = done ++ todo -> ".." ∉ tail p ->
  (forall k n, nodes s0 !! k = Some n -> k <> [] -> nodes s0 !! removelast k = Some NDir) ->
  (forall r, r <> [] -> nodes s0 !! (base s0 p ++ tail p ++ r) = None) ->
  NoDup (Ctx.keys es) ->
  (forall c h c' h', (c, h) ∈ es -> (c', h') ∈ es -> prefix (tail c) (tail c') -> c = c') ->
  (forall c h, (c, h) ∈ es ->
     Build.invalid_ctx_path c = false /\ tail c <> [] /\
     exists l, resolve s0 h = Some l /\ nodes s0 !! l <> None /\
       (forall r, nodes s0 !! (l ++ r) <> Some NOther) /\
       ~ prefix (base s0 p ++ tail p) l /\ ~ prefix l (base s0 p ++ tail p)) ->
  cwd s = cwd s0 -> dirs_grow (nodes s0) (nodes s) ->
  (forall m, m <= length (tail p) -> nodes s !! (base s0 p ++ take m (tail p)) = Some NDir) ->
  (forall c h l, (c, h) ∈ done -> resolve s0 h = Some l ->
     forall r, nodes s !! (base s0 p ++ tail p ++ tail c ++ r) = nodes s0 !! (l ++ r)) ->
  (forall c h, (c, h) ∈ done -> forall j, j < length (tail c) ->
     nodes s !! (base s0 p ++ tail p ++ take j (tail c)) = Some NDir) ->
  (forall k, nodes s !! k <> nodes s0 !! k ->
     (exists m, m <= length (tail p) /\ k = base s0 p ++ take m (tail p)) \/
     exists c h, (c, h) ∈ done /\
       ((exists r, k = base s0 p ++ tail p ++ tail c ++ r) \/
        exists j, 1 <= j < length (tail c) /\ k = base s0 p ++ tail p ++ take j (tail c))) ->
  let '(res, s') := Build.build_entries p todo s in
  res = inr tt /\ cwd s' = cwd s0 /\
  (forall m, m <= length (tail p) -> nodes s' !! (base s0 p ++ take m (tail p)) = Some NDir) /\
  (forall c h, (c, h) ∈ es -> forall j, j < length (tail c) ->
     nodes s' !! (base s0 p ++ tail p ++ take j (tail c)) = Some NDir) /\
  (forall c h l, (c, h) ∈ es -> resolve s0 h = Some l ->
     forall r, nodes s' !! (base s0 p ++ tail p ++ tail c ++ r) = nodes s0 !! (l ++ r)).
Proof.
  intros Hes Hdp Hwf Hfr Hnd Hsep Hent.
  set (B := base s0 p) in *. set (tp := tail p) in *.
  revert done s Hes. induction todo as [|[c h] todo IH];
    intros done s Hes Hcwd Hg Hpd Hdone Hmid Hchg.
  { cbn [Build.build_entries]. unfold ret. split; [done|]. split; [done|]. split; [done|].
    split; [intros c h Hin; rewrite Hes, app_nil_r in Hin; by apply (Hmid c h)|].
    intros c h l Hin. rewrite Hes, app_nil_r in Hin. by apply (Hdone c h l). }
  cbn [Build.build_entries]. unfold bind.
  assert (Hin : (c, h) ∈ es) by (rewrite Hes; apply elem_of_app; right; left).
  destruct (Hent c h Hin) as (Hinv & Htc & l & Hl0 & Hln & Hno & Hn1 & Hn2).
  assert (Hlc : length (tail c) <> 0) by (destruct (tail c); [done|simpl; lia]).
  assert (HB : base s p = B) by (unfold B, base; by rewrite Hcwd).
  assert (Hsep' : forall c0 h0, (c0, h0) ∈ done ->
            ~ prefix (tail c0) (tail c) /\ ~ prefix (tail c) (tail c0)).
  { intros c0 h0 Hd0. assert (Hne : c0 <> c).
    { apply (keys_disjoint done ((c, h) :: todo) c0 h0 c h); [by rewrite <- Hes|done|left]. }
    assert (Hin0 : (c0, h0) ∈ es) by (rewrite Hes; apply elem_of_app; by left).
    split; intros Hp; apply Hne.
    - by apply (Hsep c0 h0 c h).
    - symmetry. by apply (Hsep c h c0 h0). }
  assert (Hhost : forall r, nodes s !! (l ++ r) = nodes s0 !! (l ++ r)).
  { intros r. destruct (decide (nodes s !! (l ++ r) = nodes s0 !! (l ++ r))) as [|Hne]; [done|].
    exfalso. destruct (Hchg _ Hne) as [(m & Hm & E)|(c0 & h0 & Hd0 & [(r0 & E)|(j & Hj & E)])].
    - apply Hn2. by eapply prefix_of_take_key.
    - rewrite app_assoc in E. apply app_eq_prefix in E. tauto.
    - rewrite app_assoc in E. apply app_eq_prefix in E. tauto. }
  assert (Hres : resolve s h = Some l) by (eapply resolve_mono; [exact Hcwd|exact Hg|exact Hl0]).
  assert (Hfresh : forall r, nodes s !! (B ++ tp ++ tail c ++ r) = None).
  { intros r. destruct (decide (nodes s !! (B ++ tp ++ tail c ++ r) =
                                nodes s0 !! (B ++ tp ++ tail c ++ r))) as [E|Hne].
    { rewrite E. apply Hfr. intros E'. apply app_eq_nil in E' as [? _]. done. }
    exfalso. destruct (Hchg _ Hne) as [(m & Hm & E)|(c0 & h0 & Hd0 & [(r0 & E)|(j & Hj & E)])].
    - revert E. neq_len.
    - do 2 apply app_inv_head in E. apply app_eq_prefix in E. destruct (Hsep' c0 h0 Hd0). tauto.
    - do 2 apply app_inv_head in E. apply app_take_prefix in E. destruct (Hsep' c0 h0 Hd0). tauto. }
  assert (Hmid' : forall j, 1 <= j < length (tail c) ->
            nodes s !! (B ++ tp ++ take j (tail c)) = None \/
            nodes s !! (B ++ tp ++ take j (tail c)) = Some NDir).
  { intros j Hj. destruct (decide (nodes s !! (B ++ tp ++ take j (tail c)) =
                                   nodes s0 !! (B ++ tp ++ take j (tail c)))) as [E|Hne].
    { left. rewrite E. apply Hfr. intros E'. apply (f_equal length) in E'.
      rewrite length_take in E'. simpl in E'. lia. }
    destruct (Hchg _ Hne) as [(m & Hm & E)|(c0 & h0 & Hd0 & [(r0 & E)|(j0 & Hj0 & E)])].
    - exfalso. revert E. neq_len.
    - exfalso. do 2 apply app_inv_head in E. symmetry in E. apply app_take_prefix in E.
      destruct (Hsep' c0 h0 Hd0). tauto.
    - right. rewrite E. apply (Hmid c0 h0 Hd0). lia. }
  pose proof (build_entry_mirror p c h l s Hinv Htc Hdp) as ST. rewrite HB in ST. fold tp in ST.
  specialize (ST Hpd Hres ltac:(pose proof (Hhost []) as H; rewrite app_nil_r in H; by rewrite H)
                 ltac:(intros r; rewrite Hhost; apply Hno)).
  specialize (ST ltac:(intros r x n; rewrite !Hhost; intros H;
                       apply Hwf in H; [by rewrite removelast_app_snoc in H|];
                       intros E; apply app_eq_nil in E as [_ E]; apply app_eq_nil in E; by destruct E)).
  specialize (ST Hn1 Hn2 Hfresh Hmid').
  destruct (Build.build_entry p (c, h) s) as [r1 s1] eqn:E1.
  destruct ST as (-> & C1 & G1 & M1 & D1 & U1).
  cbv beta iota. apply (IH (done ++ [(c, h)]) s1).
  - by rewrite Hes, <- app_assoc.
  - by rewrite C1.
  - by eapply dirs_grow_trans.
  - intros m Hm. apply G1. by apply Hpd.
  - intros c0 h0 l0 Hd0 Hl0' r. apply elem_of_app in Hd0 as [Hd0|Hd0].
    + destruct (Hsep' c0 h0 Hd0) as [Hp1 Hp2]. rewrite U1.
      * by apply (Hdone c0 h0 l0).
      * intros r' E. do 2 apply app_inv_head in E. apply app_eq_prefix in E. tauto.
      * intros j Hj E. do 2 apply app_inv_head in E. apply app_take_prefix in E. tauto.
    + apply list_elem_of_singleton in Hd0. injection Hd0 as -> ->.
      rewrite Hl0 in Hl0'. injection Hl0' as <-. rewrite M1. apply Hhost.
  - intros c0 h0 Hd0 j Hj. apply elem_of_app in Hd0 as [Hd0|Hd0].
    + destruct (Hsep' c0 h0 Hd0) as [Hp1 Hp2].
      destruct (take_family_cases (B ++ tp ++ take j (tail c0)) (B ++ tp) (tail c))
        as [(j' & Hj' & E)|Hnf].
      * rewrite <- app_assoc in E. rewrite E. apply D1. lia.
      * rewrite U1; [by apply (Hmid c0 h0)| |].
        -- intros r' E. do 2 apply app_inv_head in E. symmetry in E.
           apply app_take_prefix in E. tauto.
        -- intros j' Hj' E. apply (Hnf j' Hj'). by rewrite <- app_assoc.
    + apply list_elem_of_singleton in Hd0. injection Hd0 as -> ->. by apply D1.
  - intros k Hk. destruct (decide (nodes s1 !! k = nodes s !! k)) as [E|Hne1].
    + rewrite E in Hk. destruct (Hchg k Hk) as [?|(c0 & h0 & Hd0 & Hc0)]; [by left|right].
      exists c0, h0. split; [apply elem_of_app; by left|done].
    + right. exists c, h. split; [apply elem_of_app; right; by apply list_elem_of_singleton|].
      destruct (decide (prefix (B ++ tp ++ tail c) k)) as [[r ->]|Hnp].
      * left. exists r. by rewrite <- !app_assoc.
      * right. destruct (take_family_cases k (B ++ tp) (tail c)) as [(j & Hj & ->)|Hnf].
        -- exists j. split; [done|]. by rewrite <- app_assoc.
        -- exfalso. apply Hne1. apply U1.
           ++ intros r ->. apply Hnp. exists r. by rewrite <- !app_assoc.
           ++ intros j Hj ->. apply (Hnf j Hj). by rewrite <- app_assoc.
Qed.

(** Walking the same components from two locations whose subtrees agree
    reaches nodes that agree. *)
Lemma walk_mirror (ns ns' : gmap (list string) Node) (a b rel : list string) :
  (forall r, ns' !! (a ++ r) = ns !! (b ++ r)) -> ".." ∉ rel ->
  match walk ns' a rel with Some x => ns' !! x | None => None end =
  match walk ns b rel with Some y => ns !! y | None => None end.
Proof.
  revert a b. induction rel as [|x rel IH]; intros a b H Hdd; simpl.
  - pose proof (H []) as H0. by rewrite !app_nil_r in H0.
  - pose proof (H []) as H0. rewrite !app_nil_r in H0. rewrite H0.
    rewrite not_elem_of_cons in Hdd. destruct Hdd as [Hx Hdd].
    destruct (ns !! b) as [[]|]; try done. rewrite !decide_False by done.
    apply IH; [|done]. intros r. rewrite <- !app_assoc. apply H.
Qed.

Lemma stat_mirror (s s' : FS) (q h : Path) (a l rel : list string) :
  resolve s' q = Some a -> resolve s h = Some l -> ".." ∉ rel ->
  (forall r, nodes s' !! (a ++ r) = nodes s !! (l ++ r)) ->
  stat s' (join q (mkPath "" rel)) = stat s (join h (mkPath "" rel)).
Proof.
  intros Hq Hh Hdd H. unfold stat. rewrite !join_relative by reflexivity.
  unfold resolve in *. rewrite (base_same_root s' q), (base_same_root s h) by done.
  simpl tail. rewrite !walk_app, Hq, Hh. by apply walk_mirror.
Qed.

Lemma lookup_none_below (ns : gmap (list string) Node) (D : list string) :
  map_Forall (fun k _ => ~ (prefix D k /\ k <> D)) ns ->
  forall r, r <> [] -> ns !! (D ++ r) = None.
Proof.
  intros HF r Hr. destruct (ns !! (D ++ r)) as [n|] eqn:E; [|done].
  exfalso. apply (HF _ _ E). split; [by exists r|]. destruct r; [done|]. neq_len.
Qed.

Lemma no_other_nodes (ns : gmap (list string) Node) :
  map_Forall (fun _ n => n <> NOther) ns -> forall k, ns !! k <> Some NOther.
Proof. intros HF k E. by apply (HF _ _ E). Qed.

(** C4 (as amended). Write [p] for [Path(dest)]. [build(dest)] succeeds,
    [dest] is a directory afterwards, and every [dest / ctx_path]
    reproduces its [host_path]: the same node (the same bytes for a regular
    file, a directory for a directory), and, for every relative path [rel]
    without [".."], [dest / ctx_path / rel] is what [host_path / rel] is
    (the whole subtree, with the intermediate directories). This holds on a
    filesystem where every entry's parent is a directory, when [dest] has
    no [".."] component, its starting directory exists, its existing
    prefixes are directories and nothing exists below it yet; when the
    context paths are relative, without [".."], non-empty, distinct, and
    none is a prefix of another (not both [a] and [a/x]); and when every
    host path exists, holds only regular files and directories, and its
    location neither lies in [dest]'s tree nor contains it. *)
Theorem build_mirrors_hosts (b : Ctx.BuildContext) (dest : PathType) (p : Path) (s : FS)
  (Hp : to_path dest = p)
  (Hwf : forall k n, nodes s !! k = Some n -> k <> [] -> nodes s !! removelast k = Some NDir)
  (Hdp : ".." ∉ tail p)
  (Hbase : nodes s !! base s p = Some NDir)
  (Hpre : forall m, 1 <= m <= length (tail p) ->
     nodes s !! (base s p ++ take m (tail p)) = None \/
     nodes s !! (base s p ++ take m (tail p)) = Some NDir)
  (Hfr : forall r, r <> [] -> nodes s !! (base s p ++ tail p ++ r) = None)
  (Hnd : NoDup (Ctx.keys (Ctx._context_entries b)))
  (Hsep : forall c h c' h', (c, h) ∈ Ctx._context_entries b -> (c', h') ∈ Ctx._context_entries b ->
     prefix (tail c) (tail c') -> c = c')
  (Hent : forall c h, (c, h) ∈ Ctx._context_entries b ->
     Build.invalid_ctx_path c = false /\ tail c <> [] /\
     exists l, resolve s h = Some l /\ nodes s !! l <> None /\
       (forall r, nodes s !! (l ++ r) <> Some NOther) /\
       ~ prefix (base s p ++ tail p) l /\ ~ prefix l (base s p ++ tail p)) :
  let '(r, s') := Build.build b dest s in
  r = inr tt /\ stat s' p = Some NDir /\
  forall c h, (c, h) ∈ Ctx._context_entries b ->
    stat s' (join p c) = stat s h /\
    forall rel, ".." ∉ rel ->
      stat s' (join (join p c) (mkPath "" rel)) = stat s (join h (mkPath "" rel)).
Proof.
  unfold Build.build, bind. rewrite Hp.
  pose proof (mkdir_parents_plain p s Hdp Hbase Hpre) as M.
  pose proof (mkdir_parents_grow p s) as [_ G].
  destruct (mkdir_parents p s) as [r1 s1] eqn:E1. simpl in G.
  destruct M as (-> & C1 & D1 & U1). cbv beta iota.
  pose proof (build_entries_mirror p s (Ctx._context_entries b) [] (Ctx._context_entries b) s1
                eq_refl Hdp Hwf Hfr Hnd Hsep Hent C1 G D1) as L.
  specialize (L ltac:(intros c h l Hin; by apply elem_of_nil in Hin)
                ltac:(intros c h Hin; by apply elem_of_nil in Hin)).
  specialize (L ltac:(
    intros k Hk; left;
    destruct (decide (k ∈ (fun m => base s p ++ take m (tail p)) <$> seq 0 (S (length (tail p)))))
      as [Hin|Hnin];
    [apply list_elem_of_fmap in Hin as (m & -> & Hm); apply elem_of_seq in Hm;
     exists m; split; [lia|done]
    |exfalso; apply Hk, U1; intros m Hm ->; apply Hnin, list_elem_of_fmap;
     exists m; split; [done|]; apply elem_of_seq; lia])).
  destruct (Build.build_entries p (Ctx._context_entries b) s1) as [r2 s2] eqn:E2.
  destruct L as (-> & C2 & P2 & Mid2 & Mir2).
  assert (HB2 : base s2 p = base s p) by (unfold base; by rewrite C2).
  split; [done|]. split.
  { unfold stat, resolve. rewrite HB2, walk_plain_dirs; [|done|intros m Hm; apply P2; lia].
    pose proof (P2 (length (tail p)) ltac:(lia)) as H. by rewrite take_ge in H by lia. }
  intros c h Hin. destruct (Hent c h Hin) as (Hinv & Htc & l & Hl & _).
  destruct (valid_ctx_path c Hinv) as [Ha Hdc].
  assert (Hrc : resolve s2 (join p c) = Some (base s p ++ tail p ++ tail c)).
  { rewrite join_relative by done. rewrite <- HB2.
    apply resolve_plain_dirs; [rewrite elem_of_app; tauto|]. rewrite HB2.
    apply dirs_under_dest; [intros m Hm; apply P2; lia|intros j Hj; by apply (Mid2 c h)]. }
  assert (Hmir : forall r, nodes s2 !! ((base s p ++ tail p ++ tail c) ++ r) = nodes s !! (l ++ r))
    by (intros r; rewrite <- !app_assoc; by apply (Mir2 c h l)).
  split.
  - unfold stat. rewrite Hrc, Hl. pose proof (Hmir []) as H. by rewrite !app_nil_r in H.
  - intros rel Hrel. by apply (stat_mirror s s2 (join p c) h (base s p ++ tail p ++ tail c) l rel).
Qed.

Ltac vm_decide := match goal with |- ?P => apply (bool_decide_unpack P); vm_compute; exact I end.

(** Witness of [build_mirrors_hosts]: [ctx_tree] built into [/tmp/ctx] on
    [fs_tree]. *)
Lemma build_mirrors_hosts_witness :
  fst (Build.build ctx_tree (PStr "/tmp/ctx") fs_tree) = inr tt.
Proof.
  assert (HE : Ctx._context_entries ctx_tree =
                 [(of_string "lib", of_string "/src/lib"); (of_string "readme", of_string "/src/readme")])
    by (vm_compute; reflexivity).
  assert (HW : map_Forall (fun k _ => k <> [] -> nodes fs_tree !! removelast k = Some NDir) (nodes fs_tree))
    by (vm_decide).
  pose proof (build_mirrors_hosts ctx_tree (PStr "/tmp/ctx") (of_string "/tmp/ctx") fs_tree eq_refl
                (fun k n Hk => proj1 (map_Forall_lookup _ _) HW k n Hk)) as W.
  specialize (W ltac:(vm_decide) ltac:(vm_compute; reflexivity)).
  specialize (W ltac:(intros m Hm; assert (HL : length (tail (of_string "/tmp/ctx")) = 2) by reflexivity;
                      rewrite HL in Hm; destruct m as [|[|[|m]]]; [lia| | |lia]; vm_compute; auto)).
  specialize (W ltac:(intros r Hr; rewrite app_assoc; apply lookup_none_below; [|done];
                      vm_decide)).
  specialize (W ltac:(rewrite HE; vm_decide)).
  specialize (W ltac:(intros c h c' h'; rewrite HE, !elem_of_cons, !elem_of_nil;
    intros [[= -> ->]|[[= -> ->]|[]]] [[= -> ->]|[[= -> ->]|[]]];
    first [intros _; reflexivity | intros [k Hk]; vm_compute in Hk; discriminate])).
  specialize (W ltac:(intros c h; rewrite HE, !elem_of_cons, elem_of_nil;
    intros [[= -> ->]|[[= -> ->]|[]]];
    (split; [reflexivity|]; split; [vm_compute; discriminate|]);
    [exists ["src"; "lib"] | exists ["src"; "readme"]];
    (split; [vm_compute; reflexivity|]; split; [vm_compute; discriminate|]);
    (split; [intros r; apply (no_other_nodes (nodes fs_tree)); vm_decide|]);
    split; vm_decide)).
  destruct (Build.build ctx_tree (PStr "/tmp/ctx") fs_tree) as [r s'].
  exact (proj1 W).
Defined.

(** ** Dockerfile rendering ([cmds.py], [render_dockerfile_content]) *)

Ltac nat_cmp_cases :=
  repeat match goal with
  | H : context [Nat.ltb ?a ?b] |- _ => destruct (Nat.ltb_spec a b)
  | H : context [Nat.eqb ?a ?b] |- _ => destruct (Nat.eqb_spec a b)
  | |- context [Nat.ltb ?a ?b] => destruct (Nat.ltb_spec a b)
  | |- context [Nat.eqb ?a ?b] => destruct (Nat.eqb_spec a b)
  end.

Lemma str_leR_total : Total Builders.str_leR.
Proof.
  unfold Builders.str_leR. intros a. induction a as [|x a IH]; intros [|y b]; simpl; auto.
  nat_cmp_cases; auto; try lia.
Qed.

Lemma str_leR_trans : Transitive Builders.str_leR.
Proof.
  unfold Builders.str_leR. intros a. induction a as [|x a IH]; intros [|y b] [|z c]; simpl;
    try done.
  intros H1 H2. nat_cmp_cases; try done; try lia. eapply IH; eauto.
Qed.

Lemma str_leR_antisymm : AntiSymm (=) Builders.str_leR.
Proof.
  unfold Builders.str_leR. intros a. induction a as [|x a IH]; intros [|y b]; simpl;
    try done.
  intros H1 H2. nat_cmp_cases; try done; try lia.
  f_equal; [|by apply IH].
  by rewrite <- (ascii_nat_embedding x), <- (ascii_nat_embedding y), e.
Qed.

Lemma sorted_perm (l1 l2 : list string) :
  l1 ≡ₚ l2 -> Builders.sorted l1 = Builders.sorted l2.
Proof.
  intros Hp. unfold Builders.sorted.
  apply (@Sorted_unique _ _ str_leR_trans str_leR_antisymm).
  - apply (@Sorted_merge_sort _ _ _ str_leR_total).
  - apply (@Sorted_merge_sort _ _ _ str_leR_total).
  - by rewrite !merge_sort_Permutation.
Qed.

Lemma command_strs_cases (pm : string) (cmds : list Builders.DockerBuildCommand) :
  (pm <> "apt" /\ (exists pk, Builders.AddPkgDockerBuildCommand pk ∈ cmds) /\
   Builders.command_strs pm cmds = inl (ValueError_pkg_manager pm)) \/
  ((pm = "apt" \/ forall pk, Builders.AddPkgDockerBuildCommand pk ∉ cmds) /\
   exists ls, Builders.command_strs pm cmds = inr ls).
Proof.
  induction cmds as [|c cs IH]; simpl.
  - right. split; [right; intros pk Hpk; inversion Hpk | by eexists].
  - destruct IH as [(Hpm & [pk Hpk] & E)|(Hpm & [ls E])].
    + left. split; [done|]. split; [exists pk; by apply elem_of_cons; right|].
      destruct c as [s|srcs dst co cm|pk']; simpl; rewrite ?E; [done|done|].
      by rewrite decide_False.
    + destruct c as [s|srcs dst co cm|pk']; simpl.
      * right. rewrite E. split; [|by eexists].
        destruct Hpm as [?|Hpm]; [by left|right].
        intros pk Hin. apply elem_of_cons in Hin as [?|Hin]; [discriminate|]. by apply (Hpm pk).
      * right. rewrite E. split; [|by eexists].
        destruct Hpm as [?|Hpm]; [by left|right].
        intros pk Hin. apply elem_of_cons in Hin as [?|Hin]; [discriminate|]. by apply (Hpm pk).
      * destruct (decide (pm = "apt")) as [Ha|Ha].
        -- right. rewrite E. split; [by left | by eexists].
        -- left. split; [done|]. split; [|done]. exists pk'. apply elem_of_cons. by left.
Qed.

Lemma str_app_cons (c : ascii) (x y : string) :
  String.append (String c x) y = String c (String.append x y).
Proof. reflexivity. Qed.

Lemma str_app_assoc (x y z : string) :
  String.append x (String.append y z) = String.append (String.append x y) z.
Proof. induction x as [|c x IH]; [reflexivity|]. by rewrite !str_app_cons, IH. Qed.

Lemma str_app_nil_r (x : string) : String.append x "" = x.
Proof. induction x as [|c x IH]; [reflexivity|]. by rewrite str_app_cons, IH. Qed.

Lemma lstrip_app (x y : string) :
  Builders.lstrip (String.append x y) =
    match Builders.lstrip x with EmptyString => Builders.lstrip y | r => String.append r y end.
Proof.
  induction x as [|c x IH]; [by change (String.append "" y) with y|].
  rewrite str_app_cons. simpl. destruct (Builders.is_space c); [apply IH | done].
Qed.

Lemma rstrip_app (x y : string) :
  Builders.rstrip (String.append x y) =
    match Builders.rstrip y with EmptyString => Builders.rstrip x | r => String.append x r end.
Proof.
  induction x as [|c x IH].
  - change (String.append "" y) with y. by destruct (Builders.rstrip y).
  - rewrite str_app_cons. simpl. rewrite IH. destruct (Builders.rstrip y) as [|c' r]; [done|].
    by destruct x.
Qed.

Lemma concat_snoc (sep y : string) (ls : list string) :
  ls <> [] ->
  String.concat sep (ls ++ [y]) = String.append (String.concat sep ls) (String.append sep y).
Proof.
  induction ls as [|x [|x' xs] IH]; intros Hne; [done|done|].
  change (String.concat sep ((x :: x' :: xs) ++ [y]))
    with (String.append x (String.append sep (String.concat sep ((x' :: xs) ++ [y])))).
  rewrite IH by done. cbn [String.concat]. by rewrite !str_app_assoc.
Qed.

Lemma strip_cons_empty (ls : list string) :
  Builders.strip (String.concat Builders.nl ("" :: ls)) = Builders.strip (String.concat Builders.nl ls).
Proof. destruct ls as [|x xs]; reflexivity. Qed.

Lemma strip_snoc_empty (ls : list string) :
  Builders.strip (String.concat Builders.nl (ls ++ [""])) = Builders.strip (String.concat Builders.nl ls).
Proof.
  destruct ls as [|x xs]; [reflexivity|].
  rewrite concat_snoc by done. rewrite str_app_nil_r. unfold Builders.strip.
  rewrite lstrip_app. destruct (Builders.lstrip (String.concat Builders.nl (x :: xs))) as [|c r];
    [reflexivity|].
  rewrite rstrip_app. reflexivity.
Qed.

Lemma command_strs_app (pm : string) (l1 l2 : list Builders.DockerBuildCommand) :
  Builders.command_strs pm (l1 ++ l2) =
    match Builders.command_strs pm l1 with
    | inl e => inl e
    | inr a => match Builders.command_strs pm l2 with inl e => inl e | inr b => inr (a ++ b) end
    end.
Proof.
  induction l1 as [|c l1 IH]; simpl.
  - by destruct (Builders.command_strs pm l2).
  - rewrite IH. destruct (Builders.get_str_for_dockerfile pm c); [done|].
    destruct (Builders.command_strs pm l1); [done|].
    by destruct (Builders.command_strs pm l2).
Qed.

Lemma command_strs_spaces (pm : string) (n : nat) :
  Builders.command_strs pm (repeat (Builders.StrDockerBuildCommand "") n) = inr (repeat "" n).
Proof. induction n as [|n IH]; simpl; [done|]. by rewrite IH. Qed.

Lemma strip_outer_empty (ls : list string) (n m : nat) :
  Builders.strip (String.concat Builders.nl (repeat "" n ++ ls ++ repeat "" m)) =
  Builders.strip (String.concat Builders.nl ls).
Proof.
  induction n as [|n IH].
  - change (repeat "" 0 ++ ls ++ repeat "" m) with (ls ++ repeat "" m).
    induction m as [|m IHm]; [by rewrite app_nil_r|].
    replace (S m) with (m + 1) by lia. rewrite repeat_app, app_assoc.
    change (repeat "" 1) with [""]. by rewrite strip_snoc_empty.
  - change (repeat "" (S n) ++ ls ++ repeat "" m) with ("" :: (repeat "" n ++ ls ++ repeat "" m)).
    by rewrite strip_cons_empty.
Qed.

(** X1. [_add_pkg_apt] sorts its packages, so the generated install
    command does not depend on the order in which they are given: two
    permutations of one package list give the same RUN instruction. *)
Theorem add_pkg_apt_permutation (packages1 packages2 : list string)
    (Hperm : packages1 ≡ₚ packages2) :
  Builders._add_pkg_apt packages1 = Builders._add_pkg_apt packages2.
Proof. unfold Builders._add_pkg_apt. by rewrite (sorted_perm _ _ Hperm). Qed.

Lemma add_pkg_apt_permutation_witness :
  ["git"; "curl"; "cmake"] ≡ₚ ["cmake"; "git"; "curl"] /\
  Builders._add_pkg_apt ["git"; "curl"; "cmake"] = Builders._add_pkg_apt ["cmake"; "git"; "curl"].
Proof.
  assert (H : ["git"; "curl"; "cmake"] ≡ₚ ["cmake"; "git"; "curl"]).
  { apply Permutation_sym. apply perm_trans with ["git"; "cmake"; "curl"];
      [apply perm_swap | apply perm_skip, perm_swap]. }
  split; [exact H | exact (add_pkg_apt_permutation _ _ H)].
Defined.

(** X2. Rendering a Dockerfile fails exactly when the package manager is
    not ["apt"] and some command is an [add_packages] one; the error is then
    the "Unsupported package manager" [ValueError]. Otherwise it returns
    the content. *)
Theorem render_dockerfile_content_error (package_manager : string)
    (commands : list Builders.DockerBuildCommand) :
  (package_manager <> "apt" /\
   (exists packages, Builders.AddPkgDockerBuildCommand packages ∈ commands) /\
   Builders.render_dockerfile_content package_manager commands =
     inl (ValueError_pkg_manager package_manager)) \/
  ((package_manager = "apt" \/
    forall packages, Builders.AddPkgDockerBuildCommand packages ∉ commands) /\
   exists content, Builders.render_dockerfile_content package_manager commands = inr content).
Proof.
  unfold Builders.render_dockerfile_content.
  destruct (command_strs_cases package_manager commands) as [(H1 & H2 & ->)|(H1 & [ls ->])].
  - by left.
  - right. split; [done | by eexists].
Qed.

(** X3. [space()] commands at the start or at the end of a builder do not
    change the rendered Dockerfile: the joined lines are stripped. *)
Theorem render_dockerfile_content_outer_spaces (package_manager : string)
    (commands : list Builders.DockerBuildCommand) (n m : nat) :
  Builders.render_dockerfile_content package_manager
    (repeat (Builders.StrDockerBuildCommand "") n ++ commands ++
     repeat (Builders.StrDockerBuildCommand "") m) =
  Builders.render_dockerfile_content package_manager commands.
Proof.
  unfold Builders.render_dockerfile_content.
  rewrite !command_strs_app, !command_strs_spaces.
  destruct (Builders.command_strs package_manager commands) as [e|ls]; [done|].
  by rewrite strip_outer_empty.
Qed.

(** ** Builders ([PartialDockerBuilder], [DockerBuilder]) *)

Lemma add_context_entry_keeps (ctx : Ctx.BuildContext) (hp : PathType) (c : Path)
    (ctx' : Ctx.BuildContext) :
  Ctx.add_context_entry ctx hp = (inr c, ctx') ->
  Ctx.dict_get c (Ctx._context_entries ctx') = Some (to_path hp) /\
  (forall k v, Ctx.dict_get k (Ctx._context_entries ctx) = Some v ->
               Ctx.dict_get k (Ctx._context_entries ctx') = Some v) /\
  Ctx._context_root ctx' = Ctx._context_root ctx.
Proof.
  intros (_ & Hroot & Hent & Hsame)%add_context_entry_ok.
  rewrite Hent. split; [apply dict_get_set_eq|]. split; [|done].
  intros k v Hk. rewrite dict_get_set. destruct (decide (k = c)) as [->|]; [|done].
  by rewrite (Hsame v Hk).
Qed.

Lemma add_context_entries_ok (ctx : Ctx.BuildContext) (ss : list PathType) (cs : list Path)
    (ctx' : Ctx.BuildContext) :
  Builders.add_context_entries ctx ss = (inr cs, ctx') ->
  Forall2 (fun c h => Ctx.dict_get c (Ctx._context_entries ctx') = Some (to_path h)) cs ss /\
  (forall k v, Ctx.dict_get k (Ctx._context_entries ctx) = Some v ->
               Ctx.dict_get k (Ctx._context_entries ctx') = Some v) /\
  Ctx._context_root ctx' = Ctx._context_root ctx.
Proof.
  revert ctx cs. induction ss as [|s ss IH]; intros ctx cs; simpl.
  - intros [= <- <-]. split; [constructor|]. done.
  - destruct (Ctx.add_context_entry ctx s) as [[e|c] ctx1] eqn:E1; [discriminate|].
    destruct (Builders.add_context_entries ctx1 ss) as [[e|cs'] ctx2] eqn:E2; [discriminate|].
    intros [= <- <-].
    destruct (add_context_entry_keeps _ _ _ _ E1) as (Hc & Hk1 & Hr1).
    destruct (IH _ _ E2) as (Hall & Hk2 & Hr2).
    split; [constructor; [by apply Hk2 | done]|].
    split; [intros k v Hk; by apply Hk2, Hk1|]. congruence.
Qed.

Lemma add_context_entries_err (ctx : Ctx.BuildContext) (ss : list PathType) (e : Exc)
    (ctx' : Ctx.BuildContext) :
  Builders.add_context_entries ctx ss = (inl e, ctx') ->
  exists pre s post cs, ss = pre ++ s :: post /\
    Builders.add_context_entries ctx pre = (inr cs, ctx') /\
    Ctx.add_context_entry ctx' s = (inl e, ctx').
Proof.
  revert ctx. induction ss as [|s ss IH]; intros ctx; simpl; [discriminate|].
  destruct (Ctx.add_context_entry ctx s) as [[e1|c] ctx1] eqn:E1.
  - intros [= -> <-]. pose proof (add_context_entry_error _ _ _ _ E1) as ->.
    by exists [], s, ss, [].
  - destruct (Builders.add_context_entries ctx1 ss) as [[e2|cs'] ctx2] eqn:E2; [|discriminate].
    intros [= -> <-].
    destruct (IH _ E2) as (pre & s' & post & cs & -> & Hpre & Hs').
    exists (s :: pre), s', post, (c :: cs). split; [done|]. split; [|done].
    simpl. by rewrite E1, Hpre.
Qed.

Lemma map_to_path_PPath (l : list Path) : map to_path (map PPath l) = l.
Proof. induction l as [|p l IH]; simpl; [done|]. by rewrite IH. Qed.

(** X4. A successful [copy] appends exactly one COPY command, whose
    sources are context paths, one per given source and in order, each
    registered in the builder's context for the host path it came from;
    the entries registered before are kept. *)
Theorem copy_registers_sources (self : Builders.PartialDockerBuilder)
    (source : Builders.CopySource) (destination : PathType) (chown chmod : option string)
    (self' : Builders.PartialDockerBuilder)
    (Hok : Builders.copy self source destination chown chmod = (inr tt, self')) :
  exists ctx_paths,
    Builders._build_commands self' = Builders._build_commands self ++
      [Builders.CopyDockerBuildCommand ctx_paths (to_path destination) chown chmod] /\
    Forall2 (fun c h =>
               Ctx.dict_get c (Ctx._context_entries (Builders._context self')) = Some (to_path h))
      ctx_paths (match source with Builders.SrcPath p => [PPath p] | Builders.SrcIter l => l end) /\
    ctx_paths <> [] /\
    (forall k v, Ctx.dict_get k (Ctx._context_entries (Builders._context self)) = Some v ->
                 Ctx.dict_get k (Ctx._context_entries (Builders._context self')) = Some v) /\
    Builders._needs_ssh self' = Builders._needs_ssh self.
Proof.
  unfold Builders.copy in Hok.
  remember (match source with Builders.SrcPath p => [PPath p] | Builders.SrcIter l => l end)
    as sources eqn:Hs.
  destruct sources as [|s0 ss]; [discriminate|].
  destruct (Builders.add_context_entries (Builders._context self) (s0 :: ss)) as [[e|cps] ctx']
    eqn:E; [discriminate|].
  destruct (add_context_entries_ok _ _ _ _ E) as (Hall & Hkeep & _).
  destruct cps as [|c cps]; [inversion Hall|].
  unfold Builders.new_copy in Hok. cbn [map] in Hok. rewrite map_to_path_PPath in Hok.
  cbn [to_path] in Hok. injection Hok as <-.
  exists (c :: cps). cbn. split; [done|]. split; [done|]. split; [done|]. done.
Qed.

(** X5. A failing [copy] appends no command. Its sources are registered
    one by one, so the sources before the failing one stay registered in
    the context: the context afterwards is the one left by registering
    exactly those, and registering the failing source raised the error.
    An empty source list raises before anything is registered. *)
Theorem copy_failure_keeps_registered (self : Builders.PartialDockerBuilder)
    (source : Builders.CopySource) (destination : PathType) (chown chmod : option string)
    (e : Exc) (self' : Builders.PartialDockerBuilder)
    (Herr : Builders.copy self source destination chown chmod = (inl e, self')) :
  Builders._build_commands self' = Builders._build_commands self /\
  Builders._needs_ssh self' = Builders._needs_ssh self /\
  (((match source with Builders.SrcPath p => [PPath p] | Builders.SrcIter l => l end) = [] /\
    e = ValueError_copy_required /\ self' = self) \/
   exists pre s post ctx_paths,
     (match source with Builders.SrcPath p => [PPath p] | Builders.SrcIter l => l end) =
       pre ++ s :: post /\
     Builders.add_context_entries (Builders._context self) pre =
       (inr ctx_paths, Builders._context self') /\
     Ctx.add_context_entry (Builders._context self') s = (inl e, Builders._context self')).
Proof.
  unfold Builders.copy in Herr.
  remember (match source with Builders.SrcPath p => [PPath p] | Builders.SrcIter l => l end)
    as sources eqn:Hs.
  destruct sources as [|s0 ss].
  - injection Herr as <- <-. split; [done|]. split; [done|]. by left.
  - destruct (Builders.add_context_entries (Builders._context self) (s0 :: ss)) as [[e1|cps] ctx']
      eqn:E.
    + injection Herr as <- <-. cbn. split; [done|]. split; [done|]. right.
      exact (add_context_entries_err _ _ _ _ E).
    + destruct (add_context_entries_ok _ _ _ _ E) as (Hall & _ & _).
      destruct cps as [|c cps]; [inversion Hall|].
      unfold Builders.new_copy in Herr. cbn [map] in Herr. rewrite map_to_path_PPath in Herr.
      discriminate.
Qed.

Lemma keys_app (d1 d2 : Ctx.Dict) : Ctx.keys (d1 ++ d2) = Ctx.keys d1 ++ Ctx.keys d2.
Proof. apply map_app. Qed.

Lemma dict_update_cons (d : Ctx.Dict) (k v : Path) (o : Ctx.Dict) :
  Ctx.dict_update d ((k, v) :: o) = Ctx.dict_update (Ctx.dict_set k v d) o.
Proof. reflexivity. Qed.

Lemma dict_set_new (k v : Path) (d : Ctx.Dict) :
  k ∉ Ctx.keys d -> Ctx.dict_set k v d = d ++ [(k, v)].
Proof.
  induction d as [|[k' v'] d IH]; simpl; intros Hk; [done|].
  rewrite decide_False; [|intros ->; apply Hk; apply elem_of_cons; by left].
  f_equal. apply IH. intros H. apply Hk. apply elem_of_cons. by right.
Qed.

Lemma dict_update_fresh (acc d : Ctx.Dict) :
  NoDup (Ctx.keys (acc ++ d)) -> Ctx.dict_update acc d = acc ++ d.
Proof.
  revert acc. induction d as [|[k v] d IH]; intros acc Hnd.
  - by rewrite app_nil_r.
  - rewrite dict_update_cons, dict_set_new.
    + rewrite IH; [by rewrite <- app_assoc|]. by rewrite <- app_assoc.
    + rewrite keys_app in Hnd. apply NoDup_app in Hnd as (_ & Hdis & _).
      intros Hk. apply (Hdis k Hk). apply elem_of_cons. by left.
Qed.

Lemma dict_update_nil (d : Ctx.Dict) : NoDup (Ctx.keys d) -> Ctx.dict_update [] d = d.
Proof. intros Hnd. by apply (dict_update_fresh [] d). Qed.

Lemma dict_set_idem (k v v' : Path) (d : Ctx.Dict) :
  Ctx.dict_set k v (Ctx.dict_set k v' d) = Ctx.dict_set k v d.
Proof.
  induction d as [|[k' v0] d IH]; simpl.
  - by rewrite decide_True.
  - destruct (decide (k = k')) as [->|Hne]; simpl.
    + by rewrite decide_True.
    + rewrite decide_False by done. by rewrite IH.
Qed.

Lemma dict_set_comm_present (k k2 v v2 : Path) (d : Ctx.Dict) :
  k ∈ Ctx.keys d -> k <> k2 ->
  Ctx.dict_set k v (Ctx.dict_set k2 v2 d) = Ctx.dict_set k2 v2 (Ctx.dict_set k v d).
Proof.
  intros Hin Hne. induction d as [|[k' v0] d IH]; [inversion Hin|].
  cbn [Ctx.keys map fst] in Hin. simpl.
  destruct (decide (k = k')) as [->|Hk]; destruct (decide (k2 = k')) as [->|Hk2]; simpl.
  - done.
  - rewrite decide_True by done. by rewrite decide_False.
  - rewrite decide_False by done. by rewrite decide_True.
  - rewrite decide_False by done. rewrite decide_False by done. f_equal. apply IH.
    apply elem_of_cons in Hin as [?|?]; done.
Qed.

Lemma dict_set_update_present (k v : Path) (d z : Ctx.Dict) :
  k ∈ Ctx.keys d -> k ∉ Ctx.keys z ->
  Ctx.dict_set k v (Ctx.dict_update d z) = Ctx.dict_update (Ctx.dict_set k v d) z.
Proof.
  revert d. induction z as [|[k2 v2] z IH]; intros d Hin Hnz; [done|].
  cbn [Ctx.keys map fst] in Hnz. rewrite elem_of_cons in Hnz.
  rewrite !dict_update_cons, IH.
  - rewrite dict_set_comm_present; [done|done|]. intros ->. apply Hnz. by left.
  - rewrite keys_dict_set. case_decide; [done|]. apply elem_of_app. by left.
  - intros ?. apply Hnz. by right.
Qed.

Lemma dict_set_update (k v : Path) (d z : Ctx.Dict) :
  NoDup (Ctx.keys z) ->
  Ctx.dict_set k v (Ctx.dict_update d z) = Ctx.dict_update d (Ctx.dict_set k v z).
Proof.
  revert d. induction z as [|[k' v'] z IH]; intros d Hnd; [done|].
  cbn [Ctx.keys map fst] in Hnd. apply NoDup_cons in Hnd as [Hnin Hnd].
  simpl Ctx.dict_set at 2. destruct (decide (k = k')) as [->|Hne].
  - rewrite !dict_update_cons, dict_set_update_present; [by rewrite dict_set_idem| |done].
    rewrite keys_dict_set. case_decide; [done|]. apply elem_of_app. right. by left.
  - rewrite !dict_update_cons. by apply IH.
Qed.

Lemma dict_update_assoc (d x y : Ctx.Dict) :
  NoDup (Ctx.keys x) ->
  Ctx.dict_update (Ctx.dict_update d x) y = Ctx.dict_update d (Ctx.dict_update x y).
Proof.
  revert x. induction y as [|[k v] y IH]; intros x Hnd; [done|].
  rewrite !dict_update_cons, dict_set_update by done.
  apply IH. by apply NoDup_keys_dict_set.
Qed.

Lemma diff_nil_iff (x y : Ctx.BuildContext) :
  Ctx.diff_collision_paths x y = [] <->
  forall k u w, Ctx.dict_get k (Ctx._context_entries x) = Some u ->
                Ctx.dict_get k (Ctx._context_entries y) = Some w -> u = w.
Proof.
  split.
  - intros H k u w Hu Hw. destruct (decide (u = w)) as [|Hne]; [done|]. exfalso.
    assert (Hk : k ∈ Ctx.diff_collision_paths x y)
      by (apply diff_collision_paths_elem; eauto).
    rewrite H in Hk. inversion Hk.
  - intros H. destruct (Ctx.diff_collision_paths x y) as [|p ps] eqn:E; [done|]. exfalso.
    assert (Hp : p ∈ Ctx.diff_collision_paths x y) by (rewrite E; apply elem_of_cons; by left).
    apply diff_collision_paths_elem in Hp as (h1 & h2 & H1 & H2 & Hne). eauto.
Qed.

Lemma diff_entries (x x' y : Ctx.BuildContext) :
  Ctx._context_entries x = Ctx._context_entries x' ->
  Ctx.diff_collision_paths x y = Ctx.diff_collision_paths x' y.
Proof. unfold Ctx.diff_collision_paths. by intros ->. Qed.

Lemma or_eq (a b : Builders.PartialDockerBuilder) :
  NoDup (Ctx.keys (Ctx._context_entries (Builders._context a))) ->
  Builders.__or__ a b =
    match Ctx.diff_collision_paths (Builders._context a) (Builders._context b) with
    | [] => inr (Builders.mkPartialDockerBuilder
                   (Builders._build_commands a ++ Builders._build_commands b)
                   (Ctx.mkBuildContext None
                      (Ctx.dict_update (Ctx._context_entries (Builders._context a))
                                       (Ctx._context_entries (Builders._context b))))
                   (Builders._needs_ssh a || Builders._needs_ssh b))
    | d => inl (ValueError_merge d)
    end.
Proof.
  intros Hnd. unfold Builders.__or__, Builders._extend, Builders.new.
  assert (E1 : Ctx.extend (Ctx.init None) (Builders._context a) =
               (inr tt, Ctx.mkBuildContext None (Ctx._context_entries (Builders._context a)))).
  { unfold Ctx.extend. cbn -[Ctx.dict_update]. by rewrite dict_update_nil. }
  cbn [Builders._context Builders._build_commands Builders._needs_ssh].
  rewrite E1. cbn -[Ctx.extend Ctx.diff_collision_paths Ctx.dict_update].
  unfold Ctx.extend.
  rewrite (diff_entries (Ctx.mkBuildContext None (Ctx._context_entries (Builders._context a)))
             (Builders._context a)) by done.
  destruct (Ctx.diff_collision_paths (Builders._context a) (Builders._context b)); reflexivity.
Qed.

(** X6. [self |= other] appends [other]'s commands before merging the
    contexts: when the merge raises, [self] keeps [other]'s commands while
    its context and its [needs_ssh] flag are unchanged; the error lists the
    conflicting context paths. *)
Theorem ior_failure_keeps_commands (self other self' : Builders.PartialDockerBuilder) (e : Exc)
    (Herr : Builders.__ior__ self other = (inl e, self')) :
  Builders._build_commands self' = Builders._build_commands self ++ Builders._build_commands other /\
  Builders._context self' = Builders._context self /\
  Builders._needs_ssh self' = Builders._needs_ssh self /\
  Ctx.diff_collision_paths (Builders._context self) (Builders._context other) <> [] /\
  e = ValueError_merge (Ctx.diff_collision_paths (Builders._context self) (Builders._context other)).
Proof.
  unfold Builders.__ior__, Builders._extend, Ctx.extend in Herr.
  destruct (Ctx.diff_collision_paths (Builders._context self) (Builders._context other)) as [|p ps];
    [discriminate|].
  injection Herr as <- <-. cbn. done.
Qed.

(** X7. [self | other] builds a new builder without a context root: it
    raises the merge [ValueError] exactly when a context path is registered
    in both with different host paths, and otherwise holds the commands of
    [self] then those of [other], the union of their context entries, and
    needs ssh when one of them does. *)
Theorem or_merge (self other : Builders.PartialDockerBuilder)
    (Hnd : NoDup (Ctx.keys (Ctx._context_entries (Builders._context self)))) :
  match Builders.__or__ self other with
  | inr r =>
      Ctx.diff_collision_paths (Builders._context self) (Builders._context other) = [] /\
      Builders._build_commands r = Builders._build_commands self ++ Builders._build_commands other /\
      Ctx._context_root (Builders._context r) = None /\
      Ctx._context_entries (Builders._context r) =
        Ctx.dict_update (Ctx._context_entries (Builders._context self))
                        (Ctx._context_entries (Builders._context other)) /\
      Builders._needs_ssh r = Builders._needs_ssh self || Builders._needs_ssh other
  | inl e =>
      Ctx.diff_collision_paths (Builders._context self) (Builders._context other) <> [] /\
      e = ValueError_merge (Ctx.diff_collision_paths (Builders._context self) (Builders._context other))
  end.
Proof.
  rewrite or_eq by done.
  destruct (Ctx.diff_collision_paths (Builders._context self) (Builders._context other)); done.
Qed.

Lemma merge_conflicts_assoc (x y z : Ctx.BuildContext) (r : option Path) :
  NoDup (Ctx.keys (Ctx._context_entries y)) -> NoDup (Ctx.keys (Ctx._context_entries z)) ->
  (Ctx.diff_collision_paths x y = [] /\
   Ctx.diff_collision_paths
     (Ctx.mkBuildContext r (Ctx.dict_update (Ctx._context_entries x) (Ctx._context_entries y))) z = [])
  <->
  (Ctx.diff_collision_paths y z = [] /\
   Ctx.diff_collision_paths x
     (Ctx.mkBuildContext r (Ctx.dict_update (Ctx._context_entries y) (Ctx._context_entries z))) = []).
Proof.
  intros Hy Hz. rewrite !diff_nil_iff. cbn [Ctx._context_entries].
  setoid_rewrite (dict_get_update _ _ _ Hy). setoid_rewrite (dict_get_update _ _ _ Hz).
  split; intros [H1 H2]; split; intros k u w Hu Hw.
  - apply (H2 k); [by rewrite Hu | done].
  - destruct (Ctx.dict_get k (Ctx._context_entries z)) as [p|] eqn:Ez.
    + injection Hw as <-.
      destruct (Ctx.dict_get k (Ctx._context_entries y)) as [q|] eqn:Ey.
      * rewrite (H1 k u q Hu Ey). apply (H2 k); [by rewrite Ey | done].
      * apply (H2 k); [by rewrite Ey | done].
    + exact (H1 k u w Hu Hw).
  - destruct (Ctx.dict_get k (Ctx._context_entries z)) as [p|] eqn:Ez.
    + rewrite (H2 k u p Hu ltac:(by rewrite Ez)). symmetry. exact (H1 k w p Hw Ez).
    + apply (H2 k); [done | by rewrite Ez].
  - destruct (Ctx.dict_get k (Ctx._context_entries y)) as [q|] eqn:Ey.
    + injection Hu as <-. exact (H1 k q w Ey Hw).
    + apply (H2 k); [done | by rewrite Hw].
Qed.

(** X8. [|] is associative: for builders whose contexts register each
    context path once (as [add_context_entry] keeps them), [(a | b) | c]
    raises exactly when [a | (b | c)] raises, and otherwise both give the
    same builder, with the same commands, context entries (in the same
    order) and [needs_ssh] flag. *)
Theorem or_assoc (a b c : Builders.PartialDockerBuilder)
    (Ha : NoDup (Ctx.keys (Ctx._context_entries (Builders._context a))))
    (Hb : NoDup (Ctx.keys (Ctx._context_entries (Builders._context b))))
    (Hc : NoDup (Ctx.keys (Ctx._context_entries (Builders._context c)))) :
  match Builders.or_l (Builders.__or__ a b) c, Builders.or_r a (Builders.__or__ b c) with
  | inr r1, inr r2 => r1 = r2
  | inl _, inl _ => True
  | _, _ => False
  end.
Proof.
  pose proof (merge_conflicts_assoc (Builders._context a) (Builders._context b)
                (Builders._context c) None Hb Hc) as Hiff.
  set (ea := Ctx._context_entries (Builders._context a)) in *.
  set (eb := Ctx._context_entries (Builders._context b)) in *.
  set (ec := Ctx._context_entries (Builders._context c)) in *.
  set (d1 := Ctx.diff_collision_paths (Ctx.mkBuildContext None (Ctx.dict_update ea eb))
               (Builders._context c)) in *.
  set (d2 := Ctx.diff_collision_paths (Builders._context a)
               (Ctx.mkBuildContext None (Ctx.dict_update eb ec))) in *.
  unfold Builders.or_l, Builders.or_r.
  rewrite (or_eq a b Ha), (or_eq b c Hb).
  destruct (Ctx.diff_collision_paths (Builders._context a) (Builders._context b)) as [|p ps] eqn:Eab;
    destruct (Ctx.diff_collision_paths (Builders._context b) (Builders._context c)) as [|q qs] eqn:Ebc.
  - rewrite or_eq by (cbn; by apply NoDup_keys_update).
    rewrite (or_eq a _ Ha).
    cbn [Builders._context Builders._build_commands Builders._needs_ssh Ctx._context_entries].
    fold ea eb ec d1 d2.
    destruct d1 as [|p ps] eqn:E1; destruct d2 as [|q qs] eqn:E2.
    + rewrite dict_update_assoc by done. by rewrite app_assoc, orb_assoc.
    + exfalso. destruct Hiff as [Hiff _]. destruct (Hiff (conj eq_refl eq_refl)) as [_ H].
      discriminate.
    + exfalso. destruct Hiff as [_ Hiff]. destruct (Hiff (conj eq_refl eq_refl)) as [_ H].
      discriminate.
    + done.
  - rewrite or_eq by (cbn; by apply NoDup_keys_update).
    cbn [Builders._context Builders._build_commands Builders._needs_ssh Ctx._context_entries].
    fold ea eb d1.
    destruct d1 as [|r rs] eqn:E1; [|done].
    exfalso. destruct Hiff as [Hiff _]. destruct (Hiff (conj eq_refl eq_refl)) as [H _].
    discriminate.
  - rewrite (or_eq a _ Ha).
    cbn [Builders._context Builders._build_commands Builders._needs_ssh Ctx._context_entries].
    fold eb ec d2.
    destruct d2 as [|r rs] eqn:E2; [|done].
    exfalso. destruct Hiff as [_ Hiff]. destruct (Hiff (conj eq_refl eq_refl)) as [H _].
    discriminate.
  - done.
Qed.

(** X9. [DockerBuilder.__or__] keeps the left builder's tag and package
    manager but not its [use_buildkit] choice: the merged builder always
    uses BuildKit, so its build environment is [BUILDKIT_PROGRESS=plain]
    even when [self] was created with [use_buildkit=False]. Its commands
    are those of [self] then those of [other]. *)
Theorem docker_or_uses_buildkit (self : Builders.DockerBuilder)
    (other : Builders.PartialDockerBuilder) (r : Builders.DockerBuilder)
    (Hok : Builders.docker_or self other = inr r) :
  Builders._use_buildkit r = true /\
  Builders.get_build_environment r = [("BUILDKIT_PROGRESS", "plain")] /\
  Builders._tag r = Builders._tag self /\
  Builders._package_manager r = Builders._package_manager self /\
  Builders._build_commands (Builders.partial r) =
    Builders._build_commands (Builders.partial self) ++ Builders._build_commands other.
Proof.
  unfold Builders.docker_or in Hok.
  destruct (Builders._extend _ (Builders.partial self)) as [[e|[]] r1] eqn:E1; [discriminate|].
  destruct (Builders._extend r1 other) as [[e|[]] r2] eqn:E2; [discriminate|].
  unfold Builders._extend in E1, E2.
  destruct (Ctx.extend _ (Builders._context (Builders.partial self))) as [[|[]] c1];
    [discriminate|]. injection E1 as <-. cbn in E2.
  destruct (Ctx.extend c1 (Builders._context other)) as [[|[]] c2]; [discriminate|].
  injection E2 as <-. injection Hok as <-. done.
Qed.

(** X10. [get_build_commands] first runs [which docker]: when that raises,
    its exception propagates, whatever the ssh settings. When it succeeds,
    the [RuntimeError] is raised exactly when the builder needs ssh and
    [SSH_AUTH_SOCK] is unset or empty; otherwise the command is returned,
    starting with the path [which] printed, and passing the agent socket
    with [--ssh] when ssh is needed. *)
Theorem get_build_commands_ssh (self : Builders.DockerBuilder) (which_docker : Exc + string)
    (ssh_auth_sock : option string) (dockerfile_path docker_build_dir : PathType)
    (uid gid : option string) :
  match which_docker with
  | inl e =>
      Builders.get_build_commands self which_docker ssh_auth_sock dockerfile_path
        docker_build_dir uid gid = inl e
  | inr docker_path =>
      (Builders._needs_ssh (Builders.partial self) = true /\
       (ssh_auth_sock = None \/ ssh_auth_sock = Some "") /\
       Builders.get_build_commands self which_docker ssh_auth_sock dockerfile_path
         docker_build_dir uid gid = inl RuntimeError_ssh) \/
      (exists command,
         Builders.get_build_commands self which_docker ssh_auth_sock dockerfile_path
           docker_build_dir uid gid = inr command /\
         head command = Some docker_path /\
         (Builders._needs_ssh (Builders.partial self) = false \/
          exists sock, ssh_auth_sock = Some sock /\ sock <> "" /\
                       "--ssh" ∈ command /\ String.append "default=" sock ∈ command))
  end.
Proof.
  destruct which_docker as [e|docker_path]; [done|].
  unfold Builders.get_build_commands.
  destruct (Builders._needs_ssh (Builders.partial self)) eqn:Hssh.
  - destruct ssh_auth_sock as [sock|].
    + destruct (decide (sock = "")) as [->|Hne].
      * left. split; [done|]. split; [by right | done].
      * right. eexists. split; [reflexivity|]. split; [done|]. right. exists sock.
        split; [done|]. split; [done|].
        split; apply elem_of_app; right; apply elem_of_app; right; apply elem_of_app; left;
          apply elem_of_cons; [by left | right; apply elem_of_cons; by left].
    + left. split; [done|]. split; [by left | done].
  - right. eexists. split; [reflexivity|]. split; [done|]. by left.
Qed.

(** X11. A root or missing user or group id is never passed to the image
    build: [uid] and [gid] given as [None], [""] or ["0"] give the same
    command as no ids at all. *)
Theorem get_build_commands_root_ids (self : Builders.DockerBuilder)
    (which_docker : Exc + string)
    (ssh_auth_sock : option string) (dockerfile_path docker_build_dir : PathType)
    (uid gid : option string)
    (Huid : uid ∈ [None; Some ""; Some "0"]) (Hgid : gid ∈ [None; Some ""; Some "0"]) :
  Builders.get_build_commands self which_docker ssh_auth_sock dockerfile_path docker_build_dir
    uid gid =
  Builders.get_build_commands self which_docker ssh_auth_sock dockerfile_path docker_build_dir
    None None.
Proof.
  assert (Hid : forall key v, v ∈ [None; Some ""; Some "0"] -> Builders.id_build_arg key v = []).
  { intros key v Hv. rewrite !elem_of_cons, elem_of_nil in Hv.
    destruct Hv as [->|[->|[->|[]]]]; unfold Builders.id_build_arg; [done| |];
      rewrite decide_False; naive_solver. }
  unfold Builders.get_build_commands. by rewrite (Hid _ _ Huid), (Hid _ _ Hgid).
Qed.

(** X12. [DockerBuilder.generate_dockerfile] renders the Dockerfile before
    it writes anything: with a package manager other than ["apt"] and an
    [add_packages] command, it raises the [ValueError] naming the package
    manager and leaves the filesystem untouched (no Dockerfile, not even the
    copies under [/tmp]). *)
Theorem generate_dockerfile_unsupported_pm (self : Builders.DockerBuilder)
    (dockerfile_paths : list PathType) (packages : list string) (s : FS)
    (Hpm : Builders._package_manager self <> "apt")
    (Hin : Builders.AddPkgDockerBuildCommand packages
             ∈ Builders._build_commands (Builders.partial self)) :
  Builders.generate_dockerfile self dockerfile_paths s =
    (inl (ValueError_pkg_manager (Builders._package_manager self)), s).
Proof.
  unfold Builders.generate_dockerfile, Builders.render_dockerfile_content.
  destruct (command_strs_cases (Builders._package_manager self)
              (Builders._build_commands (Builders.partial self)))
    as [(_ & _ & ->)|([Hapt|Hnone] & _)]; [done| |].
  - by destruct (Hpm Hapt).
  - by destruct (Hnone packages Hin).
Qed.

(** X13. [DockerBuilder.generate_build_script] builds the command before it
    touches the filesystem: for a builder that needs ssh with
    [SSH_AUTH_SOCK] unset or empty, it raises (the exception of
    [which docker] when that fails, the [RuntimeError] otherwise) and
    creates neither the script nor its parent directories. *)
Theorem generate_build_script_ssh_error (self : Builders.DockerBuilder)
    (which_docker : Exc + string) (ssh_auth_sock : option string) (output_path : PathType)
    (s : FS)
    (Hssh : Builders._needs_ssh (Builders.partial self) = true)
    (Hsock : ssh_auth_sock = None \/ ssh_auth_sock = Some "") :
  Builders.generate_build_script self which_docker ssh_auth_sock output_path s =
    (inl (match which_docker with inl e => e | inr _ => RuntimeError_ssh end), s).
Proof.
  unfold Builders.generate_build_script, Builders.get_build_commands.
  destruct which_docker as [e|docker_path]; [done|].
  rewrite Hssh. by destruct Hsock as [->| ->].
Qed.


(** Witnesses. *)

Lemma copy_registers_sources_witness :
  Builders.copy Fixtures.bld_src (Builders.SrcIter [PStr "/src/lib"; PStr "/src/readme"])
    (PStr "/app") None None = (inr tt, Fixtures.bld_src_copied) /\
  exists ctx_paths,
    Builders._build_commands Fixtures.bld_src_copied =
      Builders._build_commands Fixtures.bld_src ++
        [Builders.CopyDockerBuildCommand ctx_paths (to_path (PStr "/app")) None None] /\
    ctx_paths <> [].
Proof.
  assert (H : Builders.copy Fixtures.bld_src
                (Builders.SrcIter [PStr "/src/lib"; PStr "/src/readme"])
                (PStr "/app") None None = (inr tt, Fixtures.bld_src_copied))
    by (vm_compute; reflexivity).
  split; [exact H|].
  destruct (copy_registers_sources _ _ _ _ _ _ H) as (cps & H1 & _ & H3 & _).
  exists cps. split; [exact H1 | exact H3].
Defined.

Lemma copy_failure_keeps_registered_witness :
  Builders.copy Fixtures.bld_a (Builders.SrcIter [PStr "/c/g"; PStr "/b/f"]) (PStr "/app")
    None None = (inl (ValueError_duplicate (of_string "f")), Fixtures.bld_a_failed) /\
  Builders._build_commands Fixtures.bld_a_failed = Builders._build_commands Fixtures.bld_a.
Proof.
  assert (H : Builders.copy Fixtures.bld_a (Builders.SrcIter [PStr "/c/g"; PStr "/b/f"])
                (PStr "/app") None None =
              (inl (ValueError_duplicate (of_string "f")), Fixtures.bld_a_failed))
    by (vm_compute; reflexivity).
  split; [exact H|].
  exact (proj1 (copy_failure_keeps_registered _ _ _ _ _ _ _ H)).
Defined.

Lemma ior_failure_keeps_commands_witness :
  Builders.__ior__ Fixtures.bld_a Fixtures.bld_b =
    (inl (ValueError_merge [of_string "f"]), Fixtures.bld_ab_ior) /\
  Builders._context Fixtures.bld_ab_ior = Builders._context Fixtures.bld_a.
Proof.
  assert (H : Builders.__ior__ Fixtures.bld_a Fixtures.bld_b =
              (inl (ValueError_merge [of_string "f"]), Fixtures.bld_ab_ior))
    by (vm_compute; reflexivity).
  split; [exact H|].
  exact (proj1 (proj2 (ior_failure_keeps_commands _ _ _ _ H))).
Defined.

Lemma or_merge_witness :
  NoDup (Ctx.keys (Ctx._context_entries (Builders._context Fixtures.bld_a))) /\
  match Builders.__or__ Fixtures.bld_a Fixtures.bld_b with
  | inr _ => False
  | inl e => e = ValueError_merge [of_string "f"]
  end.
Proof.
  assert (Hnd : NoDup (Ctx.keys (Ctx._context_entries (Builders._context Fixtures.bld_a))))
    by (apply (bool_decide_unpack _); vm_compute; reflexivity).
  split; [exact Hnd|].
  pose proof (or_merge Fixtures.bld_a Fixtures.bld_b Hnd) as H.
  destruct (Builders.__or__ Fixtures.bld_a Fixtures.bld_b) as [e|r].
  - destruct H as [_ ->]. vm_compute. reflexivity.
  - destruct H as [Hd _]. vm_compute in Hd. discriminate.
Defined.

Lemma or_assoc_witness :
  NoDup (Ctx.keys (Ctx._context_entries (Builders._context Fixtures.bld_a))) /\
  NoDup (Ctx.keys (Ctx._context_entries (Builders._context Fixtures.bld_c))) /\
  NoDup (Ctx.keys (Ctx._context_entries (Builders._context Fixtures.bld_src_copied))) /\
  match Builders.or_l (Builders.__or__ Fixtures.bld_a Fixtures.bld_c) Fixtures.bld_src_copied,
        Builders.or_r Fixtures.bld_a (Builders.__or__ Fixtures.bld_c Fixtures.bld_src_copied) with
  | inr r1, inr r2 => r1 = r2
  | inl _, inl _ => True
  | _, _ => False
  end.
Proof.
  assert (Ha : NoDup (Ctx.keys (Ctx._context_entries (Builders._context Fixtures.bld_a))))
    by (apply (bool_decide_unpack _); vm_compute; reflexivity).
  assert (Hb : NoDup (Ctx.keys (Ctx._context_entries (Builders._context Fixtures.bld_c))))
    by (apply (bool_decide_unpack _); vm_compute; reflexivity).
  assert (Hc : NoDup (Ctx.keys (Ctx._context_entries
                                  (Builders._context Fixtures.bld_src_copied))))
    by (apply (bool_decide_unpack _); vm_compute; reflexivity).
  split; [exact Ha|]. split; [exact Hb|]. split; [exact Hc|].
  exact (or_assoc _ _ _ Ha Hb Hc).
Defined.

Lemma docker_or_uses_buildkit_witness :
  Builders._use_buildkit Fixtures.docker_plain = false /\
  Builders.docker_or Fixtures.docker_plain Fixtures.bld_c = inr Fixtures.docker_merged /\
  Builders.get_build_environment Fixtures.docker_merged = [("BUILDKIT_PROGRESS", "plain")].
Proof.
  assert (H : Builders.docker_or Fixtures.docker_plain Fixtures.bld_c =
              inr Fixtures.docker_merged) by (vm_compute; reflexivity).
  split; [reflexivity|]. split; [exact H|].
  exact (proj1 (proj2 (docker_or_uses_buildkit _ _ _ H))).
Defined.

Lemma get_build_commands_root_ids_witness :
  Builders.get_build_commands Fixtures.docker_plain (inr "/usr/bin/docker") None
    (PStr "Dockerfile") (PStr ".") (Some "0") (Some "") =
  Builders.get_build_commands Fixtures.docker_plain (inr "/usr/bin/docker") None
    (PStr "Dockerfile") (PStr ".") None None.
Proof.
  apply get_build_commands_root_ids; apply list_elem_of_In; simpl; tauto.
Defined.

Lemma generate_dockerfile_unsupported_pm_witness :
  Builders.generate_dockerfile Fixtures.docker_yum [PStr "/out/Dockerfile"] Fixtures.fs_tree =
    (inl (ValueError_pkg_manager "yum"), Fixtures.fs_tree).
Proof.
  apply (generate_dockerfile_unsupported_pm Fixtures.docker_yum _ ["git"]).
  - vm_compute. discriminate.
  - apply list_elem_of_In. vm_compute. tauto.
Defined.

Lemma generate_build_script_ssh_error_witness :
  Builders.generate_build_script Fixtures.docker_ssh (inr "/usr/bin/docker") None
    (PStr "/out/build.sh") Fixtures.fs_tree = (inl RuntimeError_ssh, Fixtures.fs_tree) /\
  Builders.generate_build_script Fixtures.docker_ssh
    (inl (CalledProcessError 1 ["which"; "docker"])) None
    (PStr "/out/build.sh") Fixtures.fs_tree =
    (inl (CalledProcessError 1 ["which"; "docker"]), Fixtures.fs_tree).
Proof.
  split; apply generate_build_script_ssh_error; solve [vm_compute; reflexivity | by left].
Defined.

